(** * Kando: the angular layout of the pie menu

    A shallow embedding of the math module of the menu: of
    [computeItemAngles], [computeItemAnglesDnD], [computeItemWedges],
    [isAngleBetween] and [computeDropIndex], and the properties of these
    functions.

    Numbers.  The source computes with JavaScript numbers, which are
    IEEE doubles.  Here a number is a rational ([Q]), and equality of
    numbers is [Qeq] ([==]); [NaN] and the infinities are outside the
    model.  The functions are first given on exact numbers, without
    rounding: the angles that [computeItemAngles] returns are then the
    angles of the source up to the rounding of their values.  The
    functions that decide on numbers which they computed
    ([isAngleBetween], [computeDropIndex], [computeItemWedges]) can
    decide differently when an operation rounds; [Module Double] has
    them with the rounding of every operation to the nearest double.
    For angles that are multiples of [2^-41] no operation of these
    functions rounds, and the two agree.  A value that may be [undefined]
    (an optional property, an optional parameter, a hole of a sparse
    array) is an [option].

    Arrays.  [itemAngles] is written by index in the source
    ([itemAngles[i] = v]) and is therefore a sparse array: a list of
    optional numbers, where [None] is a hole. *)

From Stdlib Require Import ZArith QArith Qabs Qminmax Qround.
From Stdlib Require Import List Bool Arith Sorted Permutation SetoidList Lia Lqa.
Import ListNotations.

Local Open Scope Q_scope.

(** ** Numbers *)

Module Num.

(** [x < y] as a boolean. *)
Definition ltb (x y : Q) : bool := negb (Qle_bool y x).

(** [x <= y] as a boolean. *)
Definition leb (x y : Q) : bool := Qle_bool x y.

(** Truncation towards zero, as the remainder operator of the source
    uses it. *)
Definition trunc (x : Q) : Z := Z.quot (Qnum x) (Zpos (Qden x)).

(** [x % y] of the source: the remainder has the sign of [x]. *)
Definition rem (x y : Q) : Q := x - y * inject_Z (trunc (x / y)).

(** [Math.min]. *)
Definition min (x y : Q) : Q := if Qle_bool x y then x else y.

End Num.

(** The integers of the source are numbers too. *)
Definition ofZ (z : Z) : Q := inject_Z z.

(** ** Sparse arrays *)

Module Arr.

(** [a[i]]: [None] for a hole and past the end. *)
Definition get (a : list (option Q)) (i : nat) : option Q :=
  match nth_error a i with
  | Some (Some v) => Some v
  | _ => None
  end.

(** [a[i] = v]: inside the array the slot is replaced, past the end the
    array grows and the slots in between are holes. *)
Fixpoint set (a : list (option Q)) (i : nat) (v : Q) : list (option Q) :=
  match a, i with
  | [], O => [Some v]
  | [], S i' => None :: set [] i' v
  | _ :: rest, O => Some v :: rest
  | x :: rest, S i' => x :: set rest i' v
  end.

End Arr.

(** ** Items and fixed angles *)

(** [{ angle?: number }]. *)
Record Item : Type := mkItem { angle : option Q }.

(** [{ angle: number; index: number }], an entry of [fixedAngles]. *)
Record FixedAngle : Type := mkFixed { fangle : Q; findex : nat }.

(** The option monad: [None] is a run that does not return an array
    (a read of a missing entry of [fixedAngles], or a loop that has not
    finished within its bound). *)
Definition bind {A B : Type} (m : option A) (f : A -> option B) : option B :=
  match m with
  | Some a => f a
  | None => None
  end.

Notation "x <- m ;; k" := (bind m (fun x => k))
  (at level 61, m at next level, right associativity).

(** ** computeItemAngles *)

(** [items.forEach((item, index) => ...)]: the items that have an
    [angle] property that is not negative. *)
Fixpoint collectFixed (index : nat) (items : list Item) : list FixedAngle :=
  match items with
  | [] => []
  | item :: rest =>
      match angle item with
      | Some a =>
          if Num.leb 0 a
          then mkFixed a index :: collectFixed (S index) rest
          else collectFixed (S index) rest
      | None => collectFixed (S index) rest
      end
  end.

(** The parent link must not collide with a fixed item. *)
Definition nudge (parentAngle : option Q) (f : FixedAngle) : FixedAngle :=
  match parentAngle with
  | Some p =>
      if Num.ltb (Qabs (fangle f - p)) (1 # 10000)
      then mkFixed (fangle f + (1 # 10)) (findex f)
      else f
  | None => f
  end.

(** Fixed angles are brought between 0 and 360. *)
Definition normalize (f : FixedAngle) : FixedAngle :=
  mkFixed (Num.rem (fangle f) 360) (findex f).

(** The loop that makes the fixed angles increase: [cur] is
    [fixedAngles[i]] and [rest] is what follows it.  When [cur] is larger
    than the next entry, that entry is spliced out and [i] stays; else
    [i] moves on. *)
Fixpoint pruneFrom (cur : FixedAngle) (rest : list FixedAngle) : list FixedAngle :=
  match rest with
  | [] => [cur]
  | next :: rest' =>
      if Num.ltb (fangle next) (fangle cur)
      then pruneFrom cur rest'
      else cur :: pruneFrom next rest'
  end.

Definition prune (fixedAngles : list FixedAngle) : list FixedAngle :=
  match fixedAngles with
  | [] => []
  | first :: rest => pruneFrom first rest
  end.

(** The fixed angles as they stand before the wedges are walked. *)
Definition fixedAnglesOf (items : list Item) (parentAngle : option Q)
  : list FixedAngle :=
  prune (map normalize (map (nudge parentAngle) (collectFixed 0 items))).

(** The search for the first angle when no item has a fixed one: the
    state is [(minAngleDiff, firstAngle)]. *)
Definition firstAngleStep (parentAngle wedgeSize : Q) (st : Q * Q) (i : nat)
  : Q * Q :=
  let angle := Num.rem (parentAngle + ofZ (Z.of_nat i + 1) * wedgeSize) 360 in
  let angleDiff := Num.min angle (360 - angle) in
  if Num.ltb angleDiff (fst st)
  then (angleDiff, Num.rem (angle + 360) 360)
  else st.

Definition firstAngleOf (n : nat) (parentAngle : option Q) : Q :=
  match parentAngle with
  | Some p =>
      let wedgeSize := 360 / ofZ (Z.of_nat n + 1) in
      snd (fold_left (firstAngleStep p wedgeSize) (seq 0 n) (360, 0))
  | None => 0
  end.

(** The [while (index != wedgeEndIndex)] loop of one wedge.  [fuel]
    bounds the number of iterations. *)
Fixpoint distribute (fuel n : nat) (wedgeBeginAngle wedgeItemGap : Q)
    (parentAngle : option Q) (wedgeEndIndex index : nat) (count : Z)
    (parentGapRequired : bool) (itemAngles : list (option Q))
  : option (list (option Q)) :=
  if Nat.eqb index wedgeEndIndex then Some itemAngles
  else
    match fuel with
    | O => None
    | S fuel' =>
        let itemAngle := wedgeBeginAngle + wedgeItemGap * ofZ count in
        let skip :=
          parentGapRequired &&
          match parentAngle with
          | Some p => Num.ltb 0 (itemAngle + wedgeItemGap / 2 - p)
          | None => false
          end in
        let count' := if skip then (count + 1)%Z else count in
        let itemAngle' :=
          if skip then wedgeBeginAngle + wedgeItemGap * ofZ count'
          else itemAngle in
        let parentGapRequired' := if skip then false else parentGapRequired in
        distribute fuel' n wedgeBeginAngle wedgeItemGap parentAngle
          wedgeEndIndex ((index + 1) mod n) (count' + 1)%Z
          parentGapRequired'
          (Arr.set itemAngles index (Num.rem itemAngle' 360))
    end.

(** One round of the loop over [fixedAngles]: the state is the parent
    angle, which the loop changes, and the output array. *)
Definition wedgeStep (n : nat) (fixedAngles : list FixedAngle)
    (st : option Q * list (option Q)) (i : nat)
  : option (option Q * list (option Q)) :=
  wedgeBegin <- nth_error fixedAngles i ;;
  wedgeEnd <- nth_error fixedAngles ((i + 1) mod length fixedAngles) ;;
  let wedgeBeginIndex := findex wedgeBegin in
  let wedgeBeginAngle := fangle wedgeBegin in
  let wedgeEndIndex := findex wedgeEnd in
  let itemAngles := Arr.set (snd st) wedgeBeginIndex wedgeBeginAngle in
  let wedgeEndAngle :=
    if Num.leb (fangle wedgeEnd) wedgeBeginAngle
    then fangle wedgeEnd + 360 else fangle wedgeEnd in
  let wedgeItemCount :=
    Z.rem (Z.of_nat wedgeEndIndex - Z.of_nat wedgeBeginIndex - 1 + Z.of_nat n)
          (Z.of_nat n) in
  let parentAngle :=
    match fst st with
    | Some p => if Num.ltb p wedgeBeginAngle then Some (p + 360) else Some p
    | None => None
    end in
  let parentInWedge :=
    match parentAngle with
    | Some p => Num.ltb wedgeBeginAngle p && Num.ltb p wedgeEndAngle
    | None => false
    end in
  let wedgeItemCount' :=
    if parentInWedge then (wedgeItemCount + 1)%Z else wedgeItemCount in
  let wedgeItemGap :=
    (wedgeEndAngle - wedgeBeginAngle) / ofZ (wedgeItemCount' + 1) in
  itemAngles' <-
    distribute n n wedgeBeginAngle wedgeItemGap parentAngle wedgeEndIndex
      ((wedgeBeginIndex + 1) mod n) 1 parentInWedge itemAngles ;;
  Some (parentAngle, itemAngles').

(** [for (let i = 0; i < fixedAngles.length; i++)], with [todo] rounds
    left. *)
Fixpoint wedgeLoop (todo : nat) (n : nat) (fixedAngles : list FixedAngle)
    (i : nat) (st : option Q * list (option Q))
  : option (option Q * list (option Q)) :=
  match todo with
  | O => Some st
  | S todo' =>
      st' <- wedgeStep n fixedAngles st i ;;
      wedgeLoop todo' n fixedAngles (S i) st'
  end.

(** The second half of [computeItemAngles]: from the pruned fixed angles
    to the output. *)
Definition layout (n : nat) (parentAngle : option Q)
    (fixedAngles : list FixedAngle) : option (list (option Q)) :=
  let '(fixedAngles, itemAngles) :=
    match fixedAngles with
    | [] =>
        let firstAngle := firstAngleOf n parentAngle in
        ([mkFixed firstAngle 0], Arr.set [] 0 firstAngle)
    | _ => (fixedAngles, [])
    end in
  st <- wedgeLoop (length fixedAngles) n fixedAngles 0 (parentAngle, itemAngles) ;;
  Some (snd st).

Definition computeItemAngles (items : list Item) (parentAngle : option Q)
  : option (list (option Q)) :=
  match items with
  | [] => Some []
  | _ => layout (length items) parentAngle (fixedAnglesOf items parentAngle)
  end.

(** ** computeItemAnglesDnD *)

(** The first argument of [Array.prototype.splice], made an offset into
    an array of [len] elements: a negative start counts from the end and
    both ends are clamped. *)
Definition spliceStart (len : nat) (start : Z) : nat :=
  if (start <? 0)%Z
  then Z.to_nat (Z.max (Z.of_nat len + start) 0)
  else Z.to_nat (Z.min start (Z.of_nat len)).

(** [a.splice(start, 0, x)]. *)
Definition spliceInsert {A : Type} (a : list A) (start : Z) (x : A) : list A :=
  let k := spliceStart (length a) start in
  firstn k a ++ x :: skipn k a.

(** [a.splice(start, 1)]: the array that is left and the elements that
    were taken out. *)
Definition spliceRemove {A : Type} (a : list A) (start : Z) : list A * list A :=
  let k := spliceStart (length a) start in
  (firstn k a ++ skipn (S k) a, firstn 1 (skipn k a)).

(** [dropAngle] of the result: [null] when nothing is dropped, else what
    was read from the array (a number or [undefined]). *)
Inductive DropAngle : Type :=
| NoDrop
| DropAt (a : option Q).

Record DnD : Type := mkDnD { itemAngles : list (option Q); dropAngle : DropAngle }.

Definition computeItemAnglesDnD (items : list Item) (parentAngle : option Q)
    (dropIndex : option Z) : option DnD :=
  let itemsCopy :=
    match dropIndex with
    | Some d => spliceInsert items d (mkItem None)
    | None => items
    end in
  itemAngles <- computeItemAngles itemsCopy parentAngle ;;
  match dropIndex with
  | Some d =>
      let '(kept, removed) := spliceRemove itemAngles d in
      Some (mkDnD kept (DropAt (Arr.get removed 0)))
  | None => Some (mkDnD itemAngles NoDrop)
  end.

(** ** computeItemWedges, on exact numbers *)

Record Wedge : Type := mkWedge { start : option Q; end_ : option Q }.

(** [allAngles.sort((a, b) => a - b)]: a stable sort by value. *)
Fixpoint insertSorted (x : Q) (l : list Q) : list Q :=
  match l with
  | [] => [x]
  | y :: rest => if Num.leb x y then x :: l else y :: insertSorted x rest
  end.

Definition sortAngles (l : list Q) : list Q := fold_right insertSorted [] l.

(** The reads [allAngles[i]] below are inside the array, the default of
    [nth] is never returned. *)
Definition separatorAt (allAngles : list Q) (i : nat) : Q :=
  if Nat.eqb i (length allAngles - 1)
  then (nth i allAngles 0 + nth 0 allAngles 0 + 360) / 2
  else (nth i allAngles 0 + nth (i + 1) allAngles 0) / 2.

Definition separatorsOf (allAngles : list Q) : list Q :=
  map (separatorAt allAngles) (seq 0 (length allAngles)).

(** [separators.findIndex(p)]: [None] is the -1 of the source. *)
Fixpoint findIndex (p : Q -> bool) (l : list Q) : option nat :=
  match l with
  | [] => None
  | x :: rest => if p x then Some O else option_map S (findIndex p rest)
  end.

(** The wedge of one item.  With no separator above the angle both reads
    of [separators] are out of range and give [undefined]. *)
Definition wedgeOf (separators : list Q) (itemAngle : Q) : Wedge :=
  match findIndex (fun s => Num.ltb itemAngle s) separators with
  | Some O =>
      mkWedge
        (option_map (fun s => s - 360)
           (nth_error separators (length separators - 1)))
        (nth_error separators 0)
  | Some (S k) =>
      mkWedge (nth_error separators k) (nth_error separators (S k))
  | None => mkWedge None None
  end.

Definition allAnglesOf (itemAngles : list Q) (parentAngle : option Q) : list Q :=
  sortAngles
    (match parentAngle with
     | Some p => itemAngles ++ [p]
     | None => itemAngles
     end).

Definition computeItemWedges (itemAngles : list Q) (parentAngle : option Q)
  : list Wedge :=
  match itemAngles, parentAngle with
  | [], _ => []
  | [_], None => [mkWedge (Some 0) (Some 360)]
  | _, _ =>
      let separators := separatorsOf (allAnglesOf itemAngles parentAngle) in
      map (wedgeOf separators) itemAngles
  end.

(** ** isAngleBetween and computeDropIndex, on exact numbers *)

Definition isAngleBetween (angle start end_ : Q) : bool :=
  (Num.ltb start angle && Num.leb angle end_)
  || (Num.ltb start (angle - 360) && Num.leb (angle - 360) end_)
  || (Num.ltb start (angle + 360) && Num.leb (angle + 360) end_).

(** The drop zone of item [i]; the reads of [itemAngles] are inside the
    array. *)
Definition dropZone (itemAngles : list Q) (i : nat) : Q * Q :=
  let n := length itemAngles in
  let wedgeStart := nth ((i + n - 1) mod n) itemAngles 0 in
  let wedgeCenter0 := nth i itemAngles 0 in
  let wedgeEnd0 := nth ((i + 1) mod n) itemAngles 0 in
  let wedgeCenter :=
    if Num.ltb wedgeCenter0 wedgeStart then wedgeCenter0 + 360
    else wedgeCenter0 in
  let wedgeEnd :=
    if Num.ltb wedgeEnd0 wedgeCenter then wedgeEnd0 + 360 else wedgeEnd0 in
  (wedgeCenter - (wedgeCenter - wedgeStart) * (1 # 2),
   wedgeCenter + (wedgeEnd - wedgeCenter) * (1 # 2)).

(** The loop over the drop zones, with [todo] rounds left; [None] is
    the fall through past the loop, where the source returns no value. *)
Fixpoint dropLoop (itemAngles : list Q) (dragAngle : Q) (todo i : nat)
  : option nat :=
  match todo with
  | O => None
  | S todo' =>
      let '(dropZoneStart, dropZoneEnd) := dropZone itemAngles i in
      if isAngleBetween dragAngle dropZoneStart dropZoneEnd then Some i
      else dropLoop itemAngles dragAngle todo' (S i)
  end.

Definition computeDropIndex (itemAngles : list Q) (dragAngle : Q) : option nat :=
  match itemAngles with
  | [] => Some O
  | [a] =>
      if Num.ltb (dragAngle - a) 90 || Num.ltb 270 (dragAngle - a)
      then Some O else Some 1%nat
  | _ => dropLoop itemAngles dragAngle (length itemAngles) 0
  end.

(** ** Predicates on arrays and on lists of fixed angles *)

(** An array of [n] slots without a hole. *)
Definition full (n : nat) (a : list (option Q)) : Prop :=
  length a = n /\ forall j, (j < n)%nat -> Arr.get a j <> None.

(** Every number of the array is an angle between 0 and 360. *)
Definition inRange (a : list (option Q)) : Prop :=
  forall j v, Arr.get a j = Some v -> 0 <= v /\ v < 360.

(** What a run of writes does to the array: it changes only the slots
    of [W], leaves no hole in [W], makes no hole, keeps the angles in
    range and the array within [n] slots. *)
Record writes (n : nat) (W : nat -> Prop) (a a' : list (option Q)) : Prop :=
  mkWrites {
    w_frame : forall j, ~ W j -> Arr.get a' j = Arr.get a j;
    w_filled : forall j, W j -> Arr.get a' j <> None;
    w_kept : forall j, Arr.get a j <> None -> Arr.get a' j <> None;
    w_range : inRange a -> inRange a';
    w_length : (length a <= n)%nat -> (length a' <= n)%nat
  }.

(** The slots strictly between [b] and [e], going around an array of
    [n] slots. *)
Definition between (n b e j : nat) : Prop :=
  if (b <? e)%nat then (b < j < e)%nat else (b < j < n \/ j < e)%nat.

(** The entry [i] of the fixed angles, and the slots that round [i] of
    the wedge loop writes. *)
Definition entryOf (fixedAngles : list FixedAngle) (i : nat) : FixedAngle :=
  nth i fixedAngles (mkFixed 0 0).

Definition wedgeSlots (n : nat) (fixedAngles : list FixedAngle) (i j : nat)
  : Prop :=
  j = findex (entryOf fixedAngles i) \/
  between n (findex (entryOf fixedAngles i))
    (findex (entryOf fixedAngles ((i + 1) mod length fixedAngles))) j.

(** The state of the wedge loop between two rounds, [i] rounds done. *)
Record loopInv (n : nat) (fixedAngles : list FixedAngle) (i : nat)
    (a : list (option Q)) : Prop := mkLoopInv {
  li_fixed : forall m, (m < i)%nat ->
    Arr.get a (findex (entryOf fixedAngles m)) =
    Some (fangle (entryOf fixedAngles m));
  li_filled : forall m j, (m < i)%nat -> wedgeSlots n fixedAngles m j ->
    Arr.get a j <> None;
  li_range : inRange a;
  li_length : (length a <= n)%nat
}.

Definition angleInRange (a : Q) : Prop := 0 <= a /\ a < 360.

(** The indices of the list increase. *)
Definition indexLt (f g : FixedAngle) : Prop := (findex f < findex g)%nat.

(** A list of fixed angles as the wedge loop needs it. *)
Definition wellFormed (n : nat) (fs : list FixedAngle) : Prop :=
  StronglySorted indexLt fs /\
  Forall (fun f => (findex f < n)%nat /\ angleInRange (fangle f)) fs.

(** ** Notions the properties are stated with *)

Definition free : Item := mkItem None.
Definition fixedAt (a : Q) : Item := mkItem (Some a).

(** The three items of the example: item 1 is fixed at 45 degrees. *)
Definition exampleThree : list Item := [free; fixedAt 45; free].

(** The four items of the example: no angle is fixed. *)
Definition exampleFour : list Item := [free; free; free; free].

(** The array [out] has no hole and holds the numbers [expected]. *)
Fixpoint sameAngles (out : list (option Q)) (expected : list Q) : bool :=
  match out, expected with
  | [], [] => true
  | Some v :: out', x :: expected' => Qeq_bool v x && sameAngles out' expected'
  | _, _ => false
  end.


(** The angle [a] does not collide with the parent angle: there is no
    parent, or the two differ by 0.0001 or more. *)
Definition clearOfParent (parentAngle : option Q) (a : Q) : Prop :=
  forall q, parentAngle = Some q -> (1 # 10000) <= Qabs (a - q).

(** The angular distance of two angles of the interval from 0 to 360,
    as the specification of [computeDropIndex] uses it: the shorter of
    the two ways around the circle. *)
Definition angularDistance (x a : Q) : Q :=
  Num.min (Qabs (x - a)) (360 - Qabs (x - a)).

(** All the angles that the separators are computed from. *)
Definition anglesWith (itemAngles : list Q) (parentAngle : option Q) : list Q :=
  match parentAngle with
  | Some p => itemAngles ++ [p]
  | None => itemAngles
  end.

(** A wedge with both ends, the start below the end. *)
Definition wedgeProper (w : Wedge) : Prop :=
  exists s e, start w = Some s /\ end_ w = Some e /\ s < e.

(** The pointer angle [x] lies in the wedge [w]; the wrap-around is the
    one of [isAngleBetween]. *)
Definition wedgeHolds (w : Wedge) (x : Q) : bool :=
  match start w, end_ w with
  | Some s, Some e => isAngleBetween x s e
  | _, _ => false
  end.

(** The sector that is left for the link to the parent: the interval
    between the separators next to the parent angle, computed as
    [computeItemWedges] computes the wedge of an item. *)
Definition parentSector (itemAngles : list Q) (p : Q) : Wedge :=
  wedgeOf (separatorsOf (allAnglesOf itemAngles (Some p))) p.

(** The wedge of item [i] holds the pointer angle [x]. *)
Definition holdsAt (wedges : list Wedge) (i : nat) (x : Q) : Prop :=
  exists w, nth_error wedges i = Some w /\ wedgeHolds w x = true.

(** On exact numbers, with the test of [isAngleBetween]: the wedges
    that [computeItemWedges] returns divide the circle:
    there is one wedge for each item, with its start below its end; no
    pointer angle lies in two wedges; without a parent angle every
    pointer angle lies in a wedge; with a parent angle that is not the
    angle of an item, every pointer angle lies in a wedge or in the
    sector of the parent, never in both. *)
Record wedgesPartition (itemAngles : list Q) (parentAngle : option Q) : Prop :=
  mkWedgesPartition {
    wp_length :
      length (computeItemWedges itemAngles parentAngle) = length itemAngles;
    wp_proper :
      Forall wedgeProper (computeItemWedges itemAngles parentAngle);
    wp_disjoint :
      forall x i j,
        holdsAt (computeItemWedges itemAngles parentAngle) i x ->
        holdsAt (computeItemWedges itemAngles parentAngle) j x -> i = j;
    wp_cover_root :
      parentAngle = None ->
      forall x, angleInRange x ->
        exists i, holdsAt (computeItemWedges itemAngles parentAngle) i x;
    wp_cover_parent :
      forall p, parentAngle = Some p ->
        (forall a, In a itemAngles -> ~ a == p) ->
        forall x, angleInRange x ->
          (exists i, holdsAt (computeItemWedges itemAngles parentAngle) i x) \/
          wedgeHolds (parentSector itemAngles p) x = true;
    wp_parent_apart :
      forall p, parentAngle = Some p ->
        (forall a, In a itemAngles -> ~ a == p) ->
        forall x i,
          holdsAt (computeItemWedges itemAngles parentAngle) i x ->
          wedgeHolds (parentSector itemAngles p) x = false
  }.

(** The boundaries of the drop zones of [l], from the middle between
    items 0 and 1 once around the circle. *)
Definition zoneChain (l : list Q) (j : nat) : Q :=
  let n := length l in
  if (j <? n - 1)%nat then (nth j l 0 + nth (j + 1) l 0) / 2
  else if (j =? n - 1)%nat then (nth (n - 1) l 0 + nth 0 l 0 + 360) / 2
  else (nth 0 l 0 + nth 1 l 0) / 2 + 360.

(** The boundaries of the sectors of the sorted angles [sorted]: the
    last separator one turn back, then the separators in their order. *)
Definition sectorChain (sorted : list Q) (j : nat) : Q :=
  match j with
  | O => separatorAt sorted (length sorted - 1) - 360
  | S j' => separatorAt sorted j'
  end.

(** The index of the sector of an angle: the first separator above it. *)
Definition sectorIndex (sorted : list Q) (x : Q) : option nat :=
  findIndex (fun s => Num.ltb x s) (separatorsOf sorted).

(** ** Notions of the further properties *)

(** An item without a fixed angle: the [angle] property is absent or
    negative. *)
Definition isFree (item : Item) : Prop :=
  match angle item with
  | Some a => a < 0
  | None => True
  end.

(** The angles of the list do not decrease. *)
Definition angleLe (f g : FixedAngle) : Prop := fangle f <= fangle g.

(** The array [out] has no hole and holds, slot by slot, the numbers
    of [expected]. *)
Definition holdsAngles (out : list (option Q)) (expected : list Q) : Prop :=
  Forall2 (fun slot a => exists v, slot = Some v /\ v == a) out expected.

(** ** setupAngles of the menu preview *)

(** A node of the menu tree of the editor, as [setupAngles] sees it: its
    [angle], which may be undefined, and its children (no [children]
    property and an empty array are the same to [setupAngles]). *)
#[warnings="-register-all"]
Inductive Node : Type :=
| mkNode (nodeAngle : option Q) (children : list Node).

Definition nodeAngle (node : Node) : option Q :=
  match node with mkNode a _ => a end.

Definition children (node : Node) : list Node :=
  match node with mkNode _ cs => cs end.

(** Induction on a node, with the property known for the children. *)
Fixpoint node_induction (P : Node -> Prop)
    (step : forall a cs, Forall P cs -> P (mkNode a cs)) (node : Node) : P node :=
  match node with
  | mkNode a cs =>
      step a cs
        ((fix all (cs : list Node) : Forall P cs :=
            match cs with
            | [] => Forall_nil P
            | c :: rest =>
                Forall_cons c (node_induction P step c) (all rest)
            end) cs)
  end.

(** The children are passed to [computeItemAngles] as they are: their
    [angle] is read as a fixed angle. *)
Definition itemOf (node : Node) : Item := mkItem (nodeAngle node).

(** [(node.angle + 180) % 360].  For a node without an angle the source
    computes [NaN]; every comparison that [computeItemAngles] makes with
    the parent angle is then false, and it returns what it returns
    without a parent angle, so [None] stands for this case. *)
Definition parentAngleOf (a : option Q) : option Q :=
  match a with
  | Some x => Some (Num.rem (x + 180) 360)
  | None => None
  end.

(** [setupAngles] on a node whose [angle] has just been set to [a]:
    the angles of the children are computed, each child gets its angle,
    and the same is done for the child. *)
Fixpoint setupNode (a : option Q) (node : Node) {struct node} : option Node :=
  match node with
  | mkNode _ cs =>
      match cs with
      | [] => Some (mkNode a cs)
      | _ =>
          angles <- computeItemAngles (map itemOf cs) (parentAngleOf a) ;;
          cs' <-
            (fix loop (cs : list Node) (i : nat) {struct cs}
               : option (list Node) :=
               match cs with
               | [] => Some []
               | child :: rest =>
                   child' <- setupNode (Arr.get angles i) child ;;
                   rest' <- loop rest (S i) ;;
                   Some (child' :: rest')
               end) cs 0%nat ;;
          Some (mkNode a cs')
      end
  end.

Definition setupAngles (node : Node) : option Node :=
  setupNode (nodeAngle node) node.

(** Every node below [node] has an angle of the interval from 0 to
    360. *)
#[warnings="-register-all"]
Inductive placed : Node -> Prop :=
| placed_node (a : option Q) (cs : list Node) :
    Forall (fun c => (exists v, nodeAngle c = Some v /\ angleInRange v) /\
                     placed c) cs ->
    placed (mkNode a cs).

(** Two trees of the same shape. *)
#[warnings="-register-all"]
Inductive sameShape : Node -> Node -> Prop :=
| sameShape_node (a b : option Q) (cs cs' : list Node) :
    Forall2 sameShape cs cs' -> sameShape (mkNode a cs) (mkNode b cs').

(** The loop over the children of a node. *)
Definition setupChildren (angles : list (option Q)) :=
  fix loop (cs : list Node) (i : nat) {struct cs} : option (list Node) :=
    match cs with
    | [] => Some []
    | child :: rest =>
        child' <- setupNode (Arr.get angles i) child ;;
        rest' <- loop rest (S i) ;;
        Some (child' :: rest')
    end.

(** What [setupNode] does to a node, whatever angle the node gets. *)
Definition setsUp (node : Node) : Prop :=
  forall a, exists t,
    setupNode a node = Some t /\ nodeAngle t = a /\
    sameShape node t /\ placed t.

(** Every angle below [node] that is read as a fixed angle is below
    360. *)
#[warnings="-register-all"]
Inductive belowTurn : Node -> Prop :=
| belowTurn_node (a : option Q) (cs : list Node) :
    Forall (fun c => (forall v, nodeAngle c = Some v -> 0 <= v -> v < 360) /\
                     belowTurn c) cs ->
    belowTurn (mkNode a cs).

(** No node below [node] has the angle that leads from its parent back
    to the parent of the parent, [(angle + 180) % 360]. *)
#[warnings="-register-all"]
Inductive pointsAway : Node -> Prop :=
| pointsAway_node (a : option Q) (cs : list Node) :
    Forall (fun c => (forall x v, a = Some x -> nodeAngle c = Some v ->
                                  ~ v == Num.rem (x + 180) 360) /\
                     pointsAway c) cs ->
    pointsAway (mkNode a cs).

(** What [setupNode] does to a node with fixed angles below 360, when
    the node gets an angle that is not below -180. *)
Definition setsAway (node : Node) : Prop :=
  belowTurn node ->
  forall a, (forall x, a = Some x -> 0 <= x + 180) ->
    exists t,
      setupNode a node = Some t /\ nodeAngle t = a /\ pointsAway t.

(** ** Notions on the parent angle *)

(** No angle of the array is the angle [p]. *)
Definition avoids (p : Q) (a : list (option Q)) : Prop :=
  forall j v, Arr.get a j = Some v -> ~ v == p.

(** The number of rounds that the loop of a wedge makes from the slot
    [index] to the slot [e]. *)
Definition stepsTo (n index e : nat) : nat := ((e + n - index) mod n)%nat.

(** The direction [i] of the N directions that divide the circle evenly
    together with the parent, as the search for the first angle computes
    it. *)
Definition candidate (n : nat) (p : Q) (i : nat) : Q :=
  Num.rem (p + ofZ (Z.of_nat i + 1) * (360 / ofZ (Z.of_nat n + 1))) 360.

(** How far an angle is from the top, as the search for the first angle
    measures it. *)
Definition topDistance (x : Q) : Q := Num.min x (360 - x).

(** The parent angle as the loop over the fixed angles holds it before
    round [i]: the parent angle [p] itself, or one turn more once it has
    been found below the begin of a wedge. *)
Definition parentStateOf (fixedAngles : list FixedAngle) (p : Q) (i : nat)
    (q : Q) : Prop :=
  q == p \/
  (q == p + 360 /\
   ((i < length fixedAngles)%nat -> p < fangle (entryOf fixedAngles i))).

(** Every fixed angle of the items is below 360. *)
Definition fixedBelowTurn (items : list Item) : Prop :=
  forall item a, In item items -> angle item = Some a -> 0 <= a -> a < 360.

(** The place of item [j] among the directions that the items and the
    parent take in their order, when the parent has the place [m]. *)
Definition evenSlot (m j : nat) : nat := if (j <? m)%nat then j else S j.

(** ** Doubles *)

(** The functions that decide on numbers which they computed
    ([isAngleBetween], [computeDropIndex], [computeItemWedges]), with
    the rounding of every operation of the source. *)
Module Double.

(** The finite doubles: the numbers [m * 2^e] with [|m| < 2^53] and
    [-1074 <= e <= 971].  [x * 2^1074] is then an integer [N] below
    [2^2098] that has no more than 53 significant bits. *)
Definition isDouble (x : Q) : bool :=
  let a := (Qnum x * 2 ^ 1074)%Z in
  let d := Zpos (Qden x) in
  (a mod d =? 0)%Z &&
  (let N := Z.abs (a / d) in
   (N <? 2 ^ 2098)%Z &&
   ((N <? 2 ^ 53) || (N mod 2 ^ (Z.log2 N - 52) =? 0))%Z).

(** The largest [k] with [2^k <= |x|], for [x] other than 0. *)
Definition ilog2 (x : Q) : Z :=
  let k := (Z.log2 (Z.abs (Qnum x)) - Z.log2 (Zpos (Qden x)))%Z in
  if Qle_bool (2 ^ k) (Qabs x) then k else (k - 1)%Z.

(** The double that is nearest to [x], the one with the even mantissa
    when two are equally near.  The mantissa has 53 bits, and the
    exponent is not below the one of the subnormal numbers; overflow to
    infinity is outside the model. *)
Definition nearest (x : Q) : Q :=
  let e := Z.max (ilog2 x - 52) (-1074) in
  let q := x / 2 ^ e in
  let f := Qfloor q in
  let r := q - inject_Z f in
  let m :=
    if Qle_bool r (1 # 2)
    then (if Qeq_bool r (1 # 2) then (if Z.even f then f else f + 1) else f)%Z
    else (f + 1)%Z in
  inject_Z m * 2 ^ e.

(** The result of an operation whose exact result is [x]: [x] itself
    when it is a double, else the nearest double. *)
Definition round (x : Q) : Q := if isDouble x then x else nearest x.

(** [allAngles.sort((a, b) => a - b)]. *)
Fixpoint insertSorted (x : Q) (l : list Q) : list Q :=
  match l with
  | [] => [x]
  | y :: rest =>
      if Num.leb (round (x - y)) 0 then x :: l else y :: insertSorted x rest
  end.

Definition sortAngles (l : list Q) : list Q := fold_right insertSorted [] l.

Definition separatorAt (allAngles : list Q) (i : nat) : Q :=
  if Nat.eqb i (length allAngles - 1)
  then round (round (round (nth i allAngles 0 + nth 0 allAngles 0) + 360) / 2)
  else round (round (nth i allAngles 0 + nth (i + 1) allAngles 0) / 2).

Definition separatorsOf (allAngles : list Q) : list Q :=
  map (separatorAt allAngles) (seq 0 (length allAngles)).

Definition wedgeOf (separators : list Q) (itemAngle : Q) : Wedge :=
  match findIndex (fun s => Num.ltb itemAngle s) separators with
  | Some O =>
      mkWedge
        (option_map (fun s => round (s - 360))
           (nth_error separators (length separators - 1)))
        (nth_error separators 0)
  | Some (S k) =>
      mkWedge (nth_error separators k) (nth_error separators (S k))
  | None => mkWedge None None
  end.

Definition allAnglesOf (itemAngles : list Q) (parentAngle : option Q) : list Q :=
  sortAngles
    (match parentAngle with
     | Some p => itemAngles ++ [p]
     | None => itemAngles
     end).

Definition computeItemWedges (itemAngles : list Q) (parentAngle : option Q)
  : list Wedge :=
  match itemAngles, parentAngle with
  | [], _ => []
  | [_], None => [mkWedge (Some 0) (Some 360)]
  | _, _ =>
      let separators := separatorsOf (allAnglesOf itemAngles parentAngle) in
      map (wedgeOf separators) itemAngles
  end.

Definition isAngleBetween (angle start end_ : Q) : bool :=
  (Num.ltb start angle && Num.leb angle end_)
  || (Num.ltb start (round (angle - 360))
      && Num.leb (round (angle - 360)) end_)
  || (Num.ltb start (round (angle + 360))
      && Num.leb (round (angle + 360)) end_).

Definition dropZone (itemAngles : list Q) (i : nat) : Q * Q :=
  let n := length itemAngles in
  let wedgeStart := nth ((i + n - 1) mod n) itemAngles 0 in
  let wedgeCenter0 := nth i itemAngles 0 in
  let wedgeEnd0 := nth ((i + 1) mod n) itemAngles 0 in
  let wedgeCenter :=
    if Num.ltb wedgeCenter0 wedgeStart then round (wedgeCenter0 + 360)
    else wedgeCenter0 in
  let wedgeEnd :=
    if Num.ltb wedgeEnd0 wedgeCenter then round (wedgeEnd0 + 360)
    else wedgeEnd0 in
  (round (wedgeCenter - round (round (wedgeCenter - wedgeStart) * (1 # 2))),
   round (wedgeCenter + round (round (wedgeEnd - wedgeCenter) * (1 # 2)))).

Fixpoint dropLoop (itemAngles : list Q) (dragAngle : Q) (todo i : nat)
  : option nat :=
  match todo with
  | O => None
  | S todo' =>
      let '(dropZoneStart, dropZoneEnd) := dropZone itemAngles i in
      if isAngleBetween dragAngle dropZoneStart dropZoneEnd then Some i
      else dropLoop itemAngles dragAngle todo' (S i)
  end.

Definition computeDropIndex (itemAngles : list Q) (dragAngle : Q) : option nat :=
  match itemAngles with
  | [] => Some O
  | [a] =>
      if Num.ltb (round (dragAngle - a)) 90
         || Num.ltb 270 (round (dragAngle - a))
      then Some O else Some 1%nat
  | _ => dropLoop itemAngles dragAngle (length itemAngles) 0
  end.

(** The test of a pointer angle against a wedge, as the menu makes it
    with [isAngleBetween]. *)
Definition wedgeHolds (w : Wedge) (x : Q) : bool :=
  match start w, end_ w with
  | Some s, Some e => isAngleBetween x s e
  | _, _ => false
  end.

Definition holdsAt (wedges : list Wedge) (i : nat) (x : Q) : Prop :=
  exists w, nth_error wedges i = Some w /\ wedgeHolds w x = true.

(** The sector that is left for the link to the parent, computed as
    [computeItemWedges] computes the wedge of an item. *)
Definition parentSector (itemAngles : list Q) (p : Q) : Wedge :=
  wedgeOf (separatorsOf (allAnglesOf itemAngles (Some p))) p.

End Double.

(** A number that a decimal literal of the source stands for. *)
Definition literal (x : Q) : Q := Double.round x.

(** The step of a grid of numbers, [2^-41] and [2^-42]. *)
Definition step41 : Q := 1 # 2199023255552.
Definition step42 : Q := 1 # 4398046511104.

(** The multiples of [s]. *)
Definition grid (s x : Q) : Prop := exists z : Z, x == inject_Z z * s.

(** An angle of the interval from 0 to 360 that is a multiple of
    [2^-41].  The sums, the differences and the halves that the
    functions above compute from such angles are multiples of [2^-42]
    below 2048, which are doubles: no operation rounds. *)
Definition dyadicAngle (x : Q) : Prop := angleInRange x /\ grid step41 x.




(** * Lemmas on numbers and arrays *)
Module NumFacts.

Lemma ltb_lt (x y : Q) : Num.ltb x y = true <-> x < y.
Proof.
  unfold Num.ltb. rewrite negb_true_iff. split; intro H.
  - apply Qnot_le_lt. intro Hle. apply Qle_bool_iff in Hle. congruence.
  - destruct (Qle_bool y x) eqn:E; [|reflexivity].
    apply Qle_bool_iff in E. exfalso. apply (Qlt_not_le _ _ H E).
Qed.

Lemma ltb_ge (x y : Q) : Num.ltb x y = false <-> y <= x.
Proof.
  unfold Num.ltb. rewrite negb_false_iff. apply Qle_bool_iff.
Qed.

Lemma leb_le (x y : Q) : Num.leb x y = true <-> x <= y.
Proof. apply Qle_bool_iff. Qed.

Lemma leb_gt (x y : Q) : Num.leb x y = false <-> y < x.
Proof.
  unfold Num.leb. split; intro H.
  - apply Qnot_le_lt. intro Hle. apply Qle_bool_iff in Hle. congruence.
  - destruct (Qle_bool x y) eqn:E; [|reflexivity].
    apply Qle_bool_iff in E. exfalso. apply (Qlt_not_le _ _ H E).
Qed.

(** Truncation stays within one of its argument, on the side of zero. *)
Lemma trunc_pos (x : Q) :
  0 <= x -> inject_Z (Num.trunc x) <= x /\ x < inject_Z (Num.trunc x) + 1
            /\ (0 <= Num.trunc x)%Z.
Proof.
  destruct x as [n d]. unfold Num.trunc, Qle, Qlt. simpl. intro H.
  assert (Hn : (0 <= n)%Z) by lia.
  pose proof (Z.quot_rem' n (Z.pos d)) as E.
  pose proof (Z.rem_bound_pos n (Z.pos d) Hn ltac:(lia)) as B.
  pose proof (Z.quot_pos n (Z.pos d) Hn ltac:(lia)) as P.
  repeat split; try nia.
Qed.

Lemma trunc_neg (x : Q) :
  x <= 0 -> x <= inject_Z (Num.trunc x) /\ inject_Z (Num.trunc x) - 1 < x.
Proof.
  destruct x as [n d]. unfold Num.trunc, Qle, Qlt. simpl. intro H.
  assert (Hn : (n <= 0)%Z) by lia.
  pose proof (Z.quot_rem' n (Z.pos d)) as E.
  pose proof (Z.rem_bound_abs n (Z.pos d) ltac:(lia)) as B.
  pose proof (Z.rem_nonpos n (Z.pos d) ltac:(lia) Hn) as P.
  split; nia.
Qed.

(** The remainder by 360 of a number that is not negative. *)
Lemma rem_range (x : Q) : 0 <= x -> 0 <= Num.rem x 360 /\ Num.rem x 360 < 360.
Proof.
  intro H. unfold Num.rem.
  assert (H0 : 0 <= x / 360).
  { apply Qle_shift_div_l; lra. }
  destruct (trunc_pos _ H0) as (A & B & _).
  assert (E : x == 360 * (x / 360)) by (field).
  split; lra.
Qed.

(** The remainder by 360 of any number. *)
Lemma rem_bound (x : Q) : -360 < Num.rem x 360 /\ Num.rem x 360 < 360.
Proof.
  unfold Num.rem.
  assert (E : x == 360 * (x / 360)) by (field).
  destruct (Qlt_le_dec x 0) as [Hx | Hx].
  - assert (H0 : x / 360 <= 0).
    { apply Qle_shift_div_r; lra. }
    destruct (trunc_neg _ H0) as (A & B). split; lra.
  - destruct (rem_range x Hx). unfold Num.rem in *. split; lra.
Qed.

(** A number that is between 0 and 360 is its own remainder. *)
Lemma rem_small (x : Q) : 0 <= x -> x < 360 -> Num.rem x 360 == x.
Proof.
  intros H0 H1. unfold Num.rem.
  assert (Hq : 0 <= x / 360) by (apply Qle_shift_div_l; lra).
  assert (Hq1 : x / 360 < 1) by (apply Qlt_shift_div_r; lra).
  destruct (trunc_pos _ Hq) as (A & B & C).
  assert (T : Num.trunc (x / 360) = 0%Z).
  { assert (inject_Z (Num.trunc (x / 360)) < inject_Z 1) by (change (inject_Z 1) with 1; lra).
    rewrite <- Zlt_Qlt in H. lia. }
  rewrite T. ring.
Qed.

End NumFacts.

Module ArrFacts.

Lemma get_set_eq (a : list (option Q)) (i : nat) (v : Q) :
  Arr.get (Arr.set a i v) i = Some v.
Proof.
  revert a. induction i as [|i IH]; intros [|x a]; try reflexivity.
  - unfold Arr.get in *. simpl. apply (IH []).
  - unfold Arr.get in *. simpl. apply IH.
Qed.

Lemma get_set_neq (a : list (option Q)) (i j : nat) (v : Q) :
  j <> i -> Arr.get (Arr.set a i v) j = Arr.get a j.
Proof.
  revert a j. induction i as [|i IH]; intros [|x a] [|j] Hne;
    try congruence; try reflexivity.
  - unfold Arr.get. simpl. destruct j; reflexivity.
  - unfold Arr.get in *. simpl.
    rewrite (IH [] j) by congruence. destruct j; reflexivity.
  - unfold Arr.get in *. simpl. apply IH. congruence.
Qed.

Lemma length_set (a : list (option Q)) (i : nat) (v : Q) :
  length (Arr.set a i v) = Nat.max (length a) (S i).
Proof.
  revert a. induction i as [|i IH]; intros [|x a]; simpl;
    try rewrite IH; simpl; try lia.
Qed.

Lemma get_lt (a : list (option Q)) (j : nat) :
  Arr.get a j <> None -> (j < length a)%nat.
Proof.
  unfold Arr.get. intro H. apply nth_error_Some.
  destruct (nth_error a j); congruence.
Qed.

Lemma inRange_nil : inRange [].
Proof. intros [|j] v; discriminate. Qed.

Lemma inRange_set (a : list (option Q)) (i : nat) (v : Q) :
  inRange a -> 0 <= v /\ v < 360 -> inRange (Arr.set a i v).
Proof.
  intros Ha Hv j w. destruct (Nat.eq_dec j i) as [->|Hne].
  - rewrite get_set_eq. intros [= <-]. exact Hv.
  - rewrite get_set_neq by exact Hne. apply Ha.
Qed.

Lemma writes_refl (n : nat) (W : nat -> Prop) (a : list (option Q)) :
  (forall j, ~ W j) -> writes n W a a.
Proof.
  intro H. constructor; auto. intros j Hj. destruct (H j Hj).
Qed.

Lemma writes_set (n : nat) (a : list (option Q)) (i : nat) (v : Q) :
  (i < n)%nat -> 0 <= v /\ v < 360 ->
  writes n (fun j => j = i) a (Arr.set a i v).
Proof.
  intros Hi Hv. constructor.
  - intros j Hj. apply get_set_neq. exact Hj.
  - intros j ->. rewrite get_set_eq. discriminate.
  - intros j Hj. destruct (Nat.eq_dec j i) as [->|Hne].
    + rewrite get_set_eq. discriminate.
    + rewrite get_set_neq by exact Hne. exact Hj.
  - intro Ha. apply inRange_set; assumption.
  - rewrite length_set. lia.
Qed.

Lemma writes_trans (n : nat) (W1 W2 W : nat -> Prop)
    (a b c : list (option Q)) :
  writes n W1 a b -> writes n W2 b c ->
  (forall j, W1 j -> W j) -> (forall j, W2 j -> W j) ->
  (forall j, W j -> W1 j \/ W2 j) ->
  writes n W a c.
Proof.
  intros [f1 g1 k1 r1 l1] [f2 g2 k2 r2 l2] H1 H2 H. constructor.
  - intros j Hj. rewrite f2, f1; auto.
  - intros j Hj. destruct (H j Hj) as [Hw|Hw]; auto.
  - auto.
  - auto.
  - auto.
Qed.

End ArrFacts.

Import NumFacts ArrFacts.

(** ** The loop of one wedge *)

Section Distribute.

Variables (n : nat) (wedgeBeginAngle wedgeItemGap : Q).
Variables (parentAngle : option Q) (wedgeEndIndex : nat).
Hypothesis begin_nonneg : 0 <= wedgeBeginAngle.
Hypothesis gap_nonneg : 0 <= wedgeItemGap.

Let run fuel index count gap a :=
  distribute fuel n wedgeBeginAngle wedgeItemGap parentAngle wedgeEndIndex
    index count gap a.

Lemma next_index (i : nat) :
  (i < n)%nat -> ((i + 1) mod n = if Nat.eqb (i + 1) n then 0 else i + 1)%nat.
Proof.
  intro Hi. destruct (Nat.eqb_spec (i + 1) n) as [E|E].
  - rewrite E. apply Nat.Div0.mod_same.
  - apply Nat.mod_small. lia.
Qed.

Lemma angle_in_range (c : Z) :
  (1 <= c)%Z ->
  0 <= Num.rem (wedgeBeginAngle + wedgeItemGap * ofZ c) 360 /\
  Num.rem (wedgeBeginAngle + wedgeItemGap * ofZ c) 360 < 360.
Proof.
  intro Hc. apply rem_range.
  assert (0 <= ofZ c).
  { unfold ofZ. change 0 with (inject_Z 0). rewrite <- Zle_Qle. lia. }
  assert (0 <= wedgeItemGap * ofZ c) by (apply Qmult_le_0_compat; assumption).
  lra.
Qed.

(** One round of the loop: the slot [index] gets an angle in range. *)
Lemma distribute_step (fuel index : nat) (count : Z) (gap : bool)
    (a : list (option Q)) :
  index <> wedgeEndIndex -> (1 <= count)%Z ->
  exists (v : Q) (count' : Z) (gap' : bool),
    (1 <= count')%Z /\ (0 <= v /\ v < 360) /\
    run (S fuel) index count gap a =
    run fuel ((index + 1) mod n)%nat count' gap' (Arr.set a index v).
Proof.
  intros Hne Hc. unfold run. simpl.
  destruct (Nat.eqb_spec index wedgeEndIndex) as [E|_]; [contradiction|].
  match goal with |- context [if ?s then (count + 1)%Z else count] =>
    destruct s end.
  - exists (Num.rem (wedgeBeginAngle + wedgeItemGap * ofZ (count + 1)) 360),
      (count + 1 + 1)%Z, false.
    repeat split; try lia; apply angle_in_range; lia.
  - exists (Num.rem (wedgeBeginAngle + wedgeItemGap * ofZ count) 360),
      (count + 1)%Z, gap.
    repeat split; try lia; apply angle_in_range; lia.
Qed.

(** From [index] up to [wedgeEndIndex], without passing the end of the
    array. *)
Lemma distribute_linear (d : nat) :
  forall (fuel index : nat) (count : Z) (gap : bool) (a : list (option Q)),
    (index + d = wedgeEndIndex)%nat -> (wedgeEndIndex < n)%nat ->
    (d <= fuel)%nat -> (1 <= count)%Z ->
    exists a',
      run fuel index count gap a = Some a' /\
      writes n (fun j => index <= j < wedgeEndIndex)%nat a a'.
Proof.
  induction d as [|d IH]; intros fuel index count gap a Hd He Hf Hc.
  - exists a. split.
    + unfold run. destruct fuel; simpl;
        replace (index =? wedgeEndIndex)%nat with true
          by (symmetry; apply Nat.eqb_eq; lia); reflexivity.
    + apply writes_refl. intros j. lia.
  - destruct fuel as [|fuel]; [lia|].
    destruct (distribute_step fuel index count gap a) as
      (v & count' & gap' & Hc' & Hv & E); [lia|exact Hc|].
    rewrite E, next_index by lia.
    replace (index + 1 =? n)%nat with false
      by (symmetry; apply Nat.eqb_neq; lia).
    destruct (IH fuel (index + 1)%nat count' gap' (Arr.set a index v))
      as (a' & Hrun & Hw); try lia.
    exists a'. split; [exact Hrun|].
    eapply writes_trans; [apply (writes_set n a index v); [lia|exact Hv]
                         | exact Hw | | | ];
      simpl; intros j; lia.
Qed.

(** From [index] to the end of the array, and from slot 0 up to
    [wedgeEndIndex]. *)
Lemma distribute_wrap (d : nat) :
  forall (fuel index : nat) (count : Z) (gap : bool) (a : list (option Q)),
    (index + d = n)%nat -> (wedgeEndIndex < index)%nat -> (0 < d)%nat ->
    (d + wedgeEndIndex <= fuel)%nat -> (1 <= count)%Z ->
    exists a',
      run fuel index count gap a = Some a' /\
      writes n (fun j => index <= j < n \/ j < wedgeEndIndex)%nat a a'.
Proof.
  induction d as [|d IH]; intros fuel index count gap a Hd He Hpos Hf Hc;
    [lia|].
  destruct fuel as [|fuel]; [lia|].
  destruct (distribute_step fuel index count gap a) as
    (v & count' & gap' & Hc' & Hv & E); [lia|exact Hc|].
  rewrite E, next_index by lia.
  destruct (Nat.eqb_spec (index + 1) n) as [En|En].
  - destruct (distribute_linear wedgeEndIndex fuel 0%nat count' gap'
                (Arr.set a index v)) as (a' & Hrun & Hw); try lia.
    exists a'. split; [exact Hrun|].
    eapply writes_trans; [apply (writes_set n a index v); [lia|exact Hv]
                         | exact Hw | | | ];
      simpl; intros j; lia.
  - destruct (IH fuel (index + 1)%nat count' gap' (Arr.set a index v))
      as (a' & Hrun & Hw); try lia.
    exists a'. split; [exact Hrun|].
    eapply writes_trans; [apply (writes_set n a index v); [lia|exact Hv]
                         | exact Hw | | | ];
      simpl; intros j; lia.
Qed.

(** The whole loop of a wedge that begins at slot [b]: it ends within
    [n] rounds and fills the slots between [b] and [wedgeEndIndex]. *)
Lemma distribute_wedge (b : nat) (gap : bool) (a : list (option Q)) :
  (b < n)%nat -> (wedgeEndIndex < n)%nat ->
  exists a',
    run n ((b + 1) mod n)%nat 1%Z gap a = Some a' /\
    writes n (between n b wedgeEndIndex) a a'.
Proof.
  intros Hb He. rewrite next_index by exact Hb. unfold between.
  destruct (Nat.ltb_spec b wedgeEndIndex) as [Hlt|Hge].
  - replace (b + 1 =? n)%nat with false
      by (symmetry; apply Nat.eqb_neq; lia).
    destruct (distribute_linear (wedgeEndIndex - (b + 1)) n (b + 1)%nat 1%Z
                gap a) as (a' & Hrun & Hw); try lia.
    exists a'. split; [exact Hrun|].
    destruct Hw as [f g k r l]. constructor; auto.
    + intros j Hj. apply f. lia.
    + intros j Hj. apply g. lia.
  - destruct (Nat.eqb_spec (b + 1) n) as [En|En].
    + destruct (distribute_linear wedgeEndIndex n 0%nat 1%Z gap a)
        as (a' & Hrun & Hw); try lia.
      exists a'. split; [exact Hrun|].
      destruct Hw as [f g k r l]. constructor; auto.
      * intros j Hj. apply f. lia.
      * intros j Hj. apply g. lia.
    + destruct (distribute_wrap (n - (b + 1)) n (b + 1)%nat 1%Z gap a)
        as (a' & Hrun & Hw); try lia.
      exists a'. split; [exact Hrun|].
      destruct Hw as [f g k r l]. constructor; auto.
      * intros j Hj. apply f. lia.
      * intros j Hj. apply g. lia.
Qed.

End Distribute.

(** ** The loop over the fixed angles *)

Section Wedges.

Variables (n : nat) (fixedAngles : list FixedAngle).

Let k := length fixedAngles.
Let entry (i : nat) : FixedAngle := entryOf fixedAngles i.
Let slots : nat -> nat -> Prop := wedgeSlots n fixedAngles.
Let inv : nat -> list (option Q) -> Prop := loopInv n fixedAngles.
Let next (i : nat) : nat := ((i + 1) mod k)%nat.

(** What the pruned list of fixed angles is like: it is not empty, its
    indices increase and are indices of items, its angles are between 0
    and 360. *)
Hypothesis nonempty : (0 < k)%nat.
Hypothesis increasing :
  forall i j, (i < j)%nat -> (j < k)%nat ->
              (findex (entry i) < findex (entry j))%nat.
Hypothesis index_bound : forall i, (i < k)%nat -> (findex (entry i) < n)%nat.
Hypothesis angle_bound :
  forall i, (i < k)%nat -> 0 <= fangle (entry i) /\ fangle (entry i) < 360.

Lemma slots_iff (i j : nat) :
  slots i j <->
  j = findex (entry i) \/
  between n (findex (entry i)) (findex (entry (next i))) j.
Proof. reflexivity. Qed.

Lemma entry_nth_error (i : nat) :
  (i < k)%nat -> nth_error fixedAngles i = Some (entry i).
Proof. intro Hi. apply nth_error_nth'. exact Hi. Qed.

Lemma next_lt (i : nat) : (i < k)%nat -> (next i < k)%nat.
Proof. intros _. apply Nat.mod_upper_bound. unfold k in *. lia. Qed.

Lemma next_cases (i : nat) :
  (i < k)%nat ->
  (i + 1 < k /\ next i = i + 1)%nat \/ (i + 1 = k /\ next i = 0)%nat.
Proof.
  intro Hi. unfold next. rewrite next_index by exact Hi.
  destruct (Nat.eqb_spec (i + 1) k); [right|left]; lia.
Qed.

Lemma increasing_le (i j : nat) :
  (i <= j)%nat -> (j < k)%nat -> (findex (entry i) <= findex (entry j))%nat.
Proof.
  intros Hij Hj. destruct (Nat.eq_dec i j) as [->|Hne]; [lia|].
  apply Nat.lt_le_incl. apply increasing; lia.
Qed.

(** No fixed item lies between the two ends of a wedge. *)
Lemma no_fixed_between (i m : nat) :
  (i < k)%nat -> (m < k)%nat ->
  ~ between n (findex (entry i)) (findex (entry (next i))) (findex (entry m)).
Proof.
  intros Hi Hm. unfold between.
  destruct (next_cases i Hi) as [[H1 ->]|[H1 ->]].
  - replace (findex (entry i) <? findex (entry (i + 1)))%nat with true
      by (symmetry; apply Nat.ltb_lt; apply increasing; lia).
    destruct (Nat.le_gt_cases m i) as [Hle|Hgt].
    + pose proof (increasing_le m i Hle Hi). lia.
    + pose proof (increasing_le (i + 1) m ltac:(lia) Hm). lia.
  - replace (findex (entry i) <? findex (entry 0))%nat with false
      by (symmetry; apply Nat.ltb_ge; apply increasing_le; lia).
    pose proof (increasing_le 0 m ltac:(lia) Hm).
    pose proof (increasing_le m i ltac:(lia) Hi).
    pose proof (index_bound i Hi). lia.
Qed.

(** Every slot of the array belongs to a wedge. *)
Lemma slots_covered (j : nat) :
  (j < n)%nat -> exists i, (i < k)%nat /\ slots i j.
Proof.
  intro Hj.
  assert (Hlast : (k - 1 < k)%nat) by lia.
  assert (Hnext : next (k - 1) = 0%nat).
  { destruct (next_cases (k - 1) Hlast) as [[H _]|[_ H]]; [lia|exact H]. }
  destruct (Nat.lt_ge_cases j (findex (entry 0))) as [Hlow|Hlow].
  { exists (k - 1)%nat. split; [exact Hlast|]. apply slots_iff. right. rewrite Hnext.
    unfold between.
    replace (findex (entry (k - 1)) <? findex (entry 0))%nat with false
      by (symmetry; apply Nat.ltb_ge; apply increasing_le; lia).
    right. exact Hlow. }
  destruct (Nat.lt_ge_cases (findex (entry (k - 1))) j) as [Hhigh|Hhigh].
  { exists (k - 1)%nat. split; [exact Hlast|]. apply slots_iff. right. rewrite Hnext.
    unfold between.
    replace (findex (entry (k - 1)) <? findex (entry 0))%nat with false
      by (symmetry; apply Nat.ltb_ge; apply increasing_le; lia).
    left. lia. }
  destruct (Nat.eq_dec j (findex (entry (k - 1)))) as [E|E].
  { exists (k - 1)%nat. split; [exact Hlast|]. apply slots_iff. left. exact E. }
  assert (Hfind : forall m, (m < k)%nat -> (j < findex (entry m))%nat ->
            exists i, (i + 1 < k)%nat /\
                      (findex (entry i) <= j < findex (entry (i + 1)))%nat).
  { induction m as [|m IH]; intros Hm Hjm; [lia|].
    destruct (Nat.lt_ge_cases j (findex (entry m))) as [Hlt|Hge].
    - apply IH; [lia|exact Hlt].
    - exists m. replace (m + 1)%nat with (S m) by lia. split; lia. }
  destruct (Hfind (k - 1)%nat Hlast ltac:(lia)) as (i & Hi & Hbi).
  exists i. split; [lia|]. apply slots_iff.
  destruct (Nat.eq_dec j (findex (entry i))) as [Ej|Ej]; [left; exact Ej|].
  right. unfold between.
  destruct (next_cases i ltac:(lia)) as [[_ ->]|[H1 _]]; [|lia].
  replace (findex (entry i) <? findex (entry (i + 1)))%nat with true
    by (symmetry; apply Nat.ltb_lt; lia).
  lia.
Qed.

(** One round: it returns, it stores the fixed angle of the wedge's
    begin and fills the slots of the wedge. *)
Lemma wedgeStep_writes (i : nat) (p : option Q) (a : list (option Q)) :
  (i < k)%nat ->
  exists p' a',
    wedgeStep n fixedAngles (p, a) i = Some (p', a') /\
    writes n (slots i) a a' /\
    Arr.get a' (findex (entry i)) = Some (fangle (entry i)).
Proof.
  intro Hi. unfold wedgeStep.
  rewrite (entry_nth_error i Hi). fold k. fold (next i).
  rewrite (entry_nth_error (next i) (next_lt i Hi)).
  cbn [bind fst snd].
  set (b := entry i). set (e := entry (next i)).
  pose proof (index_bound i Hi) as Hb. fold b in Hb.
  pose proof (index_bound _ (next_lt i Hi)) as He. fold e in He.
  pose proof (angle_bound i Hi) as Hab. fold b in Hab.
  pose proof (angle_bound _ (next_lt i Hi)) as Hae. fold e in Hae.
  match goal with
  | |- context [distribute n n (fangle b) ?wg ?pa (findex e) _ 1%Z ?pg ?arr] =>
      assert (Hg : 0 <= wg);
      [|destruct (distribute_wedge n (fangle b) wg pa (findex e)
                    (proj1 Hab) Hg (findex b) pg arr Hb He)
          as (a' & Hrun & Hw)]
  end.
  { match goal with |- 0 <= ?x / ofZ ?c =>
      assert (Hc : 0 < ofZ c); [|assert (Hx : 0 <= x)] end.
    - unfold ofZ. change 0 with (inject_Z 0). rewrite <- Zlt_Qlt.
      assert (0 <= Z.rem (Z.of_nat (findex e) - Z.of_nat (findex b) - 1
                          + Z.of_nat n) (Z.of_nat n))%Z
        by (apply Z.rem_nonneg; lia).
      match goal with |- (0 < (if ?c then _ else _) + 1)%Z =>
        destruct c end; lia.
    - destruct (Num.leb (fangle e) (fangle b)) eqn:E.
      + lra.
      + apply leb_gt in E. lra.
    - apply Qle_shift_div_l; [exact Hc|lra]. }
  rewrite Hrun. cbn [bind]. eexists _, a'. split; [reflexivity|]. split.
  - eapply writes_trans;
      [apply (writes_set n a (findex b) (fangle b) Hb Hab) | exact Hw | | | ].
    + intros j Hj. apply slots_iff. left. exact Hj.
    + intros j Hj. apply slots_iff. right. exact Hj.
    + intros j Hj. apply slots_iff in Hj. exact Hj.
  - rewrite (w_frame _ _ _ _ Hw).
    + apply get_set_eq.
    + apply (no_fixed_between i i Hi Hi).
Qed.

Lemma wedgeLoop_inv (todo : nat) :
  forall (i : nat) (p : option Q) (a : list (option Q)),
    (i + todo = k)%nat -> inv i a ->
    exists p' a',
      wedgeLoop todo n fixedAngles i (p, a) = Some (p', a') /\ inv k a'.
Proof.
  induction todo as [|todo IH]; intros i p a Hk Hinv.
  - exists p, a. replace k with i by lia. split; [reflexivity|exact Hinv].
  - assert (Hi : (i < k)%nat) by lia.
    destruct (wedgeStep_writes i p a Hi) as (p1 & a1 & Hstep & Hw & Hget).
    cbn [wedgeLoop]. rewrite Hstep. cbn [bind].
    apply IH; [lia|].
    destruct Hinv as [Hfix Hfill Hrange Hlen]. constructor.
    + intros m Hm. destruct (Nat.eq_dec m i) as [->|Hne]; [exact Hget|].
      rewrite (w_frame _ _ _ _ Hw).
      * apply Hfix. lia.
      * intro Hj. apply slots_iff in Hj. destruct Hj as [Hj|Hj].
        -- assert (Hlt : (m < i)%nat) by lia.
           pose proof (increasing m i Hlt Hi) as Hinc.
           unfold entry in *. lia.
        -- apply (no_fixed_between i m Hi ltac:(lia) Hj).
    + intros m j Hm Hj. destruct (Nat.eq_dec m i) as [->|Hne].
      * apply (w_filled _ _ _ _ Hw). exact Hj.
      * apply (w_kept _ _ _ _ Hw). apply (Hfill m j); [lia|exact Hj].
    + apply (w_range _ _ _ _ Hw). exact Hrange.
    + apply (w_length _ _ _ _ Hw). exact Hlen.
Qed.

(** The loop over all the fixed angles, started on an array [a] that is
    within [n] slots and in range. *)
Lemma wedgeLoop_all (p : option Q) (a : list (option Q)) :
  inRange a -> (length a <= n)%nat ->
  exists p' a',
    wedgeLoop k n fixedAngles 0 (p, a) = Some (p', a') /\
    full n a' /\ inRange a' /\
    forall m, (m < k)%nat ->
              Arr.get a' (findex (entry m)) = Some (fangle (entry m)).
Proof.
  intros Hr Hl.
  destruct (wedgeLoop_inv k 0%nat p a) as (p' & a' & Hrun & Hinv).
  - lia.
  - constructor; try assumption; intros; lia.
  - exists p', a'. split; [exact Hrun|].
    destruct Hinv as [Hfix Hfill Hrange Hlen].
    assert (Hall : forall j, (j < n)%nat -> Arr.get a' j <> None).
    { intros j Hj. destruct (slots_covered j Hj) as (i & Hi & Hs).
      apply (Hfill i j Hi Hs). }
    split; [split; [|exact Hall]|split; [exact Hrange|exact Hfix]].
    apply Nat.le_antisymm; [exact Hlen|].
    destruct n as [|n']; [lia|].
    pose proof (get_lt a' n' (Hall n' ltac:(lia))). lia.
Qed.

End Wedges.

(** ** The list of fixed angles *)

Lemma pruneFrom_Forall (P : FixedAngle -> Prop) (rest : list FixedAngle) :
  forall cur, Forall P (cur :: rest) -> Forall P (pruneFrom cur rest).
Proof.
  induction rest as [|next rest IH]; intros cur H; simpl.
  - exact H.
  - inversion H as [|? ? Hc Hr]; subst. inversion Hr as [|? ? Hn Hr']; subst.
    destruct (Num.ltb (fangle next) (fangle cur)).
    + apply IH. constructor; assumption.
    + constructor; [exact Hc|]. apply IH. exact Hr.
Qed.

Lemma pruneFrom_sorted (rest : list FixedAngle) :
  forall cur, StronglySorted indexLt (cur :: rest) ->
              StronglySorted indexLt (pruneFrom cur rest).
Proof.
  induction rest as [|next rest IH]; intros cur H; simpl.
  - exact H.
  - inversion H as [|? ? Hs Hf]; subst.
    inversion Hs as [|? ? Hs' Hf']; subst.
    inversion Hf as [|? ? Hn Hr]; subst.
    destruct (Num.ltb (fangle next) (fangle cur)).
    + apply IH. constructor; assumption.
    + constructor; [apply IH; exact Hs|].
      apply pruneFrom_Forall. exact Hf.
Qed.

Lemma prune_Forall (P : FixedAngle -> Prop) (fs : list FixedAngle) :
  Forall P fs -> Forall P (prune fs).
Proof.
  destruct fs as [|f fs]; [trivial|]. apply pruneFrom_Forall.
Qed.

Lemma prune_sorted (fs : list FixedAngle) :
  StronglySorted indexLt fs -> StronglySorted indexLt (prune fs).
Proof.
  destruct fs as [|f fs]; [trivial|]. apply pruneFrom_sorted.
Qed.


(** What [collectFixed] collects: the items with an angle that is not
    negative, each under its index. *)
Lemma collectFixed_spec (items : list Item) :
  forall index f,
    In f (collectFixed index items) ->
    (index <= findex f)%nat /\
    nth_error items (findex f - index) = Some (mkItem (Some (fangle f))) /\
    0 <= fangle f.
Proof.
  induction items as [|[o] items IH]; intros index f H; simpl in H.
  - destruct H.
  - assert (Hrest : In f (collectFixed (S index) items) ->
              (index <= findex f)%nat /\
              nth_error (mkItem o :: items) (findex f - index) =
                Some (mkItem (Some (fangle f))) /\ 0 <= fangle f).
    { intro Hin. destruct (IH _ _ Hin) as (Hle & Hnth & Hpos).
      split; [lia|]. split; [|exact Hpos].
      replace (findex f - index)%nat with (S (findex f - S index)) by lia.
      exact Hnth. }
    destruct o as [a|]; [|auto].
    destruct (Num.leb 0 a) eqn:E; [|auto].
    destruct H as [<-|H]; [|auto].
    simpl. rewrite Nat.sub_diag. apply leb_le in E. auto.
Qed.

Lemma collectFixed_sorted (items : list Item) :
  forall index, StronglySorted indexLt (collectFixed index items).
Proof.
  induction items as [|[o] items IH]; intro index; simpl.
  - constructor.
  - destruct o as [a|]; [|apply IH].
    destruct (Num.leb 0 a); [|apply IH].
    constructor; [apply IH|].
    apply Forall_forall. intros f Hf. unfold indexLt. simpl.
    destruct (collectFixed_spec _ _ _ Hf) as (H & _). lia.
Qed.

Lemma collectFixed_bound (items : list Item) (index : nat) :
  Forall (fun f => (findex f < index + length items)%nat /\ 0 <= fangle f)
         (collectFixed index items).
Proof.
  apply Forall_forall. intros f Hf.
  destruct (collectFixed_spec _ _ _ Hf) as (Hle & Hnth & Hpos).
  split; [|exact Hpos].
  assert (findex f - index < length items)%nat
    by (apply nth_error_Some; congruence).
  lia.
Qed.

Lemma nudge_index (p : option Q) (f : FixedAngle) :
  findex (nudge p f) = findex f.
Proof.
  unfold nudge. destruct p; [|reflexivity].
  destruct (Num.ltb _ _); reflexivity.
Qed.

Lemma nudge_nonneg (p : option Q) (f : FixedAngle) :
  0 <= fangle f -> 0 <= fangle (nudge p f).
Proof.
  unfold nudge. intro H. destruct p; [|exact H].
  destruct (Num.ltb _ _); [simpl; lra|exact H].
Qed.

(** A fixed angle that is not within 0.0001 of the parent angle is
    left alone. *)
Lemma nudge_none (p : option Q) (f : FixedAngle) :
  (forall q, p = Some q -> (1 # 10000) <= Qabs (fangle f - q)) ->
  nudge p f = f.
Proof.
  intro H. unfold nudge. destruct p as [q|]; [|reflexivity].
  specialize (H q eq_refl). apply ltb_ge in H. rewrite H. reflexivity.
Qed.

Lemma map_sorted (g : FixedAngle -> FixedAngle) (fs : list FixedAngle) :
  (forall f, findex (g f) = findex f) ->
  StronglySorted indexLt fs -> StronglySorted indexLt (map g fs).
Proof.
  intros Hg H. induction H as [|f fs Hs IH Hf]; simpl; constructor.
  - exact IH.
  - rewrite Forall_map. eapply Forall_impl; [|exact Hf].
    intros x Hx. unfold indexLt in *. rewrite !Hg. exact Hx.
Qed.

(** The fixed angles of a list of items are well formed. *)
Lemma fixedAnglesOf_wellFormed (items : list Item) (p : option Q) :
  wellFormed (length items) (fixedAnglesOf items p).
Proof.
  unfold fixedAnglesOf. split.
  - apply prune_sorted. apply map_sorted; [reflexivity|].
    apply map_sorted; [apply nudge_index|]. apply collectFixed_sorted.
  - apply prune_Forall. rewrite !Forall_map.
    eapply Forall_impl; [|apply (collectFixed_bound items 0)].
    intros f (Hi & Ha). simpl. rewrite nudge_index. split; [exact Hi|].
    apply rem_range. apply nudge_nonneg. exact Ha.
Qed.

Lemma strongly_sorted_nth {A : Type} (R : A -> A -> Prop) (l : list A) (d : A) :
  StronglySorted R l ->
  forall i j, (i < j)%nat -> (j < length l)%nat -> R (nth i l d) (nth j l d).
Proof.
  intro H. induction H as [|x l Hs IH Hf]; intros i j Hij Hj; simpl in Hj.
  - lia.
  - destruct j as [|j]; [lia|]. destruct i as [|i]; simpl.
    + rewrite Forall_forall in Hf. apply Hf. apply nth_In. lia.
    + apply IH; lia.
Qed.

(** ** The first angle when no angle is fixed *)

Lemma firstAngleOf_range (n : nat) (p : option Q) :
  angleInRange (firstAngleOf n p).
Proof.
  unfold firstAngleOf, angleInRange. destruct p as [p|]; [|lra].
  generalize (360 / ofZ (Z.of_nat n + 1)). intro w.
  assert (H : forall l st, angleInRange (snd st) ->
            angleInRange (snd (fold_left (firstAngleStep p w) l st))).
  { induction l as [|i l IH]; intros st Hst; simpl; [exact Hst|].
    apply IH. unfold firstAngleStep.
    destruct (Num.ltb _ (fst st)); [|exact Hst].
    simpl. apply rem_range.
    match goal with |- 0 <= Num.rem ?x 360 + 360 =>
      destruct (rem_bound x) end.
    lra. }
  apply H. simpl. unfold angleInRange. lra.
Qed.

(** ** From the fixed angles to the output *)

Lemma layout_wellFormed (n : nat) (p : option Q) (fs : list FixedAngle) :
  (0 < n)%nat -> fs <> [] -> wellFormed n fs ->
  exists a,
    wedgeLoop (length fs) n fs 0 (p, []) = Some a /\
    full n (snd a) /\ inRange (snd a) /\
    forall f, In f fs -> Arr.get (snd a) (findex f) = Some (fangle f).
Proof.
  intros Hn Hne [Hs Hb].
  assert (Hk : (0 < length fs)%nat) by (destruct fs; [congruence|simpl; lia]).
  rewrite Forall_forall in Hb.
  destruct (wedgeLoop_all n fs Hk (strongly_sorted_nth indexLt fs _ Hs)
              (fun i Hi => proj1 (Hb _ (nth_In fs _ Hi)))
              (fun i Hi => proj2 (Hb _ (nth_In fs _ Hi)))
              p [] inRange_nil (Nat.le_0_l n))
    as (p' & a' & Hrun & Hfull & Hrange & Hfix).
  exists (p', a'). split; [exact Hrun|].
  split; [exact Hfull|]. split; [exact Hrange|].
  intros f Hf. destruct (In_nth _ _ (mkFixed 0 0) Hf) as (m & Hm & <-).
  apply Hfix. exact Hm.
Qed.

(** [layout] returns an array without a hole, of angles in range, that
    holds every fixed angle at its index. *)
Lemma layout_ok (n : nat) (p : option Q) (fs : list FixedAngle) :
  (0 < n)%nat -> wellFormed n fs ->
  exists a,
    layout n p fs = Some a /\ full n a /\ inRange a /\
    forall f, In f fs -> Arr.get a (findex f) = Some (fangle f).
Proof.
  intros Hn Hwf. unfold layout. destruct fs as [|f fs].
  - set (first := firstAngleOf n p).
    pose proof (firstAngleOf_range n p) as Hfirst. fold first in Hfirst.
    assert (Hk : (0 < length [mkFixed first 0])%nat) by (simpl; lia).
    assert (H1 : forall i j, (i < j)%nat -> (j < length [mkFixed first 0])%nat ->
              (findex (nth i [mkFixed first 0] (mkFixed 0 0)) <
               findex (nth j [mkFixed first 0] (mkFixed 0 0)))%nat)
      by (simpl; intros; lia).
    assert (H2 : forall i, (i < length [mkFixed first 0])%nat ->
              (findex (nth i [mkFixed first 0] (mkFixed 0 0)) < n)%nat)
      by (simpl; intros [|i] Hi; [exact Hn|lia]).
    assert (H3 : forall i, (i < length [mkFixed first 0])%nat ->
              0 <= fangle (nth i [mkFixed first 0] (mkFixed 0 0)) /\
              fangle (nth i [mkFixed first 0] (mkFixed 0 0)) < 360)
      by (intros [|i] Hi; [exact Hfirst|simpl in Hi; lia]).
    destruct (wedgeLoop_all n [mkFixed first 0] Hk H1 H2 H3 p
                (Arr.set [] 0 first)
                (inRange_set [] 0 first inRange_nil Hfirst)
                ltac:(simpl; lia))
      as (p' & a' & Hrun & Hfull & Hrange & _).
    rewrite Hrun. exists a'. simpl.
    split; [reflexivity|]. split; [exact Hfull|]. split; [exact Hrange|].
    intros g [].
  - destruct (layout_wellFormed n p (f :: fs) Hn ltac:(discriminate) Hwf)
      as (a & Hrun & Hfull & Hrange & Hfix).
    rewrite Hrun. exists (snd a). simpl. auto.
Qed.

(** [computeItemAngles] returns; for a list that is not empty the
    result is [layout]'s. *)
Lemma computeItemAngles_ok (items : list Item) (p : option Q) :
  exists a,
    computeItemAngles items p = Some a /\ full (length items) a /\
    inRange a /\
    forall f, In f (fixedAnglesOf items p) ->
              Arr.get a (findex f) = Some (fangle f).
Proof.
  destruct items as [|item items].
  - exists []. simpl. split; [reflexivity|]. split; [split; [reflexivity|]|].
    + intros j Hj. lia.
    + split; [apply inRange_nil|]. intros f [].
  - apply layout_ok; [simpl; lia|]. apply fixedAnglesOf_wellFormed.
Qed.

(** * Properties of computeItemAngles *)

Lemma full_nth_error (n : nat) (a : list (option Q)) (j : nat) :
  full n a -> (j < n)%nat -> exists v, nth_error a j = Some (Some v).
Proof.
  intros [_ H] Hj. specialize (H j Hj). unfold Arr.get in H.
  destruct (nth_error a j) as [[v|]|]; try congruence. exists v. reflexivity.
Qed.

Lemma get_nth_error (a : list (option Q)) (j : nat) (v : Q) :
  Arr.get a j = Some v <-> nth_error a j = Some (Some v).
Proof.
  unfold Arr.get. destruct (nth_error a j) as [[w|]|]; split; congruence.
Qed.


(** C10.  Every angle that [computeItemAngles] returns lies in the
    interval from 0 (included) to 360 (excluded). *)
Theorem computeItemAngles_range (items : list Item) (parentAngle : option Q) :
  exists out,
    computeItemAngles items parentAngle = Some out /\
    Forall (fun slot => exists v, slot = Some v /\ 0 <= v /\ v < 360) out.
Proof.
  destruct (computeItemAngles_ok items parentAngle)
    as (out & Hrun & Hfull & Hrange & _).
  exists out. split; [exact Hrun|].
  apply Forall_forall. intros slot Hin.
  destruct (In_nth_error _ _ Hin) as (j & Hj).
  assert (Hlt : (j < length items)%nat).
  { destruct Hfull as [<- _]. apply nth_error_Some. congruence. }
  destruct (full_nth_error _ _ _ Hfull Hlt) as (v & Hv).
  exists v. split; [congruence|].
  apply (Hrange j v). apply get_nth_error. exact Hv.
Qed.



(** C5, as the specification states it, does not hold: items 0 and 2 do
    not get 202.5 and 337.5 degrees. *)
Lemma example_three_not_as_stated :
  ~ (exists out,
       computeItemAngles exampleThree None = Some out /\
       sameAngles out [405 # 2; 45; 675 # 2] = true).
Proof.
  intros (out & Hrun & Hsame).
  vm_compute in Hrun. injection Hrun as <-.
  vm_compute in Hsame. discriminate Hsame.
Qed.

(** C5, amended.  For three items of which item 1 is fixed at 45
    degrees, and no parent angle, [computeItemAngles] returns 45 for
    item 1 and spreads the other two over the full circle in steps of
    120 degrees from there: 165 for item 2 and 285 for item 0. *)
Theorem example_three_items :
  exists out,
    computeItemAngles exampleThree None = Some out /\
    sameAngles out [285; 45; 165] = true.
Proof.
  eexists. split; [vm_compute; reflexivity|]. vm_compute. reflexivity.
Qed.

(** C8.  For four items without a fixed angle and a parent angle of 180
    degrees, no angle that [computeItemAngles] returns is 180: the
    angles are 324, 36, 108 and 252. *)
Theorem example_four_items_avoid_parent :
  exists out,
    computeItemAngles exampleFour (Some 180) = Some out /\
    sameAngles out [324; 36; 108; 252] = true /\
    Forall (fun slot => exists v, slot = Some v /\ ~ v == 180) out.
Proof.
  eexists. split; [vm_compute; reflexivity|].
  split; [vm_compute; reflexivity|].
  repeat constructor; eexists; (split; [reflexivity|]);
    intro H; vm_compute in H; discriminate H.
Qed.

(** * Properties of computeItemAnglesDnD *)

(** C9.  Without a drop index, [computeItemAnglesDnD] returns the array
    of [computeItemAngles] on the same input, and no drop angle. *)
Theorem computeItemAnglesDnD_no_drop (items : list Item)
    (parentAngle : option Q) :
  exists out,
    computeItemAngles items parentAngle = Some out /\
    computeItemAnglesDnD items parentAngle None = Some (mkDnD out NoDrop).
Proof.
  destruct (computeItemAngles_ok items parentAngle) as (out & Hrun & _).
  exists out. split; [exact Hrun|].
  unfold computeItemAnglesDnD. rewrite Hrun. reflexivity.
Qed.

(** ** Dropping an item where the drag-and-drop variant left a gap *)

Lemma collectFixed_app (l1 l2 : list Item) :
  forall index,
    collectFixed index (l1 ++ l2) =
    collectFixed index l1 ++ collectFixed (index + length l1) l2.
Proof.
  induction l1 as [|[o] l1 IH]; intro index; simpl.
  - rewrite Nat.add_0_r. reflexivity.
  - rewrite IH. replace (S index + length l1)%nat
      with (index + S (length l1))%nat by lia.
    destruct o as [a|]; [|reflexivity].
    destruct (Num.leb 0 a); reflexivity.
Qed.

Lemma pruneFrom_head (rest : list FixedAngle) :
  forall cur, In cur (pruneFrom cur rest).
Proof.
  induction rest as [|next rest IH]; intro cur; simpl.
  - left. reflexivity.
  - destruct (Num.ltb (fangle next) (fangle cur)); [apply IH|].
    left. reflexivity.
Qed.

(** An entry either survives the pruning, or the pruning goes as if the
    entry had not been there. *)
Lemma pruneFrom_drop (A B : list FixedAngle) (x : FixedAngle) :
  forall cur,
    In x (pruneFrom cur (A ++ x :: B)) \/
    pruneFrom cur (A ++ x :: B) = pruneFrom cur (A ++ B).
Proof.
  induction A as [|y A IH]; intro cur; simpl.
  - destruct (Num.ltb (fangle x) (fangle cur)).
    + right. reflexivity.
    + left. right. apply pruneFrom_head.
  - destruct (Num.ltb (fangle y) (fangle cur)).
    + apply IH.
    + destruct (IH y) as [H|H].
      * left. right. exact H.
      * right. rewrite H. reflexivity.
Qed.

Lemma prune_drop (A B : list FixedAngle) (x : FixedAngle) :
  In x (prune (A ++ x :: B)) \/ prune (A ++ x :: B) = prune (A ++ B).
Proof.
  destruct A as [|y A]; simpl.
  - left. apply pruneFrom_head.
  - apply pruneFrom_drop.
Qed.

(** The fixed angles of a list with one more item at index [k]: the
    new item, fixed at [a], is among them with the angle [a % 360], or
    they are the fixed angles of the list with a free item at [k]. *)
Lemma fixedAnglesOf_insert (items : list Item) (p : option Q) (k : nat) (a : Q) :
  (k <= length items)%nat -> 0 <= a -> clearOfParent p a ->
  In (mkFixed (Num.rem a 360) k)
     (fixedAnglesOf (firstn k items ++ fixedAt a :: skipn k items) p) \/
  fixedAnglesOf (firstn k items ++ fixedAt a :: skipn k items) p =
  fixedAnglesOf (firstn k items ++ free :: skipn k items) p.
Proof.
  intros Hk Ha Hclear. unfold fixedAnglesOf.
  rewrite !collectFixed_app. simpl.
  apply leb_le in Ha. rewrite Ha.
  rewrite length_firstn, Nat.min_l by exact Hk.
  rewrite !map_app. simpl.
  rewrite (nudge_none p (mkFixed a k)) by exact Hclear.
  apply prune_drop.
Qed.

Lemma spliceStart_inside (len : nat) (d : Z) :
  (0 <= d <= Z.of_nat len)%Z -> spliceStart len d = Z.to_nat d.
Proof.
  intro H. unfold spliceStart.
  destruct (Z.ltb_spec d 0) as [Hlt|_]; [lia|].
  rewrite Z.min_l by lia. reflexivity.
Qed.

Lemma get_removed (out : list (option Q)) (k : nat) :
  Arr.get (firstn 1 (skipn k out)) 0 = Arr.get out k.
Proof.
  unfold Arr.get. rewrite <- (Nat.add_0_r k) at 2.
  rewrite <- nth_error_skipn.
  destruct (skipn k out) as [|x rest]; reflexivity.
Qed.

Lemma length_insert {A : Type} (l : list A) (k : nat) (x : A) :
  length (firstn k l ++ x :: skipn k l) = S (length l).
Proof.
  rewrite length_app. simpl. rewrite length_firstn, length_skipn. lia.
Qed.

(** The drag-and-drop variant with a drop index inside the list reports
    the angle of the placeholder, a number in range. *)
Lemma computeItemAnglesDnD_drop (items : list Item) (p : option Q) (d : Z) :
  (0 <= d <= Z.of_nat (length items))%Z ->
  exists out kept a,
    computeItemAngles
      (firstn (Z.to_nat d) items ++ free :: skipn (Z.to_nat d) items) p =
      Some out /\
    computeItemAnglesDnD items p (Some d) = Some (mkDnD kept (DropAt (Some a))) /\
    Arr.get out (Z.to_nat d) = Some a /\ 0 <= a /\ a < 360.
Proof.
  intro Hd. set (k := Z.to_nat d).
  destruct (computeItemAngles_ok (firstn k items ++ free :: skipn k items) p)
    as (out & Hrun & Hfull & Hrange & _).
  rewrite length_insert in Hfull.
  assert (Hk : (k < S (length items))%nat) by lia.
  destruct (full_nth_error _ _ _ Hfull Hk) as (a & Hnth).
  apply get_nth_error in Hnth.
  exists out, (firstn k out ++ skipn (S k) out), a.
  split; [exact Hrun|]. split.
  - unfold computeItemAnglesDnD, spliceInsert.
    rewrite spliceStart_inside by exact Hd. fold k. fold free.
    rewrite Hrun. cbn [bind]. unfold spliceRemove.
    rewrite spliceStart_inside
      by (destruct Hfull as [-> _]; lia).
    fold k. rewrite get_removed, Hnth. reflexivity.
  - split; [exact Hnth|]. apply (Hrange k a Hnth).
Qed.

(** C7, as the specification states it, does not hold.  Two items are
    fixed at 10 and at 10 + 3/8192 degrees, the parent angle lies in the
    middle between them, and the drop index is 1.  The drop angle that
    is reported is 10 + 1/8192; an item fixed at this angle is within
    0.0001 degrees of the parent angle, so it is moved by 0.1 degrees when
    the angles are computed again. *)
Lemma drop_round_trip_not_as_stated :
  exists kept a out v,
    let items := [fixedAt 10; fixedAt (10 + (3 # 8192))] in
    let parentAngle := Some (10 + (3 # 16384)) in
    computeItemAnglesDnD items parentAngle (Some 1%Z) =
      Some (mkDnD kept (DropAt (Some a))) /\
    computeItemAngles (spliceInsert items 1 (fixedAt a)) parentAngle =
      Some out /\
    nth_error out 1 = Some (Some v) /\
    a == 10 + (1 # 8192) /\ v == 10 + (1 # 8192) + (1 # 10) /\ ~ v == a.
Proof.
  do 4 eexists. cbv zeta.
  split; [vm_compute; reflexivity|].
  split; [vm_compute; reflexivity|].
  split; [reflexivity|].
  split; [reflexivity|]. split; [reflexivity|].
  intro H. vm_compute in H. discriminate H.
Qed.

(** C7, amended.  For a list of items, a parent angle and a drop index
    [d] from 0 to N, [computeItemAnglesDnD] reports a drop angle; when
    this angle does not collide with the parent angle (there is no
    parent, or the two differ by 0.0001 degrees or more), an item fixed
    at the drop angle and inserted at index [d] gets the drop angle when
    [computeItemAngles] is run on the longer list. *)
Theorem drop_round_trip (items : list Item) (parentAngle : option Q) (d : Z) :
  (0 <= d <= Z.of_nat (length items))%Z ->
  exists kept a,
    computeItemAnglesDnD items parentAngle (Some d) =
      Some (mkDnD kept (DropAt (Some a))) /\
    (clearOfParent parentAngle a ->
     exists out v,
       computeItemAngles (spliceInsert items d (fixedAt a)) parentAngle =
         Some out /\
       nth_error out (Z.to_nat d) = Some (Some v) /\ v == a).
Proof.
  intro Hd.
  destruct (computeItemAnglesDnD_drop items parentAngle d Hd)
    as (outP & kept & a & HrunP & Hdnd & Hget & Ha0 & Ha1).
  exists kept, a. split; [exact Hdnd|]. intro Hclear.
  unfold spliceInsert. rewrite spliceStart_inside by exact Hd.
  set (k := Z.to_nat d) in *.
  assert (Hk : (k <= length items)%nat) by lia.
  destruct (fixedAnglesOf_insert items parentAngle k a Hk Ha0 Hclear)
    as [Hin|Heq].
  - destruct (computeItemAngles_ok
                (firstn k items ++ fixedAt a :: skipn k items) parentAngle)
      as (out & Hrun & _ & _ & Hfix).
    exists out, (Num.rem a 360). split; [exact Hrun|]. split.
    + apply get_nth_error. apply (Hfix _ Hin).
    + apply rem_small; assumption.
  - exists outP, a. split; [|split; [apply get_nth_error; exact Hget|reflexivity]].
    rewrite <- HrunP. unfold computeItemAngles.
    rewrite Heq, !length_insert.
    destruct (firstn k items); reflexivity.
Qed.

Lemma drop_round_trip_witness :
  exists kept a,
    computeItemAnglesDnD [free; free] None (Some 1%Z) =
      Some (mkDnD kept (DropAt (Some a))) /\
    (clearOfParent None a ->
     exists out v,
       computeItemAngles (spliceInsert [free; free] 1 (fixedAt a)) None =
         Some out /\
       nth_error out (Z.to_nat 1) = Some (Some v) /\ v == a).
Proof.
  apply (drop_round_trip [free; free] None 1%Z). simpl. lia.
Defined.

(** * Properties of computeDropIndex *)

Lemma isAngleBetween_iff (x s e : Q) :
  isAngleBetween x s e = true <->
  (s < x /\ x <= e) \/ (s < x - 360 /\ x - 360 <= e) \/
  (s < x + 360 /\ x + 360 <= e).
Proof.
  unfold isAngleBetween.
  rewrite !orb_true_iff, !andb_true_iff, !ltb_lt, !leb_le. tauto.
Qed.

Lemma half_spec (t : Q) : t / 2 * 2 == t.
Proof. field. Qed.

(** Makes the midpoints of the goal known to [lra]. *)
Ltac halves :=
  repeat match goal with
  | |- context [?t / 2] =>
      lazymatch goal with
      | _ : t / 2 * 2 == t |- _ => fail
      | _ => pose proof (half_spec t)
      end
  | _ : context [?t / 2] |- _ =>
      lazymatch goal with
      | _ : t / 2 * 2 == t |- _ => fail
      | _ => pose proof (half_spec t)
      end
  end.

(** ** A chain of boundaries *)

Section Chain.

Variables (c : nat -> Q) (n : nat).
Hypothesis step : forall j, (j < n)%nat -> c j <= c (S j).

Lemma chain_mono (i j : nat) : (i <= j)%nat -> (j <= n)%nat -> c i <= c j.
Proof.
  intros Hij Hj. induction j as [|j IH].
  - replace i with 0%nat by lia. lra.
  - destruct (Nat.eq_dec i (S j)) as [->|Hne]; [lra|].
    assert (c i <= c j) by (apply IH; lia).
    assert (c j <= c (S j)) by (apply step; lia). lra.
Qed.

(** A point of the span of the chain lies in one of its links. *)
Lemma chain_find (x : Q) :
  c 0%nat < x -> x <= c n -> exists j, (j < n)%nat /\ c j < x /\ x <= c (S j).
Proof.
  clear step. induction n as [|m IH]; intros H0 Hn.
  - lra.
  - destruct (Qlt_le_dec (c m) x) as [Hlt|Hle].
    + exists m. split; [lia|]. split; assumption.
    + destruct (IH H0 Hle) as (j & Hj & H). exists j. split; [lia|exact H].
Qed.

(** The links do not overlap. *)
Lemma chain_unique (x : Q) (i j : nat) :
  (i < n)%nat -> (j < n)%nat ->
  c i < x /\ x <= c (S i) -> c j < x /\ x <= c (S j) -> i = j.
Proof.
  intros Hi Hj [Hi1 Hi2] [Hj1 Hj2].
  destruct (Nat.lt_trichotomy i j) as [Hlt|[Heq|Hgt]]; [|exact Heq|].
  - pose proof (chain_mono (S i) j ltac:(lia) ltac:(lia)). lra.
  - pose proof (chain_mono (S j) i ltac:(lia) ltac:(lia)). lra.
Qed.

End Chain.

Lemma mod_pred (n i : nat) :
  (0 < i)%nat -> (i < n)%nat -> ((i + n - 1) mod n = i - 1)%nat.
Proof.
  intros H0 Hi. replace (i + n - 1)%nat with (i - 1 + 1 * n)%nat by lia.
  rewrite Nat.Div0.mod_add. apply Nat.mod_small. lia.
Qed.

(** ** The drop zones of a sorted list of angles *)

Section DropZones.

Variable l : list Q.
Let n := length l.
Let a (i : nat) : Q := nth i l 0.

Hypothesis two : (2 <= n)%nat.
Hypothesis ascending : forall i j, (i < j)%nat -> (j < n)%nat -> a i < a j.
Hypothesis in_range : forall i, (i < n)%nat -> 0 <= a i /\ a i < 360.

(** Zone [(j + 1) mod n] runs from boundary [j] to boundary [j + 1]. *)
Lemma dropZone_chain (j : nat) :
  (j < n)%nat ->
  fst (dropZone l ((j + 1) mod n)) == zoneChain l j /\
  snd (dropZone l ((j + 1) mod n)) == zoneChain l (S j).
Proof.
  intro Hj. rewrite next_index by exact Hj. unfold zoneChain. fold n.
  destruct (Nat.eqb_spec (j + 1) n) as [En|En].
  - (* zone 0 *)
    unfold dropZone. fold n. cbn [fst snd].
    replace ((0 + n - 1) mod n)%nat with (n - 1)%nat
      by (symmetry; apply Nat.mod_small; lia).
    replace ((0 + 1) mod n)%nat with 1%nat
      by (symmetry; apply Nat.mod_small; lia).
    fold (a (n - 1)) (a 0%nat) (a 1%nat).
    pose proof (ascending 0 (n - 1) ltac:(lia) ltac:(lia)) as H0.
    pose proof (in_range 0 ltac:(lia)) as R0.
    pose proof (in_range 1 ltac:(lia)) as R1.
    apply ltb_lt in H0. rewrite H0.
    assert (H1 : Num.ltb (a 1%nat) (a 0%nat + 360) = true)
      by (apply ltb_lt; lra).
    rewrite H1.
    replace (j <? n - 1)%nat with false by (symmetry; apply Nat.ltb_ge; lia).
    replace (j =? n - 1)%nat with true by (symmetry; apply Nat.eqb_eq; lia).
    replace (S j <? n - 1)%nat with false
      by (symmetry; apply Nat.ltb_ge; lia).
    replace (S j =? n - 1)%nat with false
      by (symmetry; apply Nat.eqb_neq; lia).
    split; field.
  - (* zone j + 1 *)
    unfold dropZone. fold n. cbn [fst snd].
    rewrite (mod_pred n (j + 1)) by lia.
    replace (j + 1 - 1)%nat with j by lia.
    rewrite (next_index n (j + 1)) by lia.
    fold (a j) (a (j + 1)%nat).
    pose proof (ascending j (j + 1) ltac:(lia) ltac:(lia)) as H0.
    assert (H1 : Num.ltb (a (j + 1)%nat) (a j) = false)
      by (apply ltb_ge; lra).
    rewrite H1.
    replace (j <? n - 1)%nat with true by (symmetry; apply Nat.ltb_lt; lia).
    destruct (Nat.eqb_spec (j + 1 + 1) n) as [E2|E2].
    + fold (a 0%nat).
      pose proof (ascending 0 (j + 1) ltac:(lia) ltac:(lia)) as H2.
      apply ltb_lt in H2. rewrite H2.
      replace (S j <? n - 1)%nat with false
        by (symmetry; apply Nat.ltb_ge; lia).
      replace (S j =? n - 1)%nat with true
        by (symmetry; apply Nat.eqb_eq; lia).
      replace (n - 1)%nat with (j + 1)%nat by lia.
      fold (a (j + 1)%nat) (a 0%nat). split; field.
    + fold (a (j + 1 + 1)%nat).
      pose proof (ascending (j + 1) (j + 1 + 1) ltac:(lia) ltac:(lia)) as H2.
      assert (H3 : Num.ltb (a (j + 1 + 1)%nat) (a (j + 1)%nat) = false)
        by (apply ltb_ge; lra).
      rewrite H3.
      replace (S j <? n - 1)%nat with true
        by (symmetry; apply Nat.ltb_lt; lia).
      replace (S j + 1)%nat with (j + 1 + 1)%nat by lia.
      replace (S j) with (j + 1)%nat by lia.
      fold (a (j + 1)%nat) (a (j + 1 + 1)%nat). split; field.
Qed.

Lemma zoneChain_step (j : nat) :
  (j < n)%nat -> zoneChain l j <= zoneChain l (S j).
Proof.
  intro Hj. unfold zoneChain. fold n.
  pose proof (in_range 0 ltac:(lia)) as R0.
  pose proof (in_range 1 ltac:(lia)) as R1.
  pose proof (in_range (n - 1) ltac:(lia)) as Rn.
  fold (a 0%nat) (a 1%nat) (a (n - 1)%nat) in *.
  destruct (Nat.ltb_spec j (n - 1)) as [H1|H1].
  - fold (a j) (a (j + 1)%nat).
    pose proof (in_range j ltac:(lia)) as Rj.
    destruct (Nat.ltb_spec (S j) (n - 1)) as [H2|H2].
    + fold (a (S j)) (a (S j + 1)%nat).
      replace (j + 1)%nat with (S j) by lia.
      pose proof (ascending j (S j + 1) ltac:(lia) ltac:(lia)).
      halves. lra.
    + replace (S j =? n - 1)%nat with true
        by (symmetry; apply Nat.eqb_eq; lia).
      replace (j + 1)%nat with (n - 1)%nat by lia.
      halves. lra.
  - replace (j =? n - 1)%nat with true by (symmetry; apply Nat.eqb_eq; lia).
    replace (S j <? n - 1)%nat with false
      by (symmetry; apply Nat.ltb_ge; lia).
    replace (S j =? n - 1)%nat with false
      by (symmetry; apply Nat.eqb_neq; lia).
    pose proof (ascending 0 1 ltac:(lia) ltac:(lia)) as H01.
    fold (a 0%nat) (a 1%nat) in H01.
    halves. lra.
Qed.

Lemma zoneChain_ends :
  zoneChain l 0 == (a 0%nat + a 1%nat) / 2 /\
  zoneChain l n == (a 0%nat + a 1%nat) / 2 + 360.
Proof.
  unfold zoneChain. fold n.
  replace (0 <? n - 1)%nat with true by (symmetry; apply Nat.ltb_lt; lia).
  replace (n <? n - 1)%nat with false by (symmetry; apply Nat.ltb_ge; lia).
  replace (n =? n - 1)%nat with false by (symmetry; apply Nat.eqb_neq; lia).
  split; reflexivity.
Qed.

(** The pointer angle, or the pointer angle plus 360, within the span
    of the chain. *)
Lemma pointer_in_span (x : Q) :
  0 <= x -> x < 360 ->
  forall k : Q,
    (k == 0 \/ k == -360 \/ k == 360) ->
    zoneChain l 0 < x + k -> x + k <= zoneChain l n ->
    (zoneChain l 0 < x -> k == 0) /\ (x <= zoneChain l 0 -> k == 360).
Proof.
  intros Hx0 Hx1 k Hk Hlo Hhi.
  destruct zoneChain_ends as [E0 En].
  pose proof (in_range 0 ltac:(lia)) as R0.
  pose proof (in_range 1 ltac:(lia)) as R1.
  fold (a 0%nat) (a 1%nat) in *.
  halves. split; intro Hcase; destruct Hk as [Hk|[Hk|Hk]]; lra.
Qed.

(** Exactly one drop zone holds the pointer angle. *)
Lemma one_drop_zone (x : Q) :
  0 <= x -> x < 360 ->
  exists i,
    (i < n)%nat /\
    isAngleBetween x (fst (dropZone l i)) (snd (dropZone l i)) = true /\
    forall i', (i' < n)%nat ->
      isAngleBetween x (fst (dropZone l i')) (snd (dropZone l i')) = true ->
      i' = i.
Proof.
  intros Hx0 Hx1.
  destruct zoneChain_ends as [E0 En].
  pose proof (in_range 0 ltac:(lia)) as R0.
  pose proof (in_range 1 ltac:(lia)) as R1.
  fold (a 0%nat) (a 1%nat) in *.
  halves.
  set (k := if Qlt_le_dec (zoneChain l 0) x then 0 else 360).
  assert (Hspan : zoneChain l 0 < x + k /\ x + k <= zoneChain l n).
  { unfold k. destruct (Qlt_le_dec (zoneChain l 0) x); lra. }
  destruct (chain_find (zoneChain l) n (x + k) (proj1 Hspan) (proj2 Hspan))
    as (j & Hj & Hin).
  destruct (dropZone_chain j Hj) as [Hs He].
  exists ((j + 1) mod n)%nat. split; [apply Nat.mod_upper_bound; lia|]. split.
  - apply isAngleBetween_iff. rewrite Hs, He.
    unfold k in Hin. destruct (Qlt_le_dec (zoneChain l 0) x).
    + left. lra.
    + right. right. lra.
  - intros i' Hi' Hmatch.
    assert (Ei : exists j', (j' < n)%nat /\ i' = ((j' + 1) mod n)%nat).
    { destruct i' as [|i'].
      - exists (n - 1)%nat. split; [lia|].
        replace (n - 1 + 1)%nat with n by lia.
        symmetry. apply Nat.Div0.mod_same.
      - exists i'. split; [lia|]. symmetry.
        replace (i' + 1)%nat with (S i') by lia.
        apply Nat.mod_small. lia. }
    destruct Ei as (j' & Hj' & ->).
    destruct (dropZone_chain j' Hj') as [Hs' He'].
    apply isAngleBetween_iff in Hmatch. rewrite Hs', He' in Hmatch.
    assert (Hk' : exists k', (k' == 0 \/ k' == -360 \/ k' == 360) /\
              zoneChain l j' < x + k' /\ x + k' <= zoneChain l (S j')).
    { destruct Hmatch as [Hm|[Hm|Hm]];
        [exists 0|exists (-360)|exists 360]; split; auto; lra. }
    destruct Hk' as (k' & Hk' & Hin').
    pose proof (chain_mono (zoneChain l) n zoneChain_step 0 j'
                  ltac:(lia) ltac:(lia)) as Hlo.
    pose proof (chain_mono (zoneChain l) n zoneChain_step (S j') n
                  ltac:(lia) ltac:(lia)) as Hhi.
    destruct (pointer_in_span x Hx0 Hx1 k' Hk' ltac:(lra) ltac:(lra))
      as [K0 K1].
    assert (Ek : k' == k).
    { unfold k. destruct (Qlt_le_dec (zoneChain l 0) x); auto. }
    f_equal. f_equal.
    apply (chain_unique (zoneChain l) n zoneChain_step (x + k) j' j Hj' Hj);
      [lra|exact Hin].
Qed.

End DropZones.

(** The loop returns the first zone that holds the pointer angle. *)
Lemma dropLoop_first (l : list Q) (x : Q) (todo : nat) :
  forall start i,
    (start <= i)%nat -> (i < start + todo)%nat ->
    isAngleBetween x (fst (dropZone l i)) (snd (dropZone l i)) = true ->
    exists i',
      dropLoop l x todo start = Some i' /\ (start <= i')%nat /\ (i' <= i)%nat /\
      isAngleBetween x (fst (dropZone l i')) (snd (dropZone l i')) = true.
Proof.
  induction todo as [|todo IH]; intros start i Hs Hi Hm; [lia|].
  cbn [dropLoop]. destruct (dropZone l start) as [zs ze] eqn:Ez.
  destruct (isAngleBetween x zs ze) eqn:E.
  - exists start. rewrite Ez. cbn [fst snd]. repeat split; try lia. exact E.
  - assert (Hne : start <> i).
    { intros ->. rewrite Ez in Hm. cbn [fst snd] in Hm. congruence. }
    destruct (IH (S start) i ltac:(lia) ltac:(lia) Hm) as (i' & Hrun & H1 & H2 & H3).
    exists i'. repeat split; try assumption; lia.
Qed.

(** On exact numbers: for a list of N >= 1 angles that is sorted ascending, without
    a repeated angle, all in the interval from 0 to 360, and for a
    pointer angle in that interval, [computeDropIndex] returns an index
    from 0 to N.  For N >= 2 exactly one drop zone holds the pointer
    angle and its index is returned: the loop is never left without
    a value. *)
Lemma computeDropIndex_total_exact (l : list Q) (x : Q) :
  l <> [] -> StronglySorted Qlt l -> Forall angleInRange l -> angleInRange x ->
  exists i,
    computeDropIndex l x = Some i /\ (i <= length l)%nat /\
    ((2 <= length l)%nat ->
     (i < length l)%nat /\
     isAngleBetween x (fst (dropZone l i)) (snd (dropZone l i)) = true /\
     forall i', (i' < length l)%nat ->
       isAngleBetween x (fst (dropZone l i')) (snd (dropZone l i')) = true ->
       i' = i).
Proof.
  intros Hne Hsorted Hrange [Hx0 Hx1].
  destruct l as [|a0 [|a1 rest]]; [congruence| |].
  - cbn [computeDropIndex].
    destruct (_ || _); eexists; (split; [reflexivity|]); simpl; split; lia.
  - set (l := a0 :: a1 :: rest) in *.
    assert (Htwo : (2 <= length l)%nat) by (simpl; lia).
    rewrite Forall_forall in Hrange.
    destruct (one_drop_zone l Htwo (strongly_sorted_nth Qlt l 0 Hsorted)
                (fun i Hi => Hrange _ (nth_In l 0 Hi)) x Hx0 Hx1)
      as (i & Hi & Hm & Huniq).
    destruct (dropLoop_first l x (length l) 0 i ltac:(lia) ltac:(lia) Hm)
      as (i' & Hrun & _ & Hle & Hm').
    assert (Ei : i' = i) by (apply Huniq; [lia|exact Hm']).
    subst i'. exists i. split; [exact Hrun|]. split; [lia|].
    intros _. split; [exact Hi|]. split; [exact Hm|exact Huniq].
Qed.


(** What the branch for a single item does with a pointer angle that
    is below the angle of the item plus 90: it returns 0, however far
    the pointer is from the item. *)
Lemma computeDropIndex_single_below (a x : Q) :
  x - a < 90 -> computeDropIndex [a] x = Some 0%nat.
Proof.
  intro H. cbn [computeDropIndex]. apply ltb_lt in H. rewrite H. reflexivity.
Qed.

(** C6.  With the single item at 180 degrees and the pointer at 0
    degrees, the pointer is 180 degrees away from the item, which is not
    less than 90, and yet [computeDropIndex] returns 0: a difference
    [dragAngle - itemAngles[0]] below -90 is taken for a pointer near the
    item. *)
Theorem single_item_drop_index_far_side :
  computeDropIndex [180] 0 = Some 0%nat /\ ~ angularDistance 0 180 < 90.
Proof.
  split; [reflexivity|]. intro H. vm_compute in H. discriminate H.
Qed.

(** * Properties of computeItemWedges *)

(** ** The sort *)

Lemma insertSorted_perm (x : Q) (l : list Q) :
  Permutation (x :: l) (insertSorted x l).
Proof.
  induction l as [|y l IH]; simpl.
  - apply Permutation_refl.
  - destruct (Num.leb x y).
    + apply Permutation_refl.
    + eapply perm_trans; [apply perm_swap|]. apply perm_skip. exact IH.
Qed.

Lemma sortAngles_perm (l : list Q) : Permutation l (sortAngles l).
Proof.
  induction l as [|x l IH]; simpl.
  - apply perm_nil.
  - eapply perm_trans; [apply perm_skip; exact IH|]. apply insertSorted_perm.
Qed.

Lemma insertSorted_sorted (x : Q) (l : list Q) :
  StronglySorted Qle l -> StronglySorted Qle (insertSorted x l).
Proof.
  intro H. induction H as [|y l Hs IH Hf]; simpl.
  - repeat constructor.
  - destruct (Num.leb x y) eqn:E.
    + apply leb_le in E. constructor.
      * constructor; assumption.
      * constructor; [exact E|].
        eapply Forall_impl; [|exact Hf]. intros z Hz. simpl in Hz.
        apply (Qle_trans _ y); assumption.
    + apply leb_gt in E. constructor; [exact IH|].
      apply (Permutation_Forall (insertSorted_perm x l)).
      constructor; [apply Qlt_le_weak; exact E|exact Hf].
Qed.

Lemma sortAngles_sorted (l : list Q) : StronglySorted Qle (sortAngles l).
Proof.
  induction l as [|x l IH]; simpl.
  - constructor.
  - apply insertSorted_sorted. exact IH.
Qed.

Lemma sorted_le_nth (l : list Q) :
  StronglySorted Qle l ->
  forall i j, (i <= j)%nat -> (j < length l)%nat -> nth i l 0 <= nth j l 0.
Proof.
  intros H i j Hij Hj. destruct (Nat.eq_dec i j) as [->|Hne].
  - apply Qle_refl.
  - apply (strongly_sorted_nth Qle l 0 H); lia.
Qed.

(** ** findIndex *)

Lemma findIndex_some (p : Q -> bool) (l : list Q) :
  forall j, findIndex p l = Some j ->
            (j < length l)%nat /\ p (nth j l 0) = true /\
            forall j', (j' < j)%nat -> p (nth j' l 0) = false.
Proof.
  induction l as [|x l IH]; intros j H; simpl in H; [discriminate|].
  destruct (p x) eqn:E.
  - injection H as <-. simpl. repeat split; [lia|exact E|]. intros j' Hj'. lia.
  - destruct (findIndex p l) as [j0|]; [|discriminate].
    injection H as <-. destruct (IH j0 eq_refl) as (H1 & H2 & H3).
    simpl. repeat split; [lia|exact H2|].
    intros [|j'] Hj'; [exact E|]. apply H3. lia.
Qed.

Lemma findIndex_exists (p : Q -> bool) (l : list Q) :
  forall j, (j < length l)%nat -> p (nth j l 0) = true ->
            exists j0, findIndex p l = Some j0.
Proof.
  induction l as [|x l IH]; intros j Hj Hp; simpl in *; [lia|].
  destruct (p x) eqn:E; [exists 0%nat; reflexivity|].
  destruct j as [|j]; [congruence|].
  destruct (IH j ltac:(lia) Hp) as (j0 & ->). exists (S j0). reflexivity.
Qed.

(** ** The separators *)

Lemma length_separatorsOf (l : list Q) : length (separatorsOf l) = length l.
Proof. unfold separatorsOf. rewrite length_map, length_seq. reflexivity. Qed.

Lemma nth_error_separatorsOf (l : list Q) (j : nat) :
  (j < length l)%nat ->
  nth_error (separatorsOf l) j = Some (separatorAt l j).
Proof.
  intro Hj. unfold separatorsOf.
  rewrite nth_error_map, nth_error_seq.
  replace (j <? length l)%nat with true by (symmetry; apply Nat.ltb_lt; lia).
  reflexivity.
Qed.

Lemma nth_separatorsOf (l : list Q) (j : nat) :
  (j < length l)%nat -> nth j (separatorsOf l) 0 = separatorAt l j.
Proof.
  intro Hj. apply nth_error_nth. apply nth_error_separatorsOf. exact Hj.
Qed.

(** ** The sectors between the separators *)

Section Sectors.

Variable angles : list Q.
Let sorted := sortAngles angles.
Let m := length sorted.
Let s (i : nat) : Q := nth i sorted 0.
Let sep (j : nat) : Q := separatorAt sorted j.
Let chain (j : nat) : Q := sectorChain sorted j.

Hypothesis some_angle : angles <> [].
Hypothesis in_range : Forall angleInRange angles.

Lemma sorted_length : m = length angles.
Proof. symmetry. apply Permutation_length. apply sortAngles_perm. Qed.

Lemma sorted_pos : (0 < m)%nat.
Proof.
  rewrite sorted_length. destruct angles; [congruence|simpl; lia].
Qed.

Lemma sorted_in (x : Q) : In x angles <-> In x sorted.
Proof.
  split; apply Permutation_in;
    [|apply Permutation_sym]; apply sortAngles_perm.
Qed.

Lemma sorted_range (i : nat) : (i < m)%nat -> 0 <= s i /\ s i < 360.
Proof.
  intro Hi. rewrite Forall_forall in in_range. apply in_range.
  apply sorted_in. apply nth_In. exact Hi.
Qed.

Lemma sorted_le (i j : nat) : (i <= j)%nat -> (j < m)%nat -> s i <= s j.
Proof. apply sorted_le_nth. apply sortAngles_sorted. Qed.

Lemma sep_inner (j : nat) :
  (j + 1 < m)%nat -> sep j = (s j + s (j + 1)%nat) / 2.
Proof.
  intro Hj. unfold sep, separatorAt. fold m.
  replace (j =? m - 1)%nat with false by (symmetry; apply Nat.eqb_neq; lia).
  reflexivity.
Qed.

Lemma sep_last : sep (m - 1) = (s (m - 1)%nat + s 0%nat + 360) / 2.
Proof.
  unfold sep, separatorAt. fold m. rewrite Nat.eqb_refl. reflexivity.
Qed.

Lemma chain_succ (j : nat) : chain (S j) = sep j.
Proof. reflexivity. Qed.

Lemma chain_zero : chain 0 = sep (m - 1) - 360.
Proof. reflexivity. Qed.

Lemma chain_step (j : nat) : (j < m)%nat -> chain j <= chain (S j).
Proof.
  intro Hj. pose proof sorted_pos as Hm.
  pose proof (sorted_range 0 Hm) as R0.
  pose proof (sorted_range (m - 1) ltac:(lia)) as Rm.
  rewrite chain_succ. destruct j as [|j].
  - rewrite chain_zero.
    destruct (Nat.eq_dec m 1) as [E|E].
    + assert (E0 : sep 0 = sep (m - 1)) by (f_equal; lia).
      rewrite E0, sep_last. halves. lra.
    + rewrite sep_last, sep_inner by lia.
      pose proof (sorted_le 0 (0 + 1) ltac:(lia) ltac:(lia)).
      halves. lra.
  - rewrite chain_succ, (sep_inner j) by lia.
    replace (j + 1)%nat with (S j) by lia.
    pose proof (sorted_range j ltac:(lia)) as Rj.
    destruct (Nat.eq_dec (S j) (m - 1)) as [E|E].
    + rewrite E, sep_last. rewrite <- E.
      pose proof (sorted_le j (S j) ltac:(lia) ltac:(lia)).
      halves. lra.
    + rewrite sep_inner by lia.
      pose proof (sorted_le j (S j + 1) ltac:(lia) ltac:(lia)).
      halves. lra.
Qed.

Lemma chain_turn : chain m == chain 0 + 360.
Proof.
  pose proof sorted_pos as Hm. rewrite chain_zero.
  replace m with (S (m - 1)) at 1 by lia. rewrite chain_succ. ring.
Qed.

Lemma chain_start : -180 <= chain 0 /\ chain 0 < 180.
Proof.
  pose proof sorted_pos as Hm.
  pose proof (sorted_range 0 Hm) as R0.
  pose proof (sorted_range (m - 1) ltac:(lia)) as Rm.
  rewrite chain_zero, sep_last. halves. split; lra.
Qed.


(** An angle of the list lies in the sector that [wedgeOf] returns for
    it. *)
Lemma sector_of_angle (x : Q) :
  In x angles ->
  exists j,
    (j < m)%nat /\ sectorIndex sorted x = Some j /\
    wedgeOf (separatorsOf sorted) x =
      mkWedge (Some (chain j)) (Some (chain (S j))) /\
    chain j <= x /\ x < chain (S j).
Proof.
  intro Hin. pose proof sorted_pos as Hm.
  apply sorted_in in Hin.
  destruct (In_nth _ _ 0 Hin) as (u & Hu & Hx). fold m in Hu. fold (s u) in Hx.
  subst x.
  pose proof (sorted_range 0 Hm) as R0.
  pose proof (sorted_range (m - 1) ltac:(lia)) as Rm.
  pose proof (sorted_le 0 u ltac:(lia) Hu) as H0u.
  pose proof (sorted_le u (m - 1) ltac:(lia) ltac:(lia)) as Hum.
  assert (Hlast : Num.ltb (s u) (nth (m - 1) (separatorsOf sorted) 0) = true).
  { rewrite nth_separatorsOf by (fold m; lia). fold (sep (m - 1)).
    rewrite sep_last. apply ltb_lt. halves. lra. }
  destruct (findIndex_exists (fun t => Num.ltb (s u) t) (separatorsOf sorted)
              (m - 1)) as (j & Hj);
    [rewrite length_separatorsOf; fold m; lia|exact Hlast|].
  destruct (findIndex_some _ _ _ Hj) as (Hjm & Hjx & Hmin).
  rewrite length_separatorsOf in Hjm. fold m in Hjm.
  rewrite nth_separatorsOf in Hjx by exact Hjm. fold (sep j) in Hjx.
  apply ltb_lt in Hjx.
  exists j. split; [exact Hjm|]. split; [exact Hj|].
  unfold wedgeOf. unfold sectorIndex in Hj. rewrite Hj.
  rewrite length_separatorsOf. fold m. destruct j as [|j].
  - rewrite !nth_error_separatorsOf by (fold m; lia). cbn [option_map].
    split; [reflexivity|]. rewrite chain_succ, chain_zero, sep_last.
    split; [|exact Hjx]. halves. lra.
  - rewrite !nth_error_separatorsOf by (fold m; lia).
    split; [reflexivity|]. rewrite !chain_succ. split; [|exact Hjx].
    specialize (Hmin j ltac:(lia)).
    rewrite nth_separatorsOf in Hmin by (fold m; lia).
    apply ltb_ge in Hmin. exact Hmin.
Qed.

(** Two angles of the list in one sector are equal. *)
Lemma sector_one_angle (j u : nat) :
  (j < m)%nat -> (u < m)%nat ->
  chain j <= s u -> s u < chain (S j) -> s u == s j.
Proof.
  intros Hj Hu Hlo Hhi. rewrite chain_succ in Hhi.
  destruct (Nat.lt_trichotomy u j) as [Hlt|[->|Hgt]]; [| reflexivity |].
  - destruct j as [|j]; [lia|]. rewrite chain_succ, sep_inner in Hlo by lia.
    replace (j + 1)%nat with (S j) in Hlo by lia.
    pose proof (sorted_le u j ltac:(lia) ltac:(lia)).
    pose proof (sorted_le j (S j) ltac:(lia) ltac:(lia)).
    halves. lra.
  - rewrite sep_inner in Hhi by lia.
    pose proof (sorted_le j (j + 1) ltac:(lia) ltac:(lia)).
    pose proof (sorted_le (j + 1) u ltac:(lia) ltac:(lia)).
    halves. lra.
Qed.

Lemma same_sector_eq (x y : Q) (j : nat) :
  In x angles -> In y angles ->
  sectorIndex sorted x = Some j -> sectorIndex sorted y = Some j -> x == y.
Proof.
  intros Hx Hy Hjx Hjy.
  destruct (sector_of_angle x Hx) as (jx & Hjm & Ex & _ & Hx1 & Hx2).
  destruct (sector_of_angle y Hy) as (jy & _ & Ey & _ & Hy1 & Hy2).
  assert (jx = j) by congruence. assert (jy = j) by congruence. subst jx jy.
  apply sorted_in in Hx, Hy.
  destruct (In_nth _ _ 0 Hx) as (u & Hu & <-).
  destruct (In_nth _ _ 0 Hy) as (v & Hv & <-).
  fold (s u) (s v) in *.
  rewrite (sector_one_angle j u Hjm Hu Hx1 Hx2).
  rewrite (sector_one_angle j v Hjm Hv Hy1 Hy2). reflexivity.
Qed.

(** A pointer angle, moved by no turn or by one, lies in the span of
    the chain; it does so in one way only. *)
Lemma pointer_turn (x : Q) :
  angleInRange x ->
  exists k, (k == 0 \/ k == -360 \/ k == 360) /\
            chain 0 < x + k /\ x + k <= chain m.
Proof.
  intros [Hx0 Hx1]. pose proof chain_turn. pose proof chain_start.
  destruct (Qlt_le_dec (chain 0) x) as [H1|H1].
  - destruct (Qlt_le_dec (chain m) x) as [H2|H2].
    + exists (-360). split; [right; left; reflexivity|]. lra.
    + exists 0. split; [left; reflexivity|]. lra.
  - exists 360. split; [right; right; reflexivity|]. lra.
Qed.

Lemma holds_in_chain (x : Q) (j : nat) :
  (j < m)%nat ->
  isAngleBetween x (chain j) (chain (S j)) = true ->
  exists k, (k == 0 \/ k == -360 \/ k == 360) /\
            chain j < x + k /\ x + k <= chain (S j).
Proof.
  intros Hj H. apply isAngleBetween_iff in H.
  destruct H as [H|[H|H]];
    [exists 0; split; [left; reflexivity|]
    |exists (-360); split; [right; left; reflexivity|]
    |exists 360; split; [right; right; reflexivity|]]; lra.
Qed.

(** The sectors do not overlap: a pointer angle lies in one at most. *)
Lemma sector_unique (x : Q) (i j : nat) :
  (i < m)%nat -> (j < m)%nat ->
  isAngleBetween x (chain i) (chain (S i)) = true ->
  isAngleBetween x (chain j) (chain (S j)) = true -> i = j.
Proof.
  intros Hi Hj Hxi Hxj.
  destruct (holds_in_chain x i Hi Hxi) as (k & Hk & Hki).
  destruct (holds_in_chain x j Hj Hxj) as (k' & Hk' & Hkj).
  pose proof chain_turn as Hturn.
  pose proof (chain_mono chain m chain_step 0 i ltac:(lia) ltac:(lia)).
  pose proof (chain_mono chain m chain_step (S i) m ltac:(lia) ltac:(lia)).
  pose proof (chain_mono chain m chain_step 0 j ltac:(lia) ltac:(lia)).
  pose proof (chain_mono chain m chain_step (S j) m ltac:(lia) ltac:(lia)).
  assert (Ek : k == k').
  { destruct Hk as [Hk|[Hk|Hk]]; destruct Hk' as [Hk'|[Hk'|Hk']]; lra. }
  apply (chain_unique chain m chain_step (x + k) i j Hi Hj); lra.
Qed.

(** The sectors leave no gap. *)
Lemma sector_exists (x : Q) :
  angleInRange x ->
  exists j, (j < m)%nat /\ isAngleBetween x (chain j) (chain (S j)) = true.
Proof.
  intro Hx. destruct (pointer_turn x Hx) as (k & Hk & Hlo & Hhi).
  destruct (chain_find chain m (x + k) Hlo Hhi) as (j & Hj & Hin).
  exists j. split; [exact Hj|]. apply isAngleBetween_iff.
  destruct Hk as [Hk|[Hk|Hk]]; [left|right; left|right; right]; lra.
Qed.

(** When no angle is repeated, every sector is the sector of an angle
    of the list. *)
Lemma sector_indices_nodup (l : list Q) :
  incl l angles -> NoDupA Qeq l -> NoDup (map (sectorIndex sorted) l).
Proof.
  intros Hincl Hnd. induction Hnd as [|x l Hx Hnd IH]; simpl.
  - constructor.
  - constructor.
    + intro Hin. apply in_map_iff in Hin. destruct Hin as (y & Hy & Hyl).
      apply Hx. apply InA_alt. exists y. split; [|exact Hyl].
      destruct (sector_of_angle x (Hincl x (or_introl eq_refl)))
        as (j & _ & Hj & _).
      apply (same_sector_eq x y j).
      * apply Hincl. left. reflexivity.
      * apply Hincl. right. exact Hyl.
      * exact Hj.
      * congruence.
    + apply IH. intros y Hy. apply Hincl. right. exact Hy.
Qed.

Lemma sector_has_angle (j : nat) :
  NoDupA Qeq angles -> (j < m)%nat ->
  exists x, In x angles /\ sectorIndex sorted x = Some j.
Proof.
  intros Hnd Hj.
  assert (Hincl : incl (map Some (seq 0 m)) (map (sectorIndex sorted) angles)).
  { apply NoDup_length_incl.
    - apply sector_indices_nodup; [apply incl_refl|exact Hnd].
    - rewrite !length_map, length_seq, sorted_length. lia.
    - intros o Ho. apply in_map_iff in Ho. destruct Ho as (x & <- & Hx).
      destruct (sector_of_angle x Hx) as (i & Hi & -> & _).
      apply in_map. apply in_seq. lia. }
  assert (Hin : In (Some j) (map Some (seq 0 m)))
    by (apply in_map; apply in_seq; lia).
  apply Hincl in Hin. apply in_map_iff in Hin.
  destruct Hin as (x & Hx & Hxin). exists x. split; assumption.
Qed.

End Sectors.

(** ** The wedges of the items *)

Lemma nodupA_nth_error (l : list Q) :
  NoDupA Qeq l ->
  forall i j a b,
    nth_error l i = Some a -> nth_error l j = Some b -> a == b -> i = j.
Proof.
  intro H. induction H as [|x l Hx Hnd IH]; intros i j a b Hi Hj Hab.
  - destruct i; discriminate.
  - destruct i as [|i], j as [|j]; simpl in Hi, Hj.
    + reflexivity.
    + injection Hi as ->. exfalso. apply Hx. apply InA_alt.
      exists b. split; [exact Hab|]. apply (nth_error_In _ _ Hj).
    + injection Hj as ->. exfalso. apply Hx. apply InA_alt.
      exists a. split; [symmetry; exact Hab|]. apply (nth_error_In _ _ Hi).
    + f_equal. apply (IH i j a b Hi Hj Hab).
Qed.

Section ItemWedges.

Variables (itemAngles angles : list Q).
Let separators := separatorsOf (sortAngles angles).
Let wedges := map (wedgeOf separators) itemAngles.
Let chain := sectorChain (sortAngles angles).
Let m := length (sortAngles angles).

Hypothesis items_in : incl itemAngles angles.
Hypothesis some_angle : angles <> [].
Hypothesis in_range : Forall angleInRange angles.
Hypothesis distinct : NoDupA Qeq itemAngles.

Lemma wedge_sector (a x : Q) :
  In a angles -> wedgeHolds (wedgeOf separators a) x = true ->
  exists j, (j < m)%nat /\ sectorIndex (sortAngles angles) a = Some j /\
            isAngleBetween x (chain j) (chain (S j)) = true.
Proof.
  intros Ha Hx.
  destruct (sector_of_angle angles some_angle in_range a Ha)
    as (j & Hj & Hidx & Hw & _).
  exists j. split; [exact Hj|]. split; [exact Hidx|].
  fold separators in Hw. rewrite Hw in Hx. exact Hx.
Qed.

(** Two angles whose wedges hold the same pointer angle are equal. *)
Lemma wedges_apart (a b x : Q) :
  In a angles -> In b angles ->
  wedgeHolds (wedgeOf separators a) x = true ->
  wedgeHolds (wedgeOf separators b) x = true -> a == b.
Proof.
  intros Ha Hb Hxa Hxb.
  destruct (wedge_sector a x Ha Hxa) as (i & Hi & Hia & Hin).
  destruct (wedge_sector b x Hb Hxb) as (j & Hj & Hjb & Hjn).
  assert (i = j)
    by (apply (sector_unique angles some_angle in_range x i j); assumption).
  subst j.
  apply (same_sector_eq angles some_angle in_range a b i); assumption.
Qed.

(** With no repeated angle, every pointer angle lies in the wedge of
    one of the angles. *)
Lemma wedges_cover (x : Q) :
  NoDupA Qeq angles -> angleInRange x ->
  exists a, In a angles /\ wedgeHolds (wedgeOf separators a) x = true.
Proof.
  intros Hnd Hx.
  destruct (sector_exists angles some_angle in_range x Hx) as (j & Hj & Hin).
  destruct (sector_has_angle angles some_angle in_range j Hnd Hj)
    as (a & Ha & Hidx).
  exists a. split; [exact Ha|].
  destruct (sector_of_angle angles some_angle in_range a Ha)
    as (j' & _ & Hidx' & Hw & _).
  assert (j' = j) by congruence. subst j'.
  fold separators in Hw. rewrite Hw. exact Hin.
Qed.

Lemma wedges_length : length wedges = length itemAngles.
Proof. apply length_map. Qed.

Lemma wedges_nth (i : nat) (w : Wedge) :
  nth_error wedges i = Some w ->
  exists a, nth_error itemAngles i = Some a /\ w = wedgeOf separators a.
Proof.
  unfold wedges. rewrite nth_error_map.
  destruct (nth_error itemAngles i) as [a|]; [|discriminate].
  intros [= <-]. exists a. split; reflexivity.
Qed.

Lemma wedges_proper : Forall wedgeProper wedges.
Proof.
  unfold wedges. rewrite Forall_map. apply Forall_forall. intros a Ha.
  destruct (sector_of_angle angles some_angle in_range a (items_in a Ha))
    as (j & _ & _ & Hw & Hlo & Hhi).
  fold separators in Hw. rewrite Hw.
  exists (sectorChain (sortAngles angles) j),
    (sectorChain (sortAngles angles) (S j)).
  split; [reflexivity|]. split; [reflexivity|]. lra.
Qed.

Lemma wedges_disjoint (x : Q) (i j : nat) (wi wj : Wedge) :
  nth_error wedges i = Some wi -> nth_error wedges j = Some wj ->
  wedgeHolds wi x = true -> wedgeHolds wj x = true -> i = j.
Proof.
  intros Hi Hj Hxi Hxj.
  destruct (wedges_nth i wi Hi) as (a & Ha & ->).
  destruct (wedges_nth j wj Hj) as (b & Hb & ->).
  apply (nodupA_nth_error itemAngles distinct i j a b Ha Hb).
  apply (wedges_apart a b x); try assumption;
    apply items_in; eapply nth_error_In; eassumption.
Qed.

Lemma wedges_of_item (a : Q) :
  In a itemAngles ->
  exists i, nth_error wedges i = Some (wedgeOf separators a).
Proof.
  intro Ha. destruct (In_nth_error _ _ Ha) as (i & Hi).
  exists i. unfold wedges. rewrite nth_error_map, Hi. reflexivity.
Qed.

End ItemWedges.

(** Outside the case of a single item without a parent, the wedges are
    taken from the separators of all the angles. *)
Lemma computeItemWedges_general (itemAngles : list Q) (parentAngle : option Q) :
  itemAngles <> [] ->
  (parentAngle = None -> (2 <= length itemAngles)%nat) ->
  computeItemWedges itemAngles parentAngle =
  map (wedgeOf (separatorsOf (allAnglesOf itemAngles parentAngle))) itemAngles.
Proof.
  intros Hne Htwo. destruct itemAngles as [|a [|b rest]]; [congruence| |].
  - destruct parentAngle as [p|]; [reflexivity|].
    specialize (Htwo eq_refl). simpl in Htwo. lia.
  - destruct parentAngle; reflexivity.
Qed.

Lemma allAnglesOf_sort (itemAngles : list Q) (parentAngle : option Q) :
  allAnglesOf itemAngles parentAngle =
  sortAngles (anglesWith itemAngles parentAngle).
Proof. destruct parentAngle; reflexivity. Qed.

Lemma anglesWith_incl (itemAngles : list Q) (parentAngle : option Q) :
  incl itemAngles (anglesWith itemAngles parentAngle).
Proof.
  destruct parentAngle; simpl; [apply incl_appl|]; apply incl_refl.
Qed.

Lemma anglesWith_some (itemAngles : list Q) (parentAngle : option Q) :
  itemAngles <> [] -> anglesWith itemAngles parentAngle <> [].
Proof.
  intros Hne H. destruct parentAngle; simpl in H; [|congruence].
  destruct itemAngles; [congruence|discriminate].
Qed.

Lemma anglesWith_range (itemAngles : list Q) (parentAngle : option Q) :
  Forall angleInRange itemAngles ->
  (forall p, parentAngle = Some p -> angleInRange p) ->
  Forall angleInRange (anglesWith itemAngles parentAngle).
Proof.
  intros Hr Hp. destruct parentAngle as [p|]; simpl; [|exact Hr].
  apply Forall_app. split; [exact Hr|]. constructor; [|constructor].
  apply Hp. reflexivity.
Qed.

Lemma anglesWith_nodup (itemAngles : list Q) (p : Q) :
  NoDupA Qeq itemAngles -> (forall a, In a itemAngles -> ~ a == p) ->
  NoDupA Qeq (anglesWith itemAngles (Some p)).
Proof.
  intros Hnd Hp. simpl. apply NoDupA_app.
  - apply Q_Setoid.
  - exact Hnd.
  - constructor; [|constructor]. intro H. inversion H.
  - intros x Hx Hxp. apply InA_alt in Hx. destruct Hx as (a & Hxa & Ha).
    inversion Hxp as [? ? Hxp'|? ? Hxp']; subst; [|inversion Hxp'].
    apply (Hp a Ha). rewrite <- Hxa. exact Hxp'.
Qed.

(** The single item without a parent: its wedge is the full circle. *)
Lemma single_root_partition (a : Q) : wedgesPartition [a] None.
Proof.
  constructor; cbn [computeItemWedges].
  - reflexivity.
  - constructor; [|constructor].
    exists 0, 360. repeat split; reflexivity.
  - intros x i j (wi & Hi & _) (wj & Hj & _).
    destruct i as [|[|i]]; destruct j as [|[|j]]; simpl in Hi, Hj;
      try discriminate; reflexivity.
  - intros _ x [Hx0 Hx1]. exists 0%nat. eexists. split; [reflexivity|].
    unfold wedgeHolds. cbn [start end_]. apply isAngleBetween_iff.
    destruct (Qlt_le_dec 0 x); [left|right; right]; lra.
  - intros p H. discriminate H.
  - intros p H. discriminate H.
Qed.

(** Outside the case of a single item without a parent. *)
Lemma general_partition (itemAngles : list Q) (parentAngle : option Q) :
  itemAngles <> [] ->
  NoDupA Qeq itemAngles ->
  Forall angleInRange itemAngles ->
  (forall p, parentAngle = Some p -> angleInRange p) ->
  (parentAngle = None -> (2 <= length itemAngles)%nat) ->
  wedgesPartition itemAngles parentAngle.
Proof.
  intros Hne Hnd Hrange Hparent Htwo.
  pose proof (anglesWith_incl itemAngles parentAngle) as Hincl.
  pose proof (anglesWith_some itemAngles parentAngle Hne) as Hsome.
  pose proof (anglesWith_range itemAngles parentAngle Hrange Hparent) as Hall.
  assert (Hgen : computeItemWedges itemAngles parentAngle =
            map (wedgeOf (separatorsOf (sortAngles
                   (anglesWith itemAngles parentAngle)))) itemAngles).
  { rewrite <- allAnglesOf_sort.
    apply computeItemWedges_general; assumption. }
  constructor; rewrite ?Hgen.
  - apply length_map.
  - apply (wedges_proper itemAngles _ Hincl Hsome Hall).
  - intros x i j (wi & Hi & Hxi) (wj & Hj & Hxj).
    apply (wedges_disjoint itemAngles _ Hincl Hsome Hall Hnd
             x i j wi wj Hi Hj Hxi Hxj).
  - intros Enone x Hx. rewrite Enone in *.
    destruct (wedges_cover _ Hsome Hall x Hnd Hx) as (a & Ha & Hxa).
    destruct (wedges_of_item itemAngles (anglesWith itemAngles None) a Ha)
      as (i & Hi).
    exists i. eexists. split; [exact Hi|exact Hxa].
  - intros p Esome Hp x Hx. rewrite Esome in *.
    destruct (wedges_cover _ Hsome Hall x (anglesWith_nodup _ _ Hnd Hp) Hx)
      as (a & Ha & Hxa).
    simpl in Ha. apply in_app_or in Ha. destruct Ha as [Ha|[<-|[]]].
    + left.
      destruct (wedges_of_item itemAngles (anglesWith itemAngles (Some p)) a Ha)
        as (i & Hi).
      exists i. eexists. split; [exact Hi|exact Hxa].
    + right. exact Hxa.
  - intros p Esome Hp x i (w & Hi & Hxi). rewrite Esome in *.
    destruct (wedges_nth itemAngles _ i w Hi) as (a & Ha & ->).
    destruct (wedgeHolds (parentSector itemAngles p) x) eqn:E; [|reflexivity].
    exfalso. apply (Hp a (nth_error_In _ _ Ha)).
    apply (wedges_apart _ Hsome Hall a p x).
    + apply Hincl. apply (nth_error_In _ _ Ha).
    + simpl. apply in_or_app. right. left. reflexivity.
    + exact Hxi.
    + exact E.
Qed.




(** * Further properties of computeItemAngles *)

(** ** Items without a fixed angle *)

Lemma collectFixed_allFree (items : list Item) :
  Forall isFree items -> forall index, collectFixed index items = [].
Proof.
  intro H. induction H as [|[o] items Ho _ IH]; intro index; simpl.
  - reflexivity.
  - unfold isFree in Ho. simpl in Ho. destruct o as [a|]; [|apply IH].
    assert (E : Num.leb 0 a = false) by (apply leb_gt; exact Ho).
    rewrite E. apply IH.
Qed.

Lemma fixedAnglesOf_allFree (items : list Item) (p : option Q) :
  Forall isFree items -> fixedAnglesOf items p = [].
Proof.
  intro H. unfold fixedAnglesOf. rewrite collectFixed_allFree by exact H.
  reflexivity.
Qed.

(** The loop of a wedge without the parent link in it, from [index] to
    the end of the array, where it meets the wedge's end at slot 0: the
    slots get the angles of the counts [count], [count + 1], ... *)
Lemma distribute_even (n : nat) (b gap : Q) (p : option Q) (d : nat) :
  forall (fuel index : nat) (count : Z) (a : list (option Q)),
    (index + d = n)%nat -> (0 < index)%nat -> (0 < d)%nat -> (d <= fuel)%nat ->
    exists a',
      distribute fuel n b gap p 0 index count false a = Some a' /\
      forall j,
        Arr.get a' j =
        if (index <=? j)%nat && (j <? n)%nat
        then Some (Num.rem (b + gap * ofZ (count + Z.of_nat (j - index))) 360)
        else Arr.get a j.
Proof.
  induction d as [|d IH]; intros fuel index count a Hd Hi Hpos Hf; [lia|].
  destruct fuel as [|fuel]; [lia|].
  cbn [distribute].
  replace (index =? 0)%nat with false by (symmetry; apply Nat.eqb_neq; lia).
  cbn [andb]. rewrite next_index by lia.
  destruct (Nat.eqb_spec (index + 1) n) as [En|En].
  - eexists. split.
    + destruct fuel; reflexivity.
    + intro j. destruct (Nat.eq_dec j index) as [->|Hne].
      * rewrite get_set_eq.
        replace (index <=? index)%nat with true
          by (symmetry; apply Nat.leb_le; lia).
        replace (index <? n)%nat with true
          by (symmetry; apply Nat.ltb_lt; lia).
        rewrite Nat.sub_diag, Z.add_0_r. reflexivity.
      * rewrite get_set_neq by exact Hne.
        destruct (Nat.leb_spec index j); destruct (Nat.ltb_spec j n);
          try reflexivity; lia.
  - destruct (IH fuel (index + 1)%nat (count + 1)%Z
                (Arr.set a index (Num.rem (b + gap * ofZ count) 360)))
      as (a' & Hrun & Hget); try lia.
    exists a'. split; [exact Hrun|]. intro j. rewrite Hget.
    destruct (Nat.eq_dec j index) as [->|Hne].
    + replace (index + 1 <=? index)%nat with false
        by (symmetry; apply Nat.leb_gt; lia).
      replace (index <=? index)%nat with true
        by (symmetry; apply Nat.leb_le; lia).
      replace (index <? n)%nat with true by (symmetry; apply Nat.ltb_lt; lia).
      cbn [andb]. rewrite get_set_eq, Nat.sub_diag, Z.add_0_r. reflexivity.
    + destruct (Nat.leb_spec (index + 1) j); destruct (Nat.leb_spec index j);
        try lia; cbn [andb].
      * destruct (j <? n)%nat; [|apply get_set_neq; exact Hne].
        replace (count + 1 + Z.of_nat (j - (index + 1)))%Z
          with (count + Z.of_nat (j - index))%Z by lia.
        reflexivity.
      * apply get_set_neq. exact Hne.
Qed.

Lemma ofZ_nat_pos (n : nat) : (0 < n)%nat -> 0 < ofZ (Z.of_nat n).
Proof.
  intro H. unfold ofZ. change 0 with (inject_Z 0). rewrite <- Zlt_Qlt. lia.
Qed.

Lemma ofZ_nat_lt (i n : nat) :
  (i < n)%nat -> ofZ (Z.of_nat i) < ofZ (Z.of_nat n).
Proof. intro H. unfold ofZ. rewrite <- Zlt_Qlt. lia. Qed.

Lemma ofZ_nat_nonneg (i : nat) : 0 <= ofZ (Z.of_nat i).
Proof. unfold ofZ. change 0 with (inject_Z 0). rewrite <- Zle_Qle. lia. Qed.

(** The even step of [i] out of [n] is an angle in range. *)
Lemma even_step_range (i n : nat) :
  (i < n)%nat ->
  0 <= 360 / ofZ (Z.of_nat n) * ofZ (Z.of_nat i) /\
  360 / ofZ (Z.of_nat n) * ofZ (Z.of_nat i) < 360.
Proof.
  intro Hi.
  pose proof (ofZ_nat_pos n ltac:(lia)) as Hn.
  pose proof (ofZ_nat_lt i n Hi) as Hlt.
  pose proof (ofZ_nat_nonneg i) as H0.
  set (x := ofZ (Z.of_nat i)) in *. set (y := ofZ (Z.of_nat n)) in *.
  assert (E : 360 / y * x == 360 * (x / y)) by (field; lra).
  assert (Hq0 : 0 <= x / y) by (apply Qle_shift_div_l; lra).
  assert (Hq1 : x / y < 1) by (apply Qlt_shift_div_r; lra).
  split; lra.
Qed.

(** X1.  When no item has a fixed angle (the [angle] property is
    absent or negative) and there is no parent, the N items are spread
    evenly from the top: item [i] gets the angle [i * 360 / N]. *)
Theorem computeItemAngles_even (items : list Item) :
  Forall isFree items ->
  exists out,
    computeItemAngles items None = Some out /\
    length out = length items /\
    forall i, (i < length items)%nat ->
      exists v, nth_error out i = Some (Some v) /\
                v == 360 / ofZ (Z.of_nat (length items)) * ofZ (Z.of_nat i).
Proof.
  intro Hfree.
  destruct (computeItemAngles_ok items None) as (out & Hrun & Hfull & _).
  exists out. split; [exact Hrun|]. split; [apply Hfull|].
  destruct items as [|item items]; [intros i Hi; simpl in Hi; lia|].
  set (n := length (item :: items)) in *.
  assert (Hn : (0 < n)%nat) by (unfold n; simpl; lia).
  unfold computeItemAngles in Hrun. fold n in Hrun.
  rewrite fixedAnglesOf_allFree in Hrun by exact Hfree.
  unfold layout in Hrun. cbn [firstAngleOf length wedgeLoop] in Hrun.
  unfold wedgeStep in Hrun. cbn [length nth_error fst snd Nat.add] in Hrun.
  replace (1 mod 1)%nat with 0%nat in Hrun by reflexivity.
  cbn [nth_error bind fangle findex] in Hrun.
  replace (Num.leb 0 0) with true in Hrun by reflexivity.
  replace (Z.rem (Z.of_nat 0 - Z.of_nat 0 - 1 + Z.of_nat n) (Z.of_nat n))
    with (Z.of_nat n - 1)%Z in Hrun
    by (symmetry; replace (Z.of_nat 0 - Z.of_nat 0 - 1 + Z.of_nat n)%Z
          with (Z.of_nat n - 1)%Z by lia; apply Z.rem_small; lia).
  replace (Z.of_nat n - 1 + 1)%Z with (Z.of_nat n) in Hrun by lia.
  set (gap := (0 + 360 - 0) / ofZ (Z.of_nat n)) in Hrun.
  assert (Hgap : gap == 360 / ofZ (Z.of_nat n)).
  { unfold gap. pose proof (ofZ_nat_pos n Hn). field. lra. }
  assert (Hvalue : forall i, (i < n)%nat ->
            Num.rem (0 + gap * ofZ (Z.of_nat i)) 360
            == 360 / ofZ (Z.of_nat n) * ofZ (Z.of_nat i)).
  { intros i Hi. destruct (even_step_range i n Hi) as [H0 H1].
    rewrite rem_small; rewrite ?Hgap; lra. }
  assert (Hget : forall i, (i < n)%nat ->
            exists v, Arr.get out i = Some v /\
                      v == 360 / ofZ (Z.of_nat n) * ofZ (Z.of_nat i)).
  { rewrite (next_index n 0 Hn) in Hrun.
    destruct (Nat.eqb_spec (0 + 1) n) as [E1|E1].
    - (* one item *)
      destruct n as [|[|n']]; try lia.
      cbn [distribute Nat.eqb bind snd] in Hrun. injection Hrun as <-.
      intros i Hi. replace i with 0%nat by lia.
      exists 0. split; [reflexivity|].
      change (ofZ (Z.of_nat 0)) with 0. rewrite Qmult_0_r. reflexivity.
    - destruct (distribute_even n 0 gap None (n - 1) n (0 + 1)%nat 1%Z
                  (Arr.set (Arr.set [] 0 0) 0 0))
        as (a' & Hd & Hval); try lia.
      rewrite Hd in Hrun. cbn [bind snd] in Hrun. injection Hrun as <-.
      intros i Hi. rewrite Hval.
      destruct i as [|i].
      + cbn [Nat.leb andb]. exists 0. split; [reflexivity|].
        change (ofZ (Z.of_nat 0)) with 0. rewrite Qmult_0_r. reflexivity.
      + replace (0 + 1 <=? S i)%nat with true
          by (symmetry; apply Nat.leb_le; lia).
        replace (S i <? n)%nat with true by (symmetry; apply Nat.ltb_lt; lia).
        cbn [andb]. eexists. split; [reflexivity|].
        replace (1 + Z.of_nat (S i - (0 + 1)))%Z with (Z.of_nat (S i)) by lia.
        apply Hvalue. exact Hi. }
  intros i Hi. destruct (Hget i Hi) as (v & Hv & Ev).
  exists v. split; [apply get_nth_error; exact Hv|exact Ev].
Qed.

Lemma computeItemAngles_even_witness :
  exists out,
    computeItemAngles [free; free; free; free] None = Some out /\
    length out = 4%nat /\
    forall i, (i < 4)%nat ->
      exists v, nth_error out i = Some (Some v) /\
                v == 360 / ofZ (Z.of_nat 4) * ofZ (Z.of_nat i).
Proof.
  apply (computeItemAngles_even [free; free; free; free]).
  repeat constructor.
Defined.

(** ** The pruning of the fixed angles *)

Lemma pruneFrom_cons (rest : list FixedAngle) :
  forall cur, exists tl, pruneFrom cur rest = cur :: tl.
Proof.
  induction rest as [|next rest IH]; intro cur; simpl.
  - exists []. reflexivity.
  - destruct (Num.ltb (fangle next) (fangle cur)); [apply IH|].
    eexists. reflexivity.
Qed.

Lemma pruneFrom_angles_sorted (rest : list FixedAngle) :
  forall cur, Sorted angleLe (pruneFrom cur rest).
Proof.
  induction rest as [|next rest IH]; intro cur; simpl.
  - repeat constructor.
  - destruct (Num.ltb (fangle next) (fangle cur)) eqn:E; [apply IH|].
    constructor; [apply IH|].
    destruct (pruneFrom_cons rest next) as (tl & ->).
    constructor. apply ltb_ge in E. exact E.
Qed.

Lemma pruneFrom_sorted_id (rest : list FixedAngle) :
  forall cur, Sorted angleLe (cur :: rest) -> pruneFrom cur rest = cur :: rest.
Proof.
  induction rest as [|next rest IH]; intros cur H; simpl; [reflexivity|].
  inversion H as [|? ? Hs Hd]; subst. inversion Hd as [|? ? Hle]; subst.
  apply ltb_ge in Hle. rewrite Hle. f_equal. apply IH. exact Hs.
Qed.

Lemma angleLe_trans : Relations_1.Transitive angleLe.
Proof. intros f g h Hfg Hgh. unfold angleLe in *. lra. Qed.

(** X2.  When the pruning loop is done, the fixed angles do not
    decrease from one entry to the next; the loop leaves a list that
    does not decrease as it is, and so a second run of the loop changes
    nothing. *)
Theorem prune_monotone (fixedAngles : list FixedAngle) :
  StronglySorted angleLe (prune fixedAngles) /\
  (Sorted angleLe fixedAngles -> prune fixedAngles = fixedAngles) /\
  prune (prune fixedAngles) = prune fixedAngles.
Proof.
  assert (Hs : forall l, Sorted angleLe (prune l)).
  { intros [|f l]; [constructor|apply pruneFrom_angles_sorted]. }
  assert (Hid : forall l, Sorted angleLe l -> prune l = l).
  { intros [|f l] H; [reflexivity|apply pruneFrom_sorted_id; exact H]. }
  split; [|split].
  - apply Sorted_StronglySorted; [exact angleLe_trans|apply Hs].
  - apply Hid.
  - apply Hid. apply Hs.
Qed.

(** An entry that no earlier entry exceeds survives the pruning. *)
Lemma pruneFrom_keeps (A B : list FixedAngle) (x : FixedAngle) :
  forall cur,
    fangle cur <= fangle x -> Forall (fun y => fangle y <= fangle x) A ->
    In x (pruneFrom cur (A ++ x :: B)).
Proof.
  induction A as [|y A IH]; intros cur Hcur HA; simpl.
  - apply ltb_ge in Hcur. rewrite Hcur. right. apply pruneFrom_head.
  - inversion HA as [|? ? Hy HA']; subst.
    destruct (Num.ltb (fangle y) (fangle cur)).
    + apply IH; assumption.
    + right. apply IH; assumption.
Qed.

Lemma prune_keeps (A B : list FixedAngle) (x : FixedAngle) :
  Forall (fun y => fangle y <= fangle x) A -> In x (prune (A ++ x :: B)).
Proof.
  intro HA. destruct A as [|y A]; simpl.
  - apply pruneFrom_head.
  - inversion HA; subst. apply pruneFrom_keeps; assumption.
Qed.

(** The entry of item [i] is among the fixed angles after the pruning
    when every earlier item with an angle that is not negative has one
    that is below 360, clear of the parent and at most the angle of
    item [i]. *)
Lemma fixed_angle_kept (items : list Item) (p : option Q) (i : nat) (a : Q) :
  nth_error items i = Some (mkItem (Some a)) ->
  0 <= a -> a < 360 -> clearOfParent p a ->
  (forall j b, (j < i)%nat -> nth_error items j = Some (mkItem (Some b)) ->
               0 <= b -> b < 360 /\ clearOfParent p b /\ b <= a) ->
  In (mkFixed (Num.rem a 360) i) (fixedAnglesOf items p).
Proof.
  intros Hnth Ha0 Ha1 Hclear Hbefore.
  destruct (nth_error_split _ _ Hnth) as (l1 & l2 & -> & Hlen).
  unfold fixedAnglesOf. rewrite collectFixed_app. simpl.
  apply leb_le in Ha0. rewrite Ha0. apply leb_le in Ha0.
  rewrite Hlen, !map_app. simpl.
  rewrite (nudge_none p (mkFixed a i)) by exact Hclear.
  unfold normalize at 2. cbn [fangle findex].
  apply prune_keeps.
  rewrite !Forall_map. apply Forall_forall. intros f Hf. cbn [fangle].
  destruct (collectFixed_spec _ _ _ Hf) as (_ & Hf1 & Hf2).
  rewrite Nat.sub_0_r in Hf1.
  assert (Hlt : (findex f < i)%nat).
  { rewrite <- Hlen. apply nth_error_Some. congruence. }
  assert (Hf1' : nth_error (l1 ++ mkItem (Some a) :: l2) (findex f)
                 = Some (mkItem (Some (fangle f)))).
  { rewrite nth_error_app1 by lia. exact Hf1. }
  destruct (Hbefore _ _ Hlt Hf1' Hf2) as (Hb1 & Hbc & Hba).
  rewrite (nudge_none p f) by exact Hbc.
  rewrite (rem_small (fangle f)) by assumption.
  rewrite (rem_small a) by assumption. exact Hba.
Qed.

(** X3.  The fixed angle of an item is honoured when no earlier item
    has a larger one: if item [i] has the angle [a] of the interval
    from 0 to 360, clear of the parent angle, and every earlier item
    with an angle that is not negative has one that is below 360, clear
    of the parent and at most [a], then item [i] gets the angle [a]. *)
Theorem fixed_angle_honoured (items : list Item) (parentAngle : option Q)
    (i : nat) (a : Q) :
  nth_error items i = Some (mkItem (Some a)) ->
  0 <= a -> a < 360 -> clearOfParent parentAngle a ->
  (forall j b, (j < i)%nat -> nth_error items j = Some (mkItem (Some b)) ->
               0 <= b -> b < 360 /\ clearOfParent parentAngle b /\ b <= a) ->
  exists out v,
    computeItemAngles items parentAngle = Some out /\
    nth_error out i = Some (Some v) /\ v == a.
Proof.
  intros Hnth Ha0 Ha1 Hclear Hbefore.
  destruct (computeItemAngles_ok items parentAngle)
    as (out & Hrun & _ & _ & Hfix).
  exists out, (Num.rem a 360). split; [exact Hrun|]. split.
  - apply get_nth_error.
    apply (Hfix _ (fixed_angle_kept items parentAngle i a
                     Hnth Ha0 Ha1 Hclear Hbefore)).
  - apply rem_small; assumption.
Qed.

Lemma fixed_angle_honoured_witness :
  exists out v,
    computeItemAngles [fixedAt 10; free; fixedAt 200] None = Some out /\
    nth_error out 2 = Some (Some v) /\ v == 200.
Proof.
  apply (fixed_angle_honoured [fixedAt 10; free; fixedAt 200] None 2 200).
  - reflexivity.
  - unfold Qle. simpl. lia.
  - unfold Qlt. simpl. lia.
  - intros q H. discriminate H.
  - intros j b Hj Hb Hb0.
    destruct j as [|[|j]]; simpl in Hb; try discriminate; try lia.
    injection Hb as <-.
    split; [unfold Qlt; simpl; lia|].
    split; [intros q H; discriminate H|unfold Qle; simpl; lia].
Defined.

Lemma nth_error_map_fixedAt (angles : list Q) (i : nat) (b : Q) :
  nth_error (map fixedAt angles) i = Some (mkItem (Some b)) ->
  nth_error angles i = Some b.
Proof.
  rewrite nth_error_map. destruct (nth_error angles i) as [c|]; simpl;
    [|discriminate].
  intros [= ->]. reflexivity.
Qed.

Lemma holdsAngles_nth (out : list (option Q)) (expected : list Q) :
  length out = length expected ->
  (forall i a, nth_error expected i = Some a ->
               exists v, nth_error out i = Some (Some v) /\ v == a) ->
  holdsAngles out expected.
Proof.
  revert expected. induction out as [|slot out IH]; intros [|a expected] Hlen H;
    simpl in Hlen; try lia.
  - constructor.
  - constructor.
    + destruct (H 0%nat a eq_refl) as (v & Hv & E). simpl in Hv.
      exists v. split; [congruence|exact E].
    + apply IH; [lia|]. intros i b Hb. apply (H (S i) b Hb).
Qed.

(** X4.  When every item has a fixed angle of the interval from 0 to
    360, clear of the parent angle, and the angles do not decrease along
    the list, [computeItemAngles] returns the angles as they are. *)
Theorem computeItemAngles_all_fixed (angles : list Q) (parentAngle : option Q) :
  Forall angleInRange angles ->
  Forall (clearOfParent parentAngle) angles ->
  StronglySorted Qle angles ->
  exists out,
    computeItemAngles (map fixedAt angles) parentAngle = Some out /\
    holdsAngles out angles.
Proof.
  intros Hrange Hclear Hsorted.
  destruct (computeItemAngles_ok (map fixedAt angles) parentAngle)
    as (out & Hrun & Hfull & _ & Hfix).
  exists out. split; [exact Hrun|].
  rewrite Forall_forall in Hrange, Hclear.
  apply holdsAngles_nth.
  - destruct Hfull as [-> _]. apply length_map.
  - intros i a Ha.
    assert (Hi : (i < length angles)%nat) by (apply nth_error_Some; congruence).
    destruct (Hrange a (nth_error_In _ _ Ha)) as [Ha0 Ha1].
    exists (Num.rem a 360). split; [|apply rem_small; assumption].
    apply get_nth_error.
    apply (Hfix (mkFixed (Num.rem a 360) i)).
    apply fixed_angle_kept; try assumption.
    + rewrite nth_error_map, Ha. reflexivity.
    + apply Hclear. apply (nth_error_In _ _ Ha).
    + intros j b Hj Hb _. apply nth_error_map_fixedAt in Hb.
      destruct (Hrange b (nth_error_In _ _ Hb)) as [_ Hb1].
      split; [exact Hb1|]. split; [apply Hclear; apply (nth_error_In _ _ Hb)|].
      pose proof (strongly_sorted_nth Qle angles 0 Hsorted j i Hj Hi) as Hle.
      rewrite (nth_error_nth _ _ 0 Hb), (nth_error_nth _ _ 0 Ha) in Hle.
      exact Hle.
Qed.

Lemma computeItemAngles_all_fixed_witness :
  exists out,
    computeItemAngles (map fixedAt [10; 10; 200]) (Some 90) = Some out /\
    holdsAngles out [10; 10; 200].
Proof.
  apply (computeItemAngles_all_fixed [10; 10; 200] (Some 90)).
  - repeat constructor; unfold Qle, Qlt; simpl; lia.
  - repeat constructor; intros q [= <-]; vm_compute; discriminate.
  - repeat constructor; unfold Qle; simpl; lia.
Defined.

(** * Further properties of computeItemAnglesDnD *)

Lemma firstn_length_app {A : Type} (l1 l2 : list A) :
  firstn (length l1) (l1 ++ l2) = l1.
Proof. induction l1 as [|x l1 IH]; simpl; [destruct l2|rewrite IH]; reflexivity. Qed.

Lemma skipn_length_app {A : Type} (l1 l2 : list A) :
  skipn (length l1) (l1 ++ l2) = l2.
Proof. induction l1 as [|x l1 IH]; simpl; [reflexivity|exact IH]. Qed.

Lemma reinsert_removed {A : Type} (l : list A) (k : nat) (x : A) :
  nth_error l k = Some x ->
  l = firstn k (firstn k l ++ skipn (S k) l) ++
      x :: skipn k (firstn k l ++ skipn (S k) l).
Proof.
  intro H. destruct (nth_error_split _ _ H) as (l1 & l2 & -> & <-).
  rewrite firstn_length_app.
  replace (skipn (S (length l1)) (l1 ++ x :: l2)) with l2.
  - rewrite firstn_length_app, skipn_length_app. reflexivity.
  - replace (l1 ++ x :: l2) with ((l1 ++ [x]) ++ l2)
      by (rewrite <- app_assoc; reflexivity).
    replace (S (length l1)) with (length (l1 ++ [x]))
      by (rewrite length_app; simpl; lia).
    rewrite skipn_length_app. reflexivity.
Qed.

(** X5.  With a drop index [d] from 0 to N, the drag-and-drop variant
    computes the angles of the list with a free item put in at [d] and
    takes the angle of that item out again: it returns N angles and a
    drop angle of the interval from 0 to 360, and the N angles with the
    drop angle put back in at [d] are what [computeItemAngles] returns
    for the longer list. *)
Theorem computeItemAnglesDnD_gap (items : list Item) (parentAngle : option Q)
    (d : Z) :
  (0 <= d <= Z.of_nat (length items))%Z ->
  exists kept a,
    computeItemAnglesDnD items parentAngle (Some d) =
      Some (mkDnD kept (DropAt (Some a))) /\
    length kept = length items /\ (0 <= a /\ a < 360) /\
    computeItemAngles
      (firstn (Z.to_nat d) items ++ free :: skipn (Z.to_nat d) items)
      parentAngle =
      Some (firstn (Z.to_nat d) kept ++ Some a :: skipn (Z.to_nat d) kept).
Proof.
  intro Hd.
  destruct (computeItemAnglesDnD_drop items parentAngle d Hd)
    as (out & kept & a & Hrun & Hdnd & Hget & Ha).
  exists kept, a. split; [exact Hdnd|].
  set (k := Z.to_nat d) in *.
  destruct (computeItemAngles_ok (firstn k items ++ free :: skipn k items)
              parentAngle) as (out' & Hrun' & [Hlen _] & _).
  assert (out' = out) by congruence. subst out'.
  rewrite length_insert in Hlen.
  assert (Hkept : kept = firstn k out ++ skipn (S k) out).
  { unfold computeItemAnglesDnD, spliceInsert in Hdnd.
    rewrite spliceStart_inside in Hdnd by exact Hd. fold k free in Hdnd.
    rewrite Hrun in Hdnd. cbn [bind] in Hdnd. unfold spliceRemove in Hdnd.
    rewrite spliceStart_inside in Hdnd by lia. fold k in Hdnd.
    injection Hdnd as Hk _. symmetry. exact Hk. }
  split; [|split; [exact Ha|]].
  - rewrite Hkept, length_app, length_firstn, length_skipn. lia.
  - rewrite Hrun, Hkept. f_equal. apply reinsert_removed.
    apply get_nth_error. exact Hget.
Qed.

Lemma computeItemAnglesDnD_gap_witness :
  exists kept a,
    computeItemAnglesDnD [free; fixedAt 90] (Some 270) (Some 1%Z) =
      Some (mkDnD kept (DropAt (Some a))) /\
    length kept = 2%nat /\ (0 <= a /\ a < 360) /\
    computeItemAngles
      (firstn (Z.to_nat 1) [free; fixedAt 90] ++
       free :: skipn (Z.to_nat 1) [free; fixedAt 90])
      (Some 270) =
      Some (firstn (Z.to_nat 1) kept ++ Some a :: skipn (Z.to_nat 1) kept).
Proof.
  apply (computeItemAnglesDnD_gap [free; fixedAt 90] (Some 270) 1%Z).
  simpl. lia.
Defined.

(** X6.  With a drop index above N the free item is put in at the end
    of the list, but the splice that should take its angle out again
    starts behind the last angle and removes nothing: the result holds
    N + 1 angles, those of the list with the free item at its end, and
    the drop angle is undefined. *)
Theorem computeItemAnglesDnD_past_end (items : list Item)
    (parentAngle : option Q) (d : Z) :
  (Z.of_nat (length items) < d)%Z ->
  exists out,
    computeItemAngles (items ++ [free]) parentAngle = Some out /\
    length out = S (length items) /\
    computeItemAnglesDnD items parentAngle (Some d) =
      Some (mkDnD out (DropAt None)).
Proof.
  intro Hd.
  destruct (computeItemAngles_ok (items ++ [free]) parentAngle)
    as (out & Hrun & [Hlen _] & _).
  rewrite length_app in Hlen. simpl in Hlen.
  exists out. split; [exact Hrun|]. split; [lia|].
  unfold computeItemAnglesDnD, spliceInsert, spliceStart.
  destruct (Z.ltb_spec d 0) as [Hneg|_]; [lia|].
  rewrite Z.min_r, Nat2Z.id by lia.
  rewrite firstn_all, skipn_all. fold free. rewrite Hrun. cbn [bind].
  unfold spliceRemove, spliceStart.
  destruct (Z.ltb_spec d 0) as [Hneg|_]; [lia|].
  rewrite Z.min_r, Nat2Z.id by lia.
  rewrite firstn_all, !skipn_all2 by lia.
  rewrite app_nil_r. reflexivity.
Qed.

Lemma computeItemAnglesDnD_past_end_witness :
  exists out,
    computeItemAngles ([free; free] ++ [free]) None = Some out /\
    length out = 3%nat /\
    computeItemAnglesDnD [free; free] None (Some 3%Z) =
      Some (mkDnD out (DropAt None)).
Proof.
  apply (computeItemAnglesDnD_past_end [free; free] None 3%Z). simpl. lia.
Defined.

(** X7.  A negative drop index counts from the end of the array, and
    the array of the angles is one longer than the array of the items:
    with a drop index [d] from [-N] to [-1] the free item is put in at
    [N + d], but the angle that is taken out again is that of the place
    behind it.  The angle of the free item stays among the angles that
    are returned, and the drop angle is the angle of the item that
    follows the gap. *)
Theorem computeItemAnglesDnD_negative (items : list Item)
    (parentAngle : option Q) (d : Z) :
  (- Z.of_nat (length items) <= d < 0)%Z ->
  let k := Z.to_nat (Z.of_nat (length items) + d) in
  exists out a,
    computeItemAngles (firstn k items ++ free :: skipn k items) parentAngle
      = Some out /\
    nth_error out (S k) = Some (Some a) /\
    computeItemAnglesDnD items parentAngle (Some d) =
      Some (mkDnD (firstn (S k) out ++ skipn (S (S k)) out) (DropAt (Some a))).
Proof.
  intros Hd k.
  destruct (computeItemAngles_ok (firstn k items ++ free :: skipn k items)
              parentAngle) as (out & Hrun & Hfull & _).
  rewrite length_insert in Hfull.
  assert (Hk : (S k < S (length items))%nat) by (unfold k; lia).
  destruct (full_nth_error _ _ _ Hfull Hk) as (a & Ha).
  exists out, a. split; [exact Hrun|]. split; [exact Ha|].
  unfold computeItemAnglesDnD, spliceInsert, spliceStart.
  destruct (Z.ltb_spec d 0) as [_|Hpos]; [|lia].
  rewrite Z.max_l by lia. fold k. fold free. rewrite Hrun. cbn [bind].
  unfold spliceRemove, spliceStart.
  destruct (Z.ltb_spec d 0) as [_|Hpos]; [|lia].
  destruct Hfull as [Hlen _]. rewrite Hlen.
  replace (Z.to_nat (Z.max (Z.of_nat (S (length items)) + d) 0)) with (S k)
    by (unfold k; lia).
  rewrite get_removed. apply get_nth_error in Ha. rewrite Ha. reflexivity.
Qed.

Lemma computeItemAnglesDnD_negative_witness :
  exists out a,
    computeItemAngles [free; free; fixedAt 90] None = Some out /\
    nth_error out 2 = Some (Some a) /\
    computeItemAnglesDnD [free; fixedAt 90] None (Some (-1)%Z) =
      Some (mkDnD (firstn 2 out ++ skipn 3 out) (DropAt (Some a))).
Proof.
  apply (computeItemAnglesDnD_negative [free; fixedAt 90] None (-1)%Z).
  simpl. lia.
Defined.

(** * Further properties of computeItemWedges *)

Lemma nodupA_permutation (l l' : list Q) :
  Permutation l l' -> NoDupA Qeq l -> NoDupA Qeq l'.
Proof.
  intro H. induction H as [|x l l' Hp IH|x y l|l l' l'' H1 IH1 H2 IH2];
    intro Hnd.
  - exact Hnd.
  - inversion Hnd as [|? ? Hx Hl]; subst. constructor; [|apply IH; exact Hl].
    intro Hin. apply Hx. apply InA_alt in Hin. destruct Hin as (z & Hxz & Hz).
    apply InA_alt. exists z. split; [exact Hxz|].
    apply (Permutation_in _ (Permutation_sym Hp) Hz).
  - inversion Hnd as [|? ? Hy Hl]; subst.
    inversion Hl as [|? ? Hx Hl']; subst.
    constructor; [|constructor; [|exact Hl']].
    + intro Hin. inversion Hin as [? ? E|? ? Hin']; subst.
      * apply Hy. left. symmetry. exact E.
      * apply Hx. exact Hin'.
    + intro Hin. apply Hy. right. exact Hin.
  - apply IH2. apply IH1. exact Hnd.
Qed.

(** When no angle is repeated, an angle lies strictly inside its
    sector. *)
Lemma sector_strict (angles : list Q) (x : Q) :
  angles <> [] -> Forall angleInRange angles -> NoDupA Qeq angles ->
  In x angles ->
  exists s e,
    wedgeOf (separatorsOf (sortAngles angles)) x = mkWedge (Some s) (Some e) /\
    s < x /\ x < e.
Proof.
  intros Hne Hrange Hnd Hin.
  destruct (sector_of_angle angles Hne Hrange x Hin)
    as (j & Hj & _ & Hw & Hlo & Hhi).
  exists (sectorChain (sortAngles angles) j),
    (sectorChain (sortAngles angles) (S j)).
  split; [exact Hw|]. split; [|exact Hhi].
  pose proof (sorted_pos angles Hne Hrange) as Hm.
  apply (sorted_in angles) in Hin.
  destruct (In_nth _ _ 0 Hin) as (u & Hu & Hx). subst x.
  pose proof (sector_one_angle angles j u Hj Hu Hlo Hhi) as Euj.
  destruct j as [|j].
  - cbn [sectorChain]. rewrite (sep_last angles).
    pose proof (sorted_range angles Hrange 0 Hm) as R0.
    pose proof (sorted_range angles Hrange
                  (length (sortAngles angles) - 1) ltac:(lia)) as Rm.
    pose proof (sorted_le angles 0 u ltac:(lia) Hu).
    cbv beta in *. halves. lra.
  - cbn [sectorChain]. rewrite (sep_inner angles j) by lia.
    replace (j + 1)%nat with (S j) by lia.
    pose proof (sorted_le angles j (S j) ltac:(lia) Hj) as Hle.
    cbv beta in Hle.
    assert (Hneq : ~ nth j (sortAngles angles) 0 == nth (S j) (sortAngles angles) 0).
    { intro E.
      assert (Hj' : (j < length (sortAngles angles))%nat) by lia.
      pose proof (nodupA_nth_error (sortAngles angles)
               (nodupA_permutation _ _ (sortAngles_perm angles) Hnd)
               j (S j) _ _
               (nth_error_nth' (sortAngles angles) 0 Hj')
               (nth_error_nth' (sortAngles angles) 0 Hj) E).
      lia. }
    assert (Hlt : nth j (sortAngles angles) 0 < nth (S j) (sortAngles angles) 0).
    { destruct (Qlt_le_dec (nth j (sortAngles angles) 0)
                  (nth (S j) (sortAngles angles) 0)) as [H|H]; [exact H|].
      exfalso. apply Hneq. apply Qle_antisym; assumption. }
    cbv beta in *. halves. lra.
Qed.

Lemma anglesWith_nodup_items (itemAngles : list Q) (parentAngle : option Q) :
  NoDupA Qeq (anglesWith itemAngles parentAngle) -> NoDupA Qeq itemAngles.
Proof.
  destruct parentAngle as [p|]; simpl; [|trivial].
  intro H. apply NoDupA_split in H. rewrite app_nil_r in H. exact H.
Qed.

Lemma anglesWith_parent_range (itemAngles : list Q) (parentAngle : option Q) :
  Forall angleInRange (anglesWith itemAngles parentAngle) ->
  Forall angleInRange itemAngles /\
  forall p, parentAngle = Some p -> angleInRange p.
Proof.
  destruct parentAngle as [p|]; simpl.
  - intro H. apply Forall_app in H. destruct H as [Hi Hp]. split; [exact Hi|].
    intros q [= <-]. inversion Hp. assumption.
  - intro H. split; [exact H|]. intros p Hp. discriminate Hp.
Qed.


(** On exact numbers: when the item angles and the parent angle are all of the
    interval from 0 to 360 and no two of them are equal, the test of
    the pointer against the wedges finds every item at its own angle:
    the wedge of item [i] holds the angle of item [i], and no other
    wedge does. *)
Lemma wedge_holds_own_angle_exact (itemAngles : list Q) (parentAngle : option Q)
    (i : nat) (a : Q) :
  Forall angleInRange (anglesWith itemAngles parentAngle) ->
  NoDupA Qeq (anglesWith itemAngles parentAngle) ->
  nth_error itemAngles i = Some a ->
  holdsAt (computeItemWedges itemAngles parentAngle) i a /\
  forall j, holdsAt (computeItemWedges itemAngles parentAngle) j a -> j = i.
Proof.
  intros Hrange Hnd Ha.
  assert (Hne : itemAngles <> []) by (destruct itemAngles, i; discriminate).
  destruct (anglesWith_parent_range _ _ Hrange) as [Hri Hrp].
  pose proof (anglesWith_nodup_items _ _ Hnd) as Hndi.
  assert (Hpart : wedgesPartition itemAngles parentAngle).
  { destruct parentAngle as [p|].
    - apply general_partition; try assumption. intro H. discriminate H.
    - destruct itemAngles as [|b [|c rest]].
      + congruence.
      + apply single_root_partition.
      + apply general_partition; try assumption. intros _. simpl. lia. }
  assert (Hown : holdsAt (computeItemWedges itemAngles parentAngle) i a).
  { destruct (Nat.le_gt_cases 2 (length itemAngles)) as [Htwo|Hone];
      [|destruct parentAngle as [p|]].
    3: { destruct itemAngles as [|b [|c rest]]; simpl in Hone; try lia;
           [congruence|].
         destruct i as [|[|i]]; simpl in Ha; try discriminate.
         injection Ha as ->. cbn [computeItemWedges].
         eexists. split; [reflexivity|]. unfold wedgeHolds. cbn [start end_].
         rewrite Forall_forall in Hri.
         destruct (Hri a (or_introl eq_refl)) as [H0 H1].
         apply isAngleBetween_iff.
         destruct (Qlt_le_dec 0 a); [left|right; right]; lra. }
    all: rewrite computeItemWedges_general
      by (try exact Hne; intros; try discriminate; lia).
    all: rewrite allAnglesOf_sort.
    all: destruct (sector_strict _ a (anglesWith_some _ _ Hne) Hrange Hnd
                     (anglesWith_incl _ _ a (nth_error_In _ _ Ha)))
           as (s & e & Hw & Hs & He).
    all: eexists; (split; [rewrite nth_error_map, Ha; reflexivity|]).
    all: rewrite Hw; unfold wedgeHolds; cbn [start end_].
    all: apply isAngleBetween_iff; left; lra. }
  split; [exact Hown|].
  intros j Hj. apply (wp_disjoint _ _ Hpart a j i Hj Hown).
Qed.







(** * Further properties of isAngleBetween and computeDropIndex *)

(** On exact numbers: for an angle of the interval from 0 to 360, a start that is
    not below -360 and an end below 720, [isAngleBetween] tests whether
    the angle, moved by any number of full turns, lies in the interval
    that is open at [start] and closed at [end]: the three turns that
    it tries are all that can hit this interval. *)
Lemma isAngleBetween_turns_exact (x s e : Q) :
  0 <= x -> x < 360 -> -360 <= s -> e < 720 ->
  (isAngleBetween x s e = true <->
   exists k : Z, s < x + 360 * inject_Z k /\ x + 360 * inject_Z k <= e).
Proof.
  intros Hx0 Hx1 Hs He. rewrite isAngleBetween_iff. split.
  - intros [H|[H|H]].
    + exists 0%Z. change (inject_Z 0) with 0. lra.
    + exists (-1)%Z. change (inject_Z (-1)) with (-1). lra.
    + exists 1%Z. change (inject_Z 1) with 1. lra.
  - intros (k & Hlo & Hhi).
    assert (Hk1 : inject_Z (-2) < inject_Z k)
      by (change (inject_Z (-2)) with (-2); lra).
    assert (Hk2 : inject_Z k < inject_Z 2)
      by (change (inject_Z 2) with 2; lra).
    rewrite <- Zlt_Qlt in Hk1, Hk2.
    assert (Hk : k = (-1)%Z \/ k = 0%Z \/ k = 1%Z) by lia.
    destruct Hk as [-> | [-> | ->]].
    + change (inject_Z (-1)) with (-1) in Hlo, Hhi. right. left. lra.
    + change (inject_Z 0) with 0 in Hlo, Hhi. left. lra.
    + change (inject_Z 1) with 1 in Hlo, Hhi. right. right. lra.
Qed.


(** ** The drop index of a sorted list of angles *)

Section DropIndex.

Variable l : list Q.
Hypothesis two : (2 <= length l)%nat.
Hypothesis sorted : StronglySorted Qlt l.
Hypothesis in_range : Forall angleInRange l.

Lemma ascending_nth (i j : nat) :
  (i < j)%nat -> (j < length l)%nat -> nth i l 0 < nth j l 0.
Proof. apply (strongly_sorted_nth Qlt l 0 sorted). Qed.

Lemma range_nth (i : nat) :
  (i < length l)%nat -> 0 <= nth i l 0 /\ nth i l 0 < 360.
Proof.
  intro Hi. rewrite Forall_forall in in_range. apply in_range.
  apply nth_In. exact Hi.
Qed.

(** The index of the zone that holds the pointer is what
    [computeDropIndex] returns. *)
Lemma computeDropIndex_zone (x : Q) (i : nat) :
  angleInRange x -> (i < length l)%nat ->
  isAngleBetween x (fst (dropZone l i)) (snd (dropZone l i)) = true ->
  computeDropIndex l x = Some i.
Proof.
  intros [Hx0 Hx1] Hi Hm.
  destruct (one_drop_zone l two ascending_nth range_nth x Hx0 Hx1)
    as (i0 & Hi0 & Hm0 & Huniq).
  assert (i = i0) by (apply Huniq; assumption). subst i0.
  destruct (dropLoop_first l x (length l) 0 i ltac:(lia) ltac:(lia) Hm)
    as (i' & Hrun & _ & Hle & Hm').
  assert (i' = i) by (apply Huniq; [lia|exact Hm']). subst i'.
  destruct l as [|a0 [|a1 rest]]; simpl in two; try lia. exact Hrun.
Qed.

(** Every zone is of the form that [dropZone_chain] describes. *)
Lemma zone_of_index (i : nat) :
  (i < length l)%nat ->
  exists j, (j < length l)%nat /\ i = ((j + 1) mod length l)%nat /\
            (i = 0%nat -> j = (length l - 1)%nat) /\
            (i <> 0%nat -> j = (i - 1)%nat).
Proof.
  intro Hi. destruct i as [|i].
  - exists (length l - 1)%nat. split; [lia|].
    replace (length l - 1 + 1)%nat with (length l) by lia.
    rewrite Nat.Div0.mod_same. repeat split; congruence.
  - exists i. split; [lia|].
    replace (i + 1)%nat with (S i) by lia.
    rewrite Nat.mod_small by lia. repeat split; try congruence. lia.
Qed.

Lemma zoneChain_inner (j : nat) :
  (j + 1 < length l)%nat ->
  zoneChain l j = (nth j l 0 + nth (j + 1) l 0) / 2.
Proof.
  intro Hj. unfold zoneChain.
  replace (j <? length l - 1)%nat with true
    by (symmetry; apply Nat.ltb_lt; lia).
  reflexivity.
Qed.

Lemma zoneChain_last :
  zoneChain l (length l - 1) =
  (nth (length l - 1) l 0 + nth 0 l 0 + 360) / 2.
Proof.
  unfold zoneChain. rewrite Nat.ltb_irrefl, Nat.eqb_refl. reflexivity.
Qed.

(** The zone of an item holds the angle of the item. *)
Lemma zone_holds_item (i : nat) :
  (i < length l)%nat ->
  isAngleBetween (nth i l 0) (fst (dropZone l i)) (snd (dropZone l i)) = true.
Proof.
  intro Hi. destruct (zone_of_index i Hi) as (j & Hj & Ei & Hz & Hnz).
  destruct (dropZone_chain l two ascending_nth range_nth j Hj) as [Hs He].
  rewrite <- Ei in Hs, He. apply isAngleBetween_iff. rewrite Hs, He.
  pose proof (range_nth 0 ltac:(lia)) as R0.
  pose proof (range_nth 1 ltac:(lia)) as R1.
  pose proof (range_nth (length l - 1) ltac:(lia)) as Rn.
  pose proof (ascending_nth 0 1 ltac:(lia) ltac:(lia)) as H01.
  destruct (Nat.eq_dec i 0) as [->|Hne].
  - rewrite (Hz eq_refl).
    replace (S (length l - 1)) with (length l) by lia.
    destruct (zoneChain_ends l two) as [_ En]. rewrite En, zoneChain_last.
    right. right. halves. lra.
  - rewrite (Hnz Hne). replace (S (i - 1)) with i by lia.
    rewrite (zoneChain_inner (i - 1)) by lia.
    replace (i - 1 + 1)%nat with i by lia.
    pose proof (ascending_nth (i - 1) i ltac:(lia) Hi) as Hprev.
    left. destruct (Nat.eq_dec i (length l - 1)) as [->|Hlast].
    + rewrite zoneChain_last. halves. lra.
    + rewrite (zoneChain_inner i) by lia.
      pose proof (ascending_nth i (i + 1) ltac:(lia) ltac:(lia)) as Hnext.
      halves. lra.
Qed.

End DropIndex.

(** On exact numbers: for two or more angles of the interval from 0 to 360, sorted
    ascending without a repeated angle, a pointer at the angle of
    item [i] gives the drop index [i]. *)
Lemma computeDropIndex_at_item_exact (l : list Q) (i : nat) :
  (2 <= length l)%nat -> StronglySorted Qlt l -> Forall angleInRange l ->
  (i < length l)%nat ->
  computeDropIndex l (nth i l 0) = Some i.
Proof.
  intros Htwo Hsorted Hrange Hi.
  apply computeDropIndex_zone; try assumption.
  - apply range_nth; assumption.
  - apply zone_holds_item; assumption.
Qed.


(** On exact numbers: for a single item and a pointer angle that is not below the
    angle of the item, both of the interval from 0 to 360, the drop
    index is 0 exactly when the pointer is less than 90 degrees away
    from the item, the shorter way around, and 1 otherwise. *)
Lemma computeDropIndex_single_above_exact (a x : Q) :
  angleInRange a -> angleInRange x -> a <= x ->
  computeDropIndex [a] x =
  Some (if Num.ltb (angularDistance x a) 90 then 0 else 1)%nat.
Proof.
  intros [Ha0 Ha1] [Hx0 Hx1] Hax. cbn [computeDropIndex].
  assert (Habs : Qabs (x - a) == x - a) by (apply Qabs_pos; lra).
  assert (Hdist : angularDistance x a < 90 <-> x - a < 90 \/ 270 < x - a).
  { unfold angularDistance, Num.min.
    destruct (Qle_bool (Qabs (x - a)) (360 - Qabs (x - a))) eqn:E.
    - apply Qle_bool_iff in E. rewrite Habs in *. split; [|intros [H|H]]; lra.
    - apply leb_gt in E. rewrite Habs in E. split; [|intros [H|H]]; lra. }
  destruct (Num.ltb (angularDistance x a) 90) eqn:Ed.
  - apply ltb_lt in Ed. apply Hdist in Ed.
    destruct Ed as [H|H]; apply ltb_lt in H; rewrite H;
      rewrite ?orb_true_r; reflexivity.
  - apply ltb_ge in Ed.
    assert (H1 : Num.ltb (x - a) 90 = false).
    { apply ltb_ge. destruct (Qlt_le_dec (x - a) 90) as [H|H]; [|exact H].
      exfalso. assert (angularDistance x a < 90) by (apply Hdist; left; exact H).
      lra. }
    assert (H2 : Num.ltb 270 (x - a) = false).
    { apply ltb_ge. destruct (Qlt_le_dec 270 (x - a)) as [H|H]; [|exact H].
      exfalso. assert (angularDistance x a < 90) by (apply Hdist; right; exact H).
      lra. }
    rewrite H1, H2. reflexivity.
Qed.


(** ** The drop index and the wedges *)

Lemma sortAngles_id (l : list Q) : StronglySorted Qlt l -> sortAngles l = l.
Proof.
  intro H. induction H as [|x l Hs IH Hf]; simpl; [reflexivity|].
  rewrite IH. destruct l as [|y r]; [reflexivity|]. simpl.
  inversion Hf as [|? ? Hxy _]; subst.
  assert (E : Num.leb x y = true) by (apply leb_le; lra).
  rewrite E. reflexivity.
Qed.

Lemma sorted_nodupA (l : list Q) : StronglySorted Qlt l -> NoDupA Qeq l.
Proof.
  intro H. induction H as [|x l Hs IH Hf]; constructor; [|exact IH].
  intro Hin. apply InA_alt in Hin. destruct Hin as (y & Exy & Hy).
  rewrite Forall_forall in Hf. specialize (Hf y Hy). lra.
Qed.

Section SortedWedges.

Variable l : list Q.
Hypothesis two : (2 <= length l)%nat.
Hypothesis sorted : StronglySorted Qlt l.
Hypothesis in_range : Forall angleInRange l.

Lemma sorted_some : l <> [].
Proof. destruct l; [simpl in two; lia|discriminate]. Qed.

Lemma sectorChain_succ (j : nat) :
  (j < length l)%nat -> sectorChain l (S j) = zoneChain l j.
Proof.
  intro Hj. cbn [sectorChain]. unfold separatorAt, zoneChain.
  destruct (Nat.eqb_spec j (length l - 1)) as [->|Hne].
  - rewrite Nat.ltb_irrefl. reflexivity.
  - replace (j <? length l - 1)%nat with true
      by (symmetry; apply Nat.ltb_lt; lia).
    reflexivity.
Qed.

Lemma sectorChain_zero : sectorChain l 0 = zoneChain l (length l - 1) - 360.
Proof.
  cbn [sectorChain]. unfold separatorAt, zoneChain.
  rewrite Nat.eqb_refl, Nat.ltb_irrefl. reflexivity.
Qed.

(** The wedge of item [i] of a sorted list is sector [i]. *)
Lemma wedge_of_sorted (i : nat) :
  (i < length l)%nat ->
  wedgeOf (separatorsOf l) (nth i l 0) =
  mkWedge (Some (sectorChain l i)) (Some (sectorChain l (S i))).
Proof.
  intro Hi.
  destruct (sector_of_angle l sorted_some in_range (nth i l 0)
              (nth_In l 0 Hi)) as (j & Hj & _ & Hw & Hlo & Hhi).
  pose proof (sector_one_angle l j i) as Hone.
  rewrite (sortAngles_id l sorted) in *.
  specialize (Hone Hj Hi Hlo Hhi).
  assert (i = j); [|subst j; exact Hw].
  destruct (Nat.lt_trichotomy i j) as [Hlt|[E|Hgt]]; [|exact E|].
  - pose proof (ascending_nth l sorted i j Hlt Hj). lra.
  - pose proof (ascending_nth l sorted j i Hgt Hi). lra.
Qed.

(** A pointer in the wedge of item [i] is in the drop zone of item
    [i]. *)
Lemma wedge_in_zone (x : Q) (i : nat) :
  angleInRange x -> (i < length l)%nat ->
  isAngleBetween x (sectorChain l i) (sectorChain l (S i)) = true ->
  isAngleBetween x (fst (dropZone l i)) (snd (dropZone l i)) = true.
Proof.
  intros [Hx0 Hx1] Hi Hw.
  destruct (zone_of_index l two i Hi) as (j & Hj & Ei & Hz & Hnz).
  destruct (dropZone_chain l two (ascending_nth l sorted)
              (range_nth l in_range) j Hj) as [Hs He].
  rewrite <- Ei in Hs, He.
  apply isAngleBetween_iff in Hw. apply isAngleBetween_iff. rewrite Hs, He.
  rewrite (sectorChain_succ i Hi) in Hw.
  destruct (Nat.eq_dec i 0) as [->|Hne].
  - rewrite (Hz eq_refl). rewrite sectorChain_zero in Hw.
    replace (S (length l - 1)) with (length l) by lia.
    destruct (zoneChain_ends l two) as [E0 En]. rewrite En. rewrite E0 in Hw.
    pose proof (range_nth l in_range 0 ltac:(lia)) as R0.
    pose proof (range_nth l in_range 1 ltac:(lia)) as R1.
    halves. destruct Hw as [Hk|[Hk|Hk]]; [right; right|left|]; lra.
  - rewrite (Hnz Hne). replace (S (i - 1)) with i by lia.
    assert (Esec : sectorChain l i = zoneChain l (i - 1)).
    { replace i with (S (i - 1)) at 1 by lia. apply sectorChain_succ. lia. }
    rewrite Esec in Hw. exact Hw.
Qed.

End SortedWedges.

(** On exact numbers: for two or more angles of the interval from 0 to 360, sorted
    ascending without a repeated angle, and no parent angle, the drop
    zones are the wedges: for a pointer angle of that interval,
    [computeDropIndex] returns [i] exactly when the wedge that
    [computeItemWedges] returns for item [i] holds the pointer. *)
Lemma computeDropIndex_wedge_exact (l : list Q) (x : Q) (i : nat) :
  (2 <= length l)%nat -> StronglySorted Qlt l -> Forall angleInRange l ->
  angleInRange x ->
  (computeDropIndex l x = Some i <-> holdsAt (computeItemWedges l None) i x).
Proof.
  intros Htwo Hsorted Hrange Hx.
  assert (Hne : l <> []) by (destruct l; [simpl in Htwo; lia|discriminate]).
  assert (Hws : computeItemWedges l None = map (wedgeOf (separatorsOf l)) l).
  { rewrite computeItemWedges_general by (try exact Hne; intros; lia).
    rewrite allAnglesOf_sort. simpl. rewrite sortAngles_id by exact Hsorted.
    reflexivity. }
  assert (Hback : forall i', holdsAt (computeItemWedges l None) i' x ->
                             computeDropIndex l x = Some i').
  { intros i' (w & Hw & Hxw). rewrite Hws, nth_error_map in Hw.
    destruct (nth_error l i') as [a|] eqn:Ea; [|discriminate].
    assert (Hi' : (i' < length l)%nat) by (apply nth_error_Some; congruence).
    injection Hw as <-.
    rewrite <- (nth_error_nth _ _ 0 Ea) in Hxw.
    rewrite (wedge_of_sorted l Htwo Hsorted Hrange i' Hi') in Hxw.
    apply computeDropIndex_zone; try assumption.
    apply wedge_in_zone; assumption. }
  split; [|apply Hback].
  intro Hdrop.
  pose proof (general_partition l None Hne (sorted_nodupA l Hsorted) Hrange
                ltac:(intros p H; discriminate H) ltac:(intros; lia))
    as Hpart.
  destruct (wp_cover_root _ _ Hpart eq_refl x Hx) as (i' & Hi').
  pose proof (Hback i' Hi') as Hdrop'.
  assert (i' = i) by congruence. subst i'. exact Hi'.
Qed.


(** * setupAngles *)

Lemma setupNode_unfold (a b : option Q) (cs : list Node) :
  setupNode a (mkNode b cs) =
  match cs with
  | [] => Some (mkNode a cs)
  | _ =>
      angles <- computeItemAngles (map itemOf cs) (parentAngleOf a) ;;
      cs' <- setupChildren angles cs 0%nat ;;
      Some (mkNode a cs')
  end.
Proof. destruct cs; reflexivity. Qed.

Lemma setupChildren_ok (angles : list (option Q)) (cs : list Node) :
  Forall setsUp cs -> inRange angles ->
  forall i, (i + length cs <= length angles)%nat ->
    (forall j, (j < length angles)%nat -> Arr.get angles j <> None) ->
    exists cs',
      setupChildren angles cs i = Some cs' /\
      Forall2 sameShape cs cs' /\
      Forall (fun c => (exists v, nodeAngle c = Some v /\ angleInRange v) /\
                       placed c) cs'.
Proof.
  intros Hcs Hrange. induction Hcs as [|c rest Hc _ IH]; intros i Hlen Hfull.
  - exists []. repeat split; constructor.
  - simpl in Hlen.
    destruct (Hc (Arr.get angles i)) as (t & Hrun & Hangle & Hshape & Hplaced).
    destruct (IH (S i) ltac:(lia) Hfull) as (rest' & Hrest & Hshapes & Hall).
    exists (t :: rest'). cbn [setupChildren]. fold (setupChildren angles).
    rewrite Hrun. cbn [bind]. rewrite Hrest. cbn [bind].
    split; [reflexivity|]. split; [constructor; assumption|].
    constructor; [|exact Hall]. split; [|exact Hplaced].
    destruct (Arr.get angles i) as [v|] eqn:Ev.
    + exists v. split; [exact Hangle|]. apply (Hrange i v Ev).
    + exfalso. apply (Hfull i); [lia|exact Ev].
Qed.

Lemma setupNode_ok (node : Node) : setsUp node.
Proof.
  induction node as [b cs IH] using node_induction. intro a.
  rewrite setupNode_unfold. destruct cs as [|c rest].
  - exists (mkNode a []). split; [reflexivity|]. split; [reflexivity|].
    split; constructor; constructor.
  - set (cs := c :: rest) in *.
    destruct (computeItemAngles_ok (map itemOf cs) (parentAngleOf a))
      as (angles & Hrun & [Hlen Hfull] & Hrange & _).
    rewrite length_map in Hlen.
    destruct (setupChildren_ok angles cs IH Hrange 0 ltac:(lia))
      as (cs' & Hloop & Hshapes & Hall).
    { intros j Hj. apply Hfull. rewrite length_map. lia. }
    rewrite Hrun. cbn [bind]. rewrite Hloop. cbn [bind].
    exists (mkNode a cs'). split; [reflexivity|]. split; [reflexivity|].
    split; constructor; assumption.
Qed.

(** X15.  [setupAngles] returns for every menu tree: the tree keeps its
    shape and the angle of its root, and every node below the root gets
    an angle of the interval from 0 to 360. *)
Theorem setupAngles_places (node : Node) :
  exists t,
    setupAngles node = Some t /\ nodeAngle t = nodeAngle node /\
    sameShape node t /\ placed t.
Proof. apply setupNode_ok. Qed.

(** * The parent angle in computeItemAngles *)

Lemma ofZ_succ (c : Z) : ofZ (c + 1) == ofZ c + 1.
Proof. unfold ofZ. rewrite inject_Z_plus. reflexivity. Qed.

Lemma ofZ_le (c d : Z) : (c <= d)%Z -> ofZ c <= ofZ d.
Proof. intro H. unfold ofZ. rewrite <- Zle_Qle. exact H. Qed.

Lemma ofZ_one : ofZ 1 == 1.
Proof. reflexivity. Qed.

(** The remainder of a number below 720 that is not negative. *)
Lemma rem_cases (t : Q) :
  0 <= t -> t < 720 -> Num.rem t 360 == t \/ Num.rem t 360 == t - 360.
Proof.
  intros H0 H1. destruct (Qlt_le_dec t 360) as [Hlt|Hge].
  - left. apply rem_small; assumption.
  - right. unfold Num.rem.
    assert (Hq0 : 1 <= t / 360) by (apply Qle_shift_div_l; lra).
    assert (Hq1 : t / 360 < 2) by (apply Qlt_shift_div_r; lra).
    destruct (trunc_pos (t / 360) ltac:(lra)) as (A & B & _).
    assert (T : Num.trunc (t / 360) = 1%Z).
    { assert (H2 : inject_Z 0 < inject_Z (Num.trunc (t / 360)))
        by (change (inject_Z 0) with 0; lra).
      assert (H3 : inject_Z (Num.trunc (t / 360)) < inject_Z 2)
        by (change (inject_Z 2) with 2; lra).
      rewrite <- Zlt_Qlt in H2, H3. lia. }
    rewrite T. change (inject_Z 1) with 1. ring.
Qed.

Lemma avoids_set (p : Q) (a : list (option Q)) (i : nat) (v : Q) :
  avoids p a -> ~ v == p -> avoids p (Arr.set a i v).
Proof.
  intros Ha Hv j w. destruct (Nat.eq_dec j i) as [->|Hne].
  - rewrite get_set_eq. intros [= <-]. exact Hv.
  - rewrite get_set_neq by exact Hne. apply Ha.
Qed.

Lemma stepsTo_zero (n index e : nat) :
  (index < n)%nat -> (e < n)%nat -> stepsTo n index e = 0%nat -> index = e.
Proof.
  unfold stepsTo. intros Hi He H.
  destruct (Nat.le_gt_cases index e) as [Hle|Hgt].
  - replace (e + n - index)%nat with (e - index + 1 * n)%nat in H by lia.
    rewrite Nat.Div0.mod_add, Nat.mod_small in H by lia. lia.
  - rewrite Nat.mod_small in H by lia. lia.
Qed.

Lemma stepsTo_next (n index e d : nat) :
  (index < n)%nat -> (e < n)%nat -> stepsTo n index e = S d ->
  stepsTo n ((index + 1) mod n) e = d.
Proof.
  unfold stepsTo. intros Hi He H. rewrite next_index by exact Hi.
  destruct (Nat.le_gt_cases index e) as [Hle|Hgt].
  - replace (e + n - index)%nat with (e - index + 1 * n)%nat in H by lia.
    rewrite Nat.Div0.mod_add, Nat.mod_small in H by lia.
    destruct (Nat.eqb_spec (index + 1) n) as [En|En]; [lia|].
    replace (e + n - (index + 1))%nat with (e - (index + 1) + 1 * n)%nat by lia.
    rewrite Nat.Div0.mod_add, Nat.mod_small by lia. lia.
  - rewrite Nat.mod_small in H by lia.
    destruct (Nat.eqb_spec (index + 1) n) as [En|En].
    + replace (e + n - 0)%nat with (e + 1 * n)%nat by lia.
      rewrite Nat.Div0.mod_add, Nat.mod_small by lia. lia.
    + rewrite Nat.mod_small by lia. lia.
Qed.

Lemma stepsTo_count (n b e : nat) :
  (b < n)%nat -> (e < n)%nat ->
  Z.of_nat (stepsTo n ((b + 1) mod n) e) =
  Z.rem (Z.of_nat e - Z.of_nat b - 1 + Z.of_nat n) (Z.of_nat n).
Proof.
  intros Hb He. rewrite Z.rem_mod_nonneg by lia.
  unfold stepsTo. rewrite next_index by exact Hb.
  rewrite Nat2Z.inj_mod.
  destruct (Nat.eqb_spec (b + 1) n) as [En|En].
  - replace (Z.of_nat (e + n - 0)) with (Z.of_nat e + 1 * Z.of_nat n)%Z by lia.
    rewrite Z_mod_plus_full. f_equal. lia.
  - f_equal. lia.
Qed.

(** ** The loop of one wedge and the parent angle *)

Section DistributeAvoid.

Variables (n : nat) (b gap pst p0 : Q) (e : nat) (K : Z) (avoid : bool).
Variable parentAngle : option Q.

Hypothesis begin_nonneg : 0 <= b.
Hypothesis begin_small : b < 360.
Hypothesis gap_pos : 0 < gap.
Hypothesis span : gap * ofZ (K + 1) <= 360.
Hypothesis parent_range : 0 <= p0 /\ p0 < 360.
Hypothesis parent_turn : pst == p0 \/ pst == p0 + 360.
Hypothesis parent_above : b < pst.
Hypothesis parent_near : pst - 360 < b.
Hypothesis inside : avoid = true -> parentAngle = Some pst.
Hypothesis outside : avoid = false -> b + gap * ofZ (K + 1) <= pst.

(** An angle of the wedge that keeps half a gap away from the parent
    when the parent is inside is not the parent angle. *)
Lemma wedge_angle_avoids (c : Z) :
  (1 <= c <= K)%Z ->
  (avoid = true ->
   b + gap * ofZ c + gap / 2 - pst <= 0 \/ pst + gap / 2 < b + gap * ofZ c) ->
  ~ Num.rem (b + gap * ofZ c) 360 == p0.
Proof.
  intros [Hc1 HcK] Hhalf Heq.
  pose proof (ofZ_le 1 c Hc1) as H1. rewrite ofZ_one in H1.
  pose proof (ofZ_le c K HcK) as H2.
  pose proof (ofZ_succ K) as HK.
  assert (P1 : gap * 1 <= gap * ofZ c)
    by (apply Qmult_le_l; assumption).
  assert (P2 : gap * ofZ c <= gap * ofZ K)
    by (apply Qmult_le_l; assumption).
  assert (P3 : gap * ofZ (K + 1) == gap * ofZ K + gap)
    by (rewrite HK; ring).
  set (t := b + gap * ofZ c) in *.
  assert (Ht0 : 0 <= t) by (unfold t; lra).
  assert (Ht1 : t < 720) by (unfold t; lra).
  assert (Hgh : gap / 2 * 2 == gap) by field.
  destruct (rem_cases t Ht0 Ht1) as [E|E]; rewrite E in Heq;
    destruct parent_turn as [Hp|Hp];
    destruct avoid eqn:Ea;
    try (destruct (Hhalf eq_refl)); try (pose proof (outside eq_refl));
    unfold t in *; lra.
Qed.

Lemma distribute_avoids (d : nat) :
  forall (fuel index : nat) (c : Z) (pg : bool) (a a' : list (option Q)),
    (index < n)%nat -> (e < n)%nat -> stepsTo n index e = d -> (1 <= c)%Z ->
    (pg = true -> avoid = true /\ (c + Z.of_nat d <= K)%Z) ->
    (pg = false ->
     (c + Z.of_nat d <= K + 1)%Z /\
     (avoid = true -> pst + gap / 2 < b + gap * ofZ c)) ->
    distribute fuel n b gap parentAngle e index c pg a = Some a' ->
    avoids p0 a -> avoids p0 a'.
Proof.
  induction d as [|d IH];
    intros fuel index c pg a a' Hi He Hd Hc Htrue Hfalse Hrun Ha.
  - apply stepsTo_zero in Hd; try assumption. subst index.
    destruct fuel; simpl in Hrun; rewrite Nat.eqb_refl in Hrun;
      injection Hrun as <-; exact Ha.
  - assert (Hne : index <> e).
    { intros ->. unfold stepsTo in Hd.
      replace (e + n - e)%nat with n in Hd by lia.
      rewrite Nat.Div0.mod_same in Hd. discriminate Hd. }
    destruct fuel as [|fuel]; simpl in Hrun;
      (replace (index =? e)%nat with false in Hrun
         by (symmetry; apply Nat.eqb_neq; exact Hne));
      [discriminate Hrun|].
    pose proof (stepsTo_next n index e d Hi He Hd) as Hnext.
    assert (Hi' : ((index + 1) mod n < n)%nat)
      by (apply Nat.mod_upper_bound; lia).
    pose proof (ofZ_succ c) as Hc1.
    pose proof (ofZ_succ (c + 1)) as Hc2.
    assert (Hgh : gap / 2 * 2 == gap) by field.
    assert (Hstep : forall c' pg' v,
              (1 <= c')%Z ->
              (pg' = true -> avoid = true /\ (c' + Z.of_nat d <= K)%Z) ->
              (pg' = false ->
               (c' + Z.of_nat d <= K + 1)%Z /\
               (avoid = true -> pst + gap / 2 < b + gap * ofZ c')) ->
              ~ v == p0 ->
              distribute fuel n b gap parentAngle e ((index + 1) mod n) c' pg'
                (Arr.set a index v) = Some a' ->
              avoids p0 a').
    { intros c' pg' v H1 H2 H3 Hv Hrun'.
      apply (IH fuel _ c' pg' _ a' Hi' He Hnext H1 H2 H3 Hrun').
      apply avoids_set; assumption. }
    destruct pg.
    + destruct (Htrue eq_refl) as [Hav HcK].
      rewrite (inside Hav) in Hrun. cbn [andb] in Hrun.
      destruct (Num.ltb 0 (b + gap * ofZ c + gap / 2 - pst)) eqn:Eskip.
      * apply ltb_lt in Eskip. rewrite <- (inside Hav) in Hrun.
        eapply Hstep; [| | | |exact Hrun].
        -- lia.
        -- discriminate.
        -- intros _. split; [lia|]. intros _. rewrite Hc2, Hc1. lra.
        -- apply wedge_angle_avoids; [lia|].
           intros _. right. rewrite Hc1. lra.
      * apply ltb_ge in Eskip. rewrite <- (inside Hav) in Hrun.
        eapply Hstep; [| | | |exact Hrun].
        -- lia.
        -- intros _. split; [exact Hav|lia].
        -- discriminate.
        -- apply wedge_angle_avoids; [lia|].
           intros _. left. exact Eskip.
    + destruct (Hfalse eq_refl) as [HcK Hth]. cbn [andb] in Hrun.
      eapply Hstep; [| | | |exact Hrun].
      * lia.
      * discriminate.
      * intros _. split; [lia|]. intro Hav. specialize (Hth Hav).
        rewrite Hc1. lra.
      * apply wedge_angle_avoids; [lia|].
        intro Hav. right. exact (Hth Hav).
Qed.

End DistributeAvoid.

(** ** The loop over the fixed angles and the parent angle *)

Section WedgesAvoid.

Variables (n : nat) (fixedAngles : list FixedAngle) (p0 : Q).

Let k := length fixedAngles.
Let entry (i : nat) : FixedAngle := entryOf fixedAngles i.

Hypothesis index_bound : forall i, (i < k)%nat -> (findex (entry i) < n)%nat.
Hypothesis angle_bound :
  forall i, (i < k)%nat -> 0 <= fangle (entry i) /\ fangle (entry i) < 360.
Hypothesis nondecreasing :
  forall i j, (i <= j)%nat -> (j < k)%nat ->
              fangle (entry i) <= fangle (entry j).
Hypothesis apart : forall i, (i < k)%nat -> ~ fangle (entry i) == p0.
Hypothesis parent_range : 0 <= p0 /\ p0 < 360.

Let parentState := parentStateOf fixedAngles p0.

Lemma wedgeStep_avoids (i : nat) (q : Q) (a : list (option Q))
    (st' : option Q * list (option Q)) :
  (i < k)%nat -> parentState i q -> avoids p0 a ->
  wedgeStep n fixedAngles (Some q, a) i = Some st' ->
  exists q', fst st' = Some q' /\ parentState (S i) q' /\ avoids p0 (snd st').
Proof.
  intros Hi Hq Ha Hrun. unfold wedgeStep in Hrun.
  assert (Hnext : ((i + 1) mod k < k)%nat)
    by (apply Nat.mod_upper_bound; lia).
  rewrite (nth_error_nth' fixedAngles (mkFixed 0 0) Hi) in Hrun.
  fold k in Hrun.
  rewrite (nth_error_nth' fixedAngles (mkFixed 0 0) Hnext) in Hrun.
  cbn [bind fst snd] in Hrun.
  change (nth i fixedAngles (mkFixed 0 0)) with (entry i) in Hrun.
  change (nth ((i + 1) mod k) fixedAngles (mkFixed 0 0))
    with (entry ((i + 1) mod k)) in Hrun.
  set (fb := entry i) in *. set (fe := entry ((i + 1) mod k)) in *.
  pose proof (index_bound i Hi) as Hbi. fold fb in Hbi.
  pose proof (index_bound _ Hnext) as Hei. fold fe in Hei.
  pose proof (angle_bound i Hi) as [Hb0 Hb1]. fold fb in Hb0, Hb1.
  pose proof (angle_bound _ Hnext) as [He0 He1]. fold fe in He0, He1.
  pose proof (apart i Hi) as Hbp. fold fb in Hbp.
  destruct parent_range as [Hp0 Hp1].
  (* the parent angle after the test against the begin of the wedge *)
  set (pst := if Num.ltb q (fangle fb) then q + 360 else q).
  assert (Hpa : (if Num.ltb q (fangle fb) then Some (q + 360) else Some q)
                 = Some pst)
    by (unfold pst; destruct (Num.ltb q (fangle fb)); reflexivity).
  rewrite Hpa in Hrun.
  assert (Hpst : (pst == p0 /\ fangle fb < p0) \/
                 (pst == p0 + 360 /\ p0 < fangle fb)).
  { unfold pst. destruct (Num.ltb q (fangle fb)) eqn:E.
    - apply ltb_lt in E. destruct Hq as [Hq|[Hq _]]; [right|exfalso]; lra.
    - apply ltb_ge in E. destruct Hq as [Hq|[Hq Hlt]].
      + left. split; [exact Hq|].
        destruct (Qlt_le_dec (fangle fb) p0) as [H|H]; [exact H|].
        exfalso. apply Hbp. lra.
      + right. split; [exact Hq|]. apply Hlt. exact Hi. }
  (* the end of the wedge *)
  set (endAngle := if Num.leb (fangle fe) (fangle fb)
                   then fangle fe + 360 else fangle fe) in *.
  assert (Hend : fangle fb < endAngle /\ endAngle <= fangle fb + 360).
  { unfold endAngle. destruct (Num.leb (fangle fe) (fangle fb)) eqn:E.
    - apply leb_le in E. lra.
    - apply leb_gt in E. lra. }
  set (wic := Z.rem (Z.of_nat (findex fe) - Z.of_nat (findex fb) - 1
                     + Z.of_nat n) (Z.of_nat n)) in *.
  assert (Hwic : (0 <= wic)%Z) by (apply Z.rem_nonneg; lia).
  set (inw := Num.ltb (fangle fb) pst && Num.ltb pst endAngle) in *.
  set (K := if inw then (wic + 1)%Z else wic) in *.
  assert (HK : 0 < ofZ (K + 1)).
  { unfold ofZ. change 0 with (inject_Z 0). rewrite <- Zlt_Qlt.
    unfold K. destruct inw; lia. }
  set (gap := (endAngle - fangle fb) / ofZ (K + 1)) in *.
  assert (Hspan : gap * ofZ (K + 1) == endAngle - fangle fb)
    by (unfold gap; field; lra).
  assert (Hgap : 0 < gap).
  { unfold gap. apply Qlt_shift_div_l; [exact HK|lra]. }
  assert (Habove : fangle fb < pst /\ pst - 360 < fangle fb)
    by (destruct Hpst as [[E H]|[E H]]; lra).
  destruct (distribute n n (fangle fb) gap (Some pst) (findex fe)
              ((findex fb + 1) mod n) 1 inw
              (Arr.set a (findex fb) (fangle fb))) as [a'|] eqn:Hd;
    [|discriminate Hrun].
  cbn [bind] in Hrun. injection Hrun as <-. exists pst. cbn [fst snd].
  split; [reflexivity|]. split.
  - destruct Hpst as [[E _]|[E Hlt]]; [left; exact E|right].
    split; [exact E|]. intro HSi.
    pose proof (nondecreasing i (S i) ltac:(lia) HSi) as Hle.
    fold fb in Hle.
    change (p0 < fangle (entry (S i))). lra.
  - assert (Hsteps : Z.of_nat (stepsTo n ((findex fb + 1) mod n) (findex fe))
                     = wic) by (apply stepsTo_count; assumption).
    apply (distribute_avoids n (fangle fb) gap pst p0 (findex fe) K inw
             (Some pst) Hb0 Hb1 Hgap ltac:(lra) (conj Hp0 Hp1)
             ltac:(destruct Hpst as [[E _]|[E _]]; [left|right]; exact E)
             (proj1 Habove) (proj2 Habove) (fun _ => eq_refl))
      with (d := stepsTo n ((findex fb + 1) mod n) (findex fe))
           (fuel := n) (index := ((findex fb + 1) mod n)%nat) (c := 1%Z)
           (pg := inw) (a := Arr.set a (findex fb) (fangle fb)).
    + intro Hout. rewrite Hspan.
      assert (Hlt : Num.ltb (fangle fb) pst = true)
        by (apply ltb_lt; exact (proj1 Habove)).
      unfold inw in Hout. rewrite Hlt in Hout. cbn [andb] in Hout.
      apply ltb_ge in Hout. lra.
    + apply Nat.mod_upper_bound. lia.
    + exact Hei.
    + reflexivity.
    + lia.
    + intro Hin. split; [exact Hin|]. unfold K. rewrite Hin. lia.
    + intro Hin. split; [unfold K; rewrite Hin; lia|].
      intro H. congruence.
    + exact Hd.
    + apply avoids_set; assumption.
Qed.

Lemma wedgeLoop_avoids (todo : nat) :
  forall (i : nat) (q : Q) (a : list (option Q))
         (st' : option Q * list (option Q)),
    (i + todo = k)%nat -> parentState i q -> avoids p0 a ->
    wedgeLoop todo n fixedAngles i (Some q, a) = Some st' ->
    avoids p0 (snd st').
Proof.
  induction todo as [|todo IH]; intros i q a st' Hk Hq Ha Hrun.
  - injection Hrun as <-. exact Ha.
  - cbn [wedgeLoop] in Hrun.
    destruct (wedgeStep n fixedAngles (Some q, a) i) as [[q1 a1]|] eqn:Hstep;
      [|discriminate Hrun].
    cbn [bind] in Hrun.
    destruct (wedgeStep_avoids i q a (q1, a1) ltac:(lia) Hq Ha Hstep)
      as (q' & Eq & Hq' & Ha1).
    cbn [fst snd] in Eq, Ha1. subst q1.
    apply (IH (S i) q' a1 st' ltac:(lia) Hq' Ha1 Hrun).
Qed.

End WedgesAvoid.

(** ** The first angle and the parent angle *)

Lemma topDistance_compat (x y : Q) : x == y -> topDistance x == topDistance y.
Proof.
  intro E. unfold topDistance, Num.min.
  destruct (Qle_bool x (360 - x)) eqn:Ex; destruct (Qle_bool y (360 - y)) eqn:Ey;
    try (apply Qle_bool_iff in Ex); try (apply Qle_bool_iff in Ey);
    try (apply leb_gt in Ex); try (apply leb_gt in Ey); lra.
Qed.

Lemma topDistance_below (x : Q) : topDistance x <= x.
Proof.
  unfold topDistance, Num.min. destruct (Qle_bool x (360 - x)) eqn:E; [lra|].
  apply leb_gt in E. lra.
Qed.

Lemma firstAngleStep_candidate (n : nat) (p : Q) (st : Q * Q) (i : nat) :
  firstAngleStep p (360 / ofZ (Z.of_nat n + 1)) st i =
  if Num.ltb (topDistance (candidate n p i)) (fst st)
  then (topDistance (candidate n p i), Num.rem (candidate n p i + 360) 360)
  else st.
Proof. reflexivity. Qed.

(** The search for the first angle keeps the smallest distance from
    the top that it has seen, and the direction that has it. *)
Lemma firstAngle_fold (n : nat) (p : Q) (L : list nat) :
  forall st,
    let st' := fold_left (firstAngleStep p (360 / ofZ (Z.of_nat n + 1))) L st in
    fst st' <= fst st /\
    (forall i, In i L -> fst st' <= topDistance (candidate n p i)) /\
    (st' = st \/
     exists i, In i L /\ fst st' = topDistance (candidate n p i) /\
               snd st' = Num.rem (candidate n p i + 360) 360).
Proof.
  induction L as [|i L IH]; intro st; cbn [fold_left]; cbv zeta.
  - split; [lra|]. split; [intros i []|left; reflexivity].
  - specialize (IH (firstAngleStep p (360 / ofZ (Z.of_nat n + 1)) st i)).
    cbv zeta in IH. destruct IH as (H1 & H2 & H3).
    set (st' := fold_left (firstAngleStep p (360 / ofZ (Z.of_nat n + 1))) L
                  (firstAngleStep p (360 / ofZ (Z.of_nat n + 1)) st i)) in *.
    rewrite firstAngleStep_candidate in H1, H3.
    destruct (Num.ltb (topDistance (candidate n p i)) (fst st)) eqn:E.
    + apply ltb_lt in E. cbn [fst snd] in H1. split; [lra|]. split.
      * intros j [<-|Hj]; [exact H1|apply H2; exact Hj].
      * right. destruct H3 as [H3|(j & Hj & H3)].
        -- exists i. split; [left; reflexivity|]. rewrite H3.
           split; reflexivity.
        -- exists j. split; [right; exact Hj|exact H3].
    + apply ltb_ge in E. split; [exact H1|]. split.
      * intros j [<-|Hj]; [lra|apply H2; exact Hj].
      * destruct H3 as [H3|(j & Hj & H3)]; [left; exact H3|right].
        exists j. split; [right; exact Hj|exact H3].
Qed.

Lemma candidate_range (n : nat) (p : Q) (i : nat) :
  0 <= p -> 0 <= candidate n p i /\ candidate n p i < 360.
Proof.
  intro Hp. unfold candidate. apply rem_range.
  assert (0 <= ofZ (Z.of_nat i + 1)) by (apply (ofZ_le 0); lia).
  assert (0 < ofZ (Z.of_nat n + 1)).
  { unfold ofZ. change 0 with (inject_Z 0). rewrite <- Zlt_Qlt. lia. }
  assert (0 <= 360 / ofZ (Z.of_nat n + 1))
    by (apply Qle_shift_div_l; lra).
  assert (0 <= ofZ (Z.of_nat i + 1) * (360 / ofZ (Z.of_nat n + 1)))
    by (apply Qmult_le_0_compat; assumption).
  lra.
Qed.

(** The first angle, when no angle is fixed: one of the candidate
    directions, the one that is closest to the top. *)
Lemma firstAngleOf_candidate (n : nat) (p : Q) :
  (0 < n)%nat -> 0 <= p ->
  exists i,
    (i < n)%nat /\ firstAngleOf n (Some p) == candidate n p i /\
    forall j, (j < n)%nat ->
      topDistance (candidate n p i) <= topDistance (candidate n p j).
Proof.
  intros Hn Hp. unfold firstAngleOf.
  destruct (firstAngle_fold n p (seq 0 n) (360, 0)) as (H1 & H2 & H3).
  cbv zeta in H1, H2, H3. cbn [fst snd] in H1, H3.
  destruct H3 as [H3|(i & Hi & H3 & H4)].
  - exfalso. rewrite H3 in H2. cbn [fst] in H2.
    pose proof (H2 0%nat ltac:(apply in_seq; lia)) as H.
    pose proof (topDistance_below (candidate n p 0)).
    pose proof (candidate_range n p 0 Hp). lra.
  - exists i. apply in_seq in Hi. split; [lia|]. split.
    + rewrite H4. destruct (candidate_range n p i Hp) as [C0 C1].
      destruct (rem_cases (candidate n p i + 360) ltac:(lra) ltac:(lra))
        as [E|E]; [|rewrite E; ring].
      exfalso.
      destruct (rem_range (candidate n p i + 360) ltac:(lra)) as [_ R].
      lra.
    + intros j Hj. rewrite <- H3. apply H2. apply in_seq. lia.
Qed.

(** A candidate direction is not the direction of the parent. *)
Lemma candidate_apart (n : nat) (p : Q) (i : nat) :
  (i < n)%nat -> 0 <= p -> p < 360 -> ~ candidate n p i == p.
Proof.
  intros Hi Hp0 Hp1 E. unfold candidate in E.
  set (x := ofZ (Z.of_nat i + 1) * (360 / ofZ (Z.of_nat n + 1))) in *.
  assert (Hx : 0 < x /\ x < 360).
  { pose proof (even_step_range (S i) (S n) ltac:(lia)) as [_ H1].
    assert (Ei : ofZ (Z.of_nat (S i)) = ofZ (Z.of_nat i + 1))
      by (f_equal; lia).
    assert (En : ofZ (Z.of_nat (S n)) = ofZ (Z.of_nat n + 1))
      by (f_equal; lia).
    rewrite Ei, En in H1.
    assert (Hc : x == 360 / ofZ (Z.of_nat n + 1) * ofZ (Z.of_nat i + 1))
      by (unfold x; ring).
    assert (Hi1 : 1 <= ofZ (Z.of_nat i + 1)) by (apply (ofZ_le 1); lia).
    assert (Hn1 : 0 < ofZ (Z.of_nat n + 1)).
    { unfold ofZ. change 0 with (inject_Z 0). rewrite <- Zlt_Qlt. lia. }
    assert (Hw : 0 < 360 / ofZ (Z.of_nat n + 1))
      by (apply Qlt_shift_div_l; lra).
    assert (Hm : 360 / ofZ (Z.of_nat n + 1) * 1
                 <= 360 / ofZ (Z.of_nat n + 1) * ofZ (Z.of_nat i + 1))
      by (apply Qmult_le_l; assumption).
    lra. }
  destruct (rem_cases (p + x) ltac:(lra) ltac:(lra)) as [R|R];
    rewrite R in E; lra.
Qed.

(** A fixed angle below 360, after the move away from the parent and
    the remainder, is not the parent angle. *)
Lemma nudged_apart (p a : Q) (i : nat) :
  0 <= p -> p < 360 -> 0 <= a -> a < 360 ->
  ~ fangle (normalize (nudge (Some p) (mkFixed a i))) == p.
Proof.
  intros Hp0 Hp1 Ha0 Ha1. unfold nudge. cbn [fangle findex].
  assert (Habs : (0 <= a - p /\ Qabs (a - p) == a - p) \/
                 (a - p <= 0 /\ Qabs (a - p) == -(a - p))).
  { destruct (Qlt_le_dec (a - p) 0) as [H|H].
    - right. split; [lra|]. apply Qabs_neg. lra.
    - left. split; [exact H|]. apply Qabs_pos. exact H. }
  destruct (Num.ltb (Qabs (a - p)) (1 # 10000)) eqn:E; cbn [normalize fangle].
  - apply ltb_lt in E.
    destruct (rem_cases (a + (1 # 10)) ltac:(lra) ltac:(lra)) as [R|R];
      rewrite R; destruct Habs as [[H1 H2]|[H1 H2]]; lra.
  - apply ltb_ge in E. rewrite (rem_small a) by assumption.
    destruct Habs as [[H1 H2]|[H1 H2]]; lra.
Qed.

Lemma fixedAnglesOf_apart (items : list Item) (p : Q) :
  angleInRange p -> fixedBelowTurn items ->
  Forall (fun f => ~ fangle f == p) (fixedAnglesOf items (Some p)).
Proof.
  intros [Hp0 Hp1] Hvalid. unfold fixedAnglesOf. apply prune_Forall.
  rewrite !Forall_map. apply Forall_forall. intros f Hf.
  destruct (collectFixed_spec _ _ _ Hf) as (_ & Hnth & Hf0).
  destruct f as [a i]. cbn [fangle findex] in *.
  apply nudged_apart; try assumption.
  apply (Hvalid (mkItem (Some a)) a); [|reflexivity|exact Hf0].
  apply (nth_error_In _ _ Hnth).
Qed.

Lemma fixedAnglesOf_nondecreasing (items : list Item) (p : option Q) :
  StronglySorted angleLe (fixedAnglesOf items p).
Proof.
  unfold fixedAnglesOf.
  apply Sorted_StronglySorted; [exact angleLe_trans|].
  destruct (map normalize (map (nudge p) (collectFixed 0 items)));
    [constructor|apply pruneFrom_angles_sorted].
Qed.

(** The wedge loop on well formed fixed angles that are not the parent
    angle leaves an array without the parent angle. *)
Lemma wedgeLoop_clear (n : nat) (fs : list FixedAngle) (p : Q)
    (a : list (option Q)) (st : option Q * list (option Q)) :
  wellFormed n fs -> StronglySorted angleLe fs ->
  Forall (fun f => ~ fangle f == p) fs -> angleInRange p -> avoids p a ->
  wedgeLoop (length fs) n fs 0 (Some p, a) = Some st ->
  avoids p (snd st).
Proof.
  intros [_ Hb] Hs Hp Hrange Ha Hrun.
  rewrite Forall_forall in Hb, Hp.
  apply (wedgeLoop_avoids n fs p
           (fun i Hi => proj1 (Hb _ (nth_In fs _ Hi)))
           (fun i Hi => proj2 (Hb _ (nth_In fs _ Hi))))
    with (todo := length fs) (i := 0%nat) (q := p) (a := a).
  - intros i j Hij Hj. destruct (Nat.eq_dec i j) as [->|Hne].
    + apply Qle_refl.
    + apply (strongly_sorted_nth angleLe fs (mkFixed 0 0) Hs i j); lia.
  - intros i Hi. apply Hp. apply nth_In. exact Hi.
  - exact Hrange.
  - reflexivity.
  - left. reflexivity.
  - exact Ha.
  - exact Hrun.
Qed.

(** With a parent angle in range and fixed angles below 360, the
    output has no slot with the parent angle. *)
Lemma computeItemAngles_clear (items : list Item) (p : Q) :
  angleInRange p -> fixedBelowTurn items ->
  exists out,
    computeItemAngles items (Some p) = Some out /\
    Forall (fun slot => exists v, slot = Some v /\ ~ v == p) out.
Proof.
  intros Hp Hvalid.
  destruct (computeItemAngles_ok items (Some p))
    as (out & Hrun & Hfull & _ & _).
  exists out. split; [exact Hrun|].
  assert (Hav : avoids p out).
  { destruct items as [|item items].
    - injection Hrun as <-. intros [|j] v H; discriminate H.
    - set (its := item :: items) in *.
      unfold computeItemAngles in Hrun. fold its in Hrun.
      change (layout (length its) (Some p) (fixedAnglesOf its (Some p))
              = Some out) in Hrun.
      pose proof (fixedAnglesOf_wellFormed its (Some p)) as Hwf.
      pose proof (fixedAnglesOf_nondecreasing its (Some p)) as Hnd.
      pose proof (fixedAnglesOf_apart its p Hp Hvalid) as Hap.
      unfold layout in Hrun.
      destruct (fixedAnglesOf its (Some p)) as [|f fs] eqn:Efs.
      + set (first := firstAngleOf (length its) (Some p)) in *.
        destruct (firstAngleOf_candidate (length its) p
                    ltac:(simpl; lia) (proj1 Hp)) as (i & Hi & Efirst & _).
        fold first in Efirst.
        assert (Hfirst : ~ first == p).
        { rewrite Efirst. apply candidate_apart; try apply Hp. exact Hi. }
        destruct (wedgeLoop (length [mkFixed first 0]) (length its)
                    [mkFixed first 0] 0 (Some p, Arr.set [] 0 first))
          as [st|] eqn:Hloop; [|discriminate Hrun].
        cbn [bind] in Hrun. injection Hrun as <-.
        apply (wedgeLoop_clear (length its) [mkFixed first 0] p
                 (Arr.set [] 0 first) st); try assumption.
        * split; [repeat constructor|].
          constructor; [|constructor]. cbn [findex fangle].
          split; [simpl; lia|]. apply firstAngleOf_range.
        * repeat constructor.
        * constructor; [exact Hfirst|constructor].
        * apply avoids_set; [|exact Hfirst].
          intros [|j] v H; discriminate H.
      + destruct (wedgeLoop (length (f :: fs)) (length its) (f :: fs) 0
                    (Some p, [])) as [st|] eqn:Hloop; [|discriminate Hrun].
        cbn [bind] in Hrun. injection Hrun as <-.
        apply (wedgeLoop_clear (length its) (f :: fs) p [] st);
          try assumption.
        intros [|j] v H; discriminate H. }
  apply Forall_forall. intros slot Hin.
  destruct (In_nth_error _ _ Hin) as (j & Hj).
  assert (Hlt : (j < length items)%nat).
  { destruct Hfull as [<- _]. apply nth_error_Some. congruence. }
  destruct (full_nth_error _ _ _ Hfull Hlt) as (v & Hv).
  exists v. split; [congruence|].
  apply (Hav j v). apply get_nth_error. exact Hv.
Qed.

(** X16.  With a parent angle of the interval from 0 to 360, and every
    fixed angle of the items below 360, no item gets the angle of the
    parent: fixed angles that collide with it are moved away, and the
    items that are spread over a wedge keep clear of it. *)
Theorem computeItemAngles_avoids_parent (items : list Item) (p : Q) :
  angleInRange p -> fixedBelowTurn items ->
  exists out,
    computeItemAngles items (Some p) = Some out /\
    Forall (fun slot => exists v, slot = Some v /\ ~ v == p) out.
Proof. apply computeItemAngles_clear. Qed.

Lemma computeItemAngles_avoids_parent_witness :
  exists out,
    computeItemAngles [free; fixedAt 180; free; free] (Some 180) = Some out /\
    Forall (fun slot => exists v, slot = Some v /\ ~ v == 180) out.
Proof.
  apply (computeItemAngles_avoids_parent [free; fixedAt 180; free; free] 180).
  - split; [unfold Qle|unfold Qlt]; simpl; lia.
  - intros item a Hin Ha _.
    repeat (destruct Hin as [<-|Hin]; [try discriminate Ha|]);
      try (injection Ha as <-; unfold Qlt; simpl; lia).
    destruct Hin.
Defined.

(** The slot 0 of the output when no angle is fixed. *)
Lemma layout_first (n : nat) (p : option Q) (out : list (option Q)) :
  (0 < n)%nat -> layout n p [] = Some out ->
  Arr.get out 0 = Some (firstAngleOf n p).
Proof.
  intros Hn Hrun. unfold layout in Hrun.
  set (first := firstAngleOf n p) in *.
  pose proof (firstAngleOf_range n p) as Hfirst. fold first in Hfirst.
  assert (Hk : (0 < length [mkFixed first 0])%nat) by (simpl; lia).
  assert (H1 : forall i j, (i < j)%nat -> (j < length [mkFixed first 0])%nat ->
            (findex (entryOf [mkFixed first 0] i) <
             findex (entryOf [mkFixed first 0] j))%nat)
    by (simpl; intros; lia).
  assert (H2 : forall i, (i < length [mkFixed first 0])%nat ->
            (findex (entryOf [mkFixed first 0] i) < n)%nat)
    by (intros [|i] Hi; [exact Hn|simpl in Hi; lia]).
  assert (H3 : forall i, (i < length [mkFixed first 0])%nat ->
            0 <= fangle (entryOf [mkFixed first 0] i) /\
            fangle (entryOf [mkFixed first 0] i) < 360)
    by (intros [|i] Hi; [exact Hfirst|simpl in Hi; lia]).
  destruct (wedgeLoop_all n [mkFixed first 0] Hk H1 H2 H3 p
              (Arr.set [] 0 first)
              (inRange_set [] 0 first inRange_nil Hfirst)
              ltac:(simpl; lia))
    as (p' & a' & Hloop & _ & _ & Hfix).
  rewrite Hloop in Hrun. cbn [bind snd] in Hrun. injection Hrun as <-.
  apply (Hfix 0%nat). simpl. lia.
Qed.

(** X17.  When no item has a fixed angle and the parent angle is of
    the interval from 0 to 360, the first item gets one of the N
    directions that divide the circle evenly together with the parent,
    and of these the one that is closest to the top. *)
Theorem first_item_closest_to_top (items : list Item) (p : Q) :
  items <> [] -> Forall isFree items -> angleInRange p ->
  exists out first i,
    computeItemAngles items (Some p) = Some out /\
    nth_error out 0 = Some (Some first) /\
    (i < length items)%nat /\ first == candidate (length items) p i /\
    forall j, (j < length items)%nat ->
      topDistance first <= topDistance (candidate (length items) p j).
Proof.
  intros Hne Hfree [Hp0 Hp1].
  destruct (computeItemAngles_ok items (Some p)) as (out & Hrun & _).
  assert (Hn : (0 < length items)%nat)
    by (destruct items; [congruence|simpl; lia]).
  destruct (firstAngleOf_candidate (length items) p Hn Hp0)
    as (i & Hi & Efirst & Hmin).
  exists out, (firstAngleOf (length items) (Some p)), i.
  split; [exact Hrun|]. split; [|split; [exact Hi|split; [exact Efirst|]]].
  - apply get_nth_error. apply (layout_first (length items) (Some p) out Hn).
    rewrite <- Hrun. unfold computeItemAngles.
    rewrite fixedAnglesOf_allFree by exact Hfree.
    destruct items; [congruence|reflexivity].
  - intros j Hj. rewrite (topDistance_compat _ _ Efirst). apply Hmin. exact Hj.
Qed.

Lemma first_item_closest_to_top_witness :
  exists out first i,
    computeItemAngles exampleFour (Some 180) = Some out /\
    nth_error out 0 = Some (Some first) /\
    (i < length exampleFour)%nat /\
    first == candidate (length exampleFour) 180 i /\
    forall j, (j < length exampleFour)%nat ->
      topDistance first <= topDistance (candidate (length exampleFour) 180 j).
Proof.
  apply (first_item_closest_to_top exampleFour 180).
  - discriminate.
  - repeat constructor.
  - split; [unfold Qle|unfold Qlt]; simpl; lia.
Defined.

(** ** Items without a fixed angle around a parent *)

Lemma rem_compat (x y : Q) : 0 <= x -> x == y -> Num.rem x 360 == Num.rem y 360.
Proof.
  intros Hx E.
  assert (Hy : 0 <= y) by lra.
  pose proof (rem_range x Hx) as [X0 X1].
  pose proof (rem_range y Hy) as [Y0 Y1].
  unfold Num.rem in *.
  set (k1 := Num.trunc (x / 360)) in *. set (k2 := Num.trunc (y / 360)) in *.
  assert (Hk : k1 = k2).
  { assert (H1 : inject_Z (k1 - k2) < inject_Z 1).
    { unfold Z.sub. rewrite inject_Z_plus, inject_Z_opp.
      change (inject_Z 1) with 1. lra. }
    assert (H2 : inject_Z (-1) < inject_Z (k1 - k2)).
    { unfold Z.sub. rewrite inject_Z_plus, inject_Z_opp.
      change (inject_Z (-1)) with (-1). lra. }
    rewrite <- Zlt_Qlt in H1, H2. lia. }
  rewrite Hk, E. reflexivity.
Qed.

Section DistributeParent.

Variables (n : nat) (b gap pst : Q) (m : nat).

Hypothesis gap_pos : 0 < gap.
Hypothesis parent_slot : pst == b + gap * ofZ (Z.of_nat m).

(** The state of the loop at [index]: the gap for the parent is still
    to come and the count is the index, or the gap has been left and the
    count is one ahead. *)
Let gapState (index : nat) (count : Z) (parentGapRequired : bool) : Prop :=
  (parentGapRequired = true /\ count = Z.of_nat index /\ (index <= m)%nat) \/
  (parentGapRequired = false /\ count = (Z.of_nat index + 1)%Z /\
   (m < index)%nat).

(** The test for the gap of the parent succeeds from the place of the
    parent on. *)
Lemma gap_test (j : nat) :
  Num.ltb 0 (b + gap * ofZ (Z.of_nat j) + gap / 2 - pst) = (m <=? j)%nat.
Proof.
  assert (Hh : gap / 2 * 2 == gap) by field.
  destruct (Nat.leb_spec m j) as [H|H].
  - apply ltb_lt.
    assert (Hle : ofZ (Z.of_nat m) <= ofZ (Z.of_nat j)) by (apply ofZ_le; lia).
    assert (Hp : 0 <= gap * (ofZ (Z.of_nat j) - ofZ (Z.of_nat m)))
      by (apply Qmult_le_0_compat; lra).
    assert (Er : gap * (ofZ (Z.of_nat j) - ofZ (Z.of_nat m))
                 == gap * ofZ (Z.of_nat j) - gap * ofZ (Z.of_nat m)) by ring.
    lra.
  - apply ltb_ge.
    assert (Hle : ofZ (Z.of_nat j + 1) <= ofZ (Z.of_nat m))
      by (apply ofZ_le; lia).
    rewrite ofZ_succ in Hle.
    assert (Hp : 0 <= gap * (ofZ (Z.of_nat m) - ofZ (Z.of_nat j) - 1))
      by (apply Qmult_le_0_compat; lra).
    assert (Er : gap * (ofZ (Z.of_nat m) - ofZ (Z.of_nat j) - 1)
                 == gap * ofZ (Z.of_nat m) - gap * ofZ (Z.of_nat j) - gap)
      by ring.
    lra.
Qed.

Lemma distribute_parent_step (fuel index : nat) (count : Z) (pgr : bool)
    (a : list (option Q)) :
  (0 < index)%nat -> gapState index count pgr ->
  exists count2 pgr2,
    distribute (S fuel) n b gap (Some pst) 0 index count pgr a =
    distribute fuel n b gap (Some pst) 0 ((index + 1) mod n) count2 pgr2
      (Arr.set a index
         (Num.rem (b + gap * ofZ (Z.of_nat (evenSlot m index))) 360)) /\
    gapState (index + 1) count2 pgr2.
Proof.
  intros Hi Hst. cbn [distribute].
  replace (index =? 0)%nat with false by (symmetry; apply Nat.eqb_neq; lia).
  destruct Hst as [(-> & -> & Hle)|(-> & -> & Hlt)]; cbn [andb].
  - rewrite gap_test. destruct (Nat.leb_spec m index) as [Hm|Hm].
    + exists (Z.of_nat index + 1 + 1)%Z, false. split.
      * unfold evenSlot.
        replace (index <? m)%nat with false
          by (symmetry; apply Nat.ltb_ge; lia).
        replace (Z.of_nat (S index)) with (Z.of_nat index + 1)%Z by lia.
        reflexivity.
      * right. split; [reflexivity|]. split; lia.
    + exists (Z.of_nat index + 1)%Z, true. split.
      * unfold evenSlot.
        replace (index <? m)%nat with true
          by (symmetry; apply Nat.ltb_lt; lia).
        reflexivity.
      * left. split; [reflexivity|]. split; lia.
  - exists (Z.of_nat index + 1 + 1)%Z, false. split.
    + unfold evenSlot.
      replace (index <? m)%nat with false
        by (symmetry; apply Nat.ltb_ge; lia).
      replace (Z.of_nat (S index)) with (Z.of_nat index + 1)%Z by lia.
      reflexivity.
    + right. split; [reflexivity|]. split; lia.
Qed.

(** The loop of the one wedge around the circle, from [index] to the
    end of the array: every item takes its place among the directions,
    and the place of the parent is left out. *)
Lemma distribute_parent (d : nat) :
  forall (fuel index : nat) (count : Z) (pgr : bool) (a : list (option Q)),
    (index + d = n)%nat -> (0 < index)%nat -> (0 < d)%nat -> (d <= fuel)%nat ->
    gapState index count pgr ->
    exists a',
      distribute fuel n b gap (Some pst) 0 index count pgr a = Some a' /\
      forall j,
        Arr.get a' j =
        if (index <=? j)%nat && (j <? n)%nat
        then Some (Num.rem (b + gap * ofZ (Z.of_nat (evenSlot m j))) 360)
        else Arr.get a j.
Proof.
  induction d as [|d IH]; intros fuel index count pgr a Hd Hi Hpos Hf Hst;
    [lia|].
  destruct fuel as [|fuel]; [lia|].
  destruct (distribute_parent_step fuel index count pgr a Hi Hst)
    as (count2 & pgr2 & E & Hst2).
  rewrite E. rewrite next_index by lia.
  destruct (Nat.eqb_spec (index + 1) n) as [En|En].
  - eexists. split.
    + destruct fuel; reflexivity.
    + intro j. destruct (Nat.eq_dec j index) as [->|Hne].
      * rewrite get_set_eq.
        replace (index <=? index)%nat with true
          by (symmetry; apply Nat.leb_le; lia).
        replace (index <? n)%nat with true
          by (symmetry; apply Nat.ltb_lt; lia).
        reflexivity.
      * rewrite get_set_neq by exact Hne.
        destruct (Nat.leb_spec index j); destruct (Nat.ltb_spec j n);
          try reflexivity; lia.
  - destruct (IH fuel (index + 1)%nat count2 pgr2
                (Arr.set a index
                   (Num.rem (b + gap * ofZ (Z.of_nat (evenSlot m index))) 360)))
      as (a' & Hrun & Hget); try lia; [exact Hst2|].
    exists a'. split; [exact Hrun|]. intro j. rewrite Hget.
    destruct (Nat.eq_dec j index) as [->|Hne].
    + replace (index + 1 <=? index)%nat with false
        by (symmetry; apply Nat.leb_gt; lia).
      replace (index <=? index)%nat with true
        by (symmetry; apply Nat.leb_le; lia).
      replace (index <? n)%nat with true by (symmetry; apply Nat.ltb_lt; lia).
      cbn [andb]. rewrite get_set_eq. reflexivity.
    + destruct (Nat.leb_spec (index + 1) j); destruct (Nat.leb_spec index j);
        try lia; cbn [andb].
      * destruct (j <? n)%nat; [reflexivity|apply get_set_neq; exact Hne].
      * apply get_set_neq. exact Hne.
Qed.

End DistributeParent.

(** The step from the parent to a candidate direction is a part of the
    full turn. *)
Lemma candidate_step (n i : nat) :
  (i < n)%nat ->
  0 < ofZ (Z.of_nat i + 1) * (360 / ofZ (Z.of_nat n + 1)) /\
  ofZ (Z.of_nat i + 1) * (360 / ofZ (Z.of_nat n + 1)) < 360.
Proof.
  intro Hi.
  pose proof (even_step_range (S i) (S n) ltac:(lia)) as [_ H1].
  replace (Z.of_nat (S i)) with (Z.of_nat i + 1)%Z in H1 by lia.
  replace (Z.of_nat (S n)) with (Z.of_nat n + 1)%Z in H1 by lia.
  assert (Hi1 : 0 < ofZ (Z.of_nat i + 1)).
  { unfold ofZ. change 0 with (inject_Z 0). rewrite <- Zlt_Qlt. lia. }
  assert (Hn1 : 0 < ofZ (Z.of_nat n + 1)).
  { unfold ofZ. change 0 with (inject_Z 0). rewrite <- Zlt_Qlt. lia. }
  assert (Hw : 0 < 360 / ofZ (Z.of_nat n + 1))
    by (apply Qlt_shift_div_l; lra).
  split.
  - apply Qmult_lt_0_compat; assumption.
  - rewrite Qmult_comm. exact H1.
Qed.

(** The place of the parent, seen from the first angle: when the first
    angle is the candidate [i], the parent is [n - i] steps further
    around the circle. *)
Lemma parent_place (n i : nat) (p first : Q) :
  (i < n)%nat -> 0 <= p -> p < 360 -> first == candidate n p i ->
  (if Num.ltb p first then p + 360 else p) ==
  first + 360 / ofZ (Z.of_nat n + 1) * ofZ (Z.of_nat (n - i)).
Proof.
  intros Hi Hp0 Hp1 E. unfold candidate in E.
  destruct (candidate_step n i Hi) as [X0 X1].
  assert (Hn1 : 0 < ofZ (Z.of_nat n + 1)).
  { unfold ofZ. change 0 with (inject_Z 0). rewrite <- Zlt_Qlt. lia. }
  assert (Em : 360 / ofZ (Z.of_nat n + 1) * ofZ (Z.of_nat (n - i))
               == 360 - ofZ (Z.of_nat i + 1) * (360 / ofZ (Z.of_nat n + 1))).
  { replace (Z.of_nat (n - i)) with ((Z.of_nat n + 1) - (Z.of_nat i + 1))%Z
      by lia.
    assert (Eo : ofZ (Z.of_nat n + 1 - (Z.of_nat i + 1))
                 == ofZ (Z.of_nat n + 1) - ofZ (Z.of_nat i + 1)).
    { unfold ofZ, Z.sub.
      rewrite (inject_Z_plus (Z.of_nat n + 1) (- (Z.of_nat i + 1))).
      rewrite inject_Z_opp. reflexivity. }
    rewrite Eo. field. lra. }
  rewrite Em.
  set (x := ofZ (Z.of_nat i + 1) * (360 / ofZ (Z.of_nat n + 1))) in *.
  destruct (rem_cases (p + x) ltac:(lra) ltac:(lra)) as [R|R];
    rewrite R in E; destruct (Num.ltb p first) eqn:L;
    try (apply ltb_lt in L); try (apply ltb_ge in L); lra.
Qed.

(** X18.  When no item has a fixed angle and the parent angle is of
    the interval from 0 to 360, the items and the parent divide the
    circle evenly: from the angle of the first item on, the N + 1
    directions that are 360 / (N + 1) apart are taken in their order by
    the items, but for one of them, which is the direction of the
    parent. *)
Theorem computeItemAngles_even_around_parent (items : list Item) (p : Q) :
  items <> [] -> Forall isFree items -> angleInRange p ->
  exists out first m,
    computeItemAngles items (Some p) = Some out /\
    angleInRange first /\ (1 <= m <= length items)%nat /\
    Num.rem (first + 360 / ofZ (Z.of_nat (length items) + 1)
                     * ofZ (Z.of_nat m)) 360 == p /\
    forall j, (j < length items)%nat ->
      exists v,
        nth_error out j = Some (Some v) /\
        v == Num.rem (first + 360 / ofZ (Z.of_nat (length items) + 1)
                              * ofZ (Z.of_nat (evenSlot m j))) 360.
Proof.
  intros Hne Hfree [Hp0 Hp1].
  destruct (computeItemAngles_ok items (Some p)) as (out & Hrun & Hfull & _).
  destruct items as [|item items]; [congruence|].
  set (n := length (item :: items)) in *.
  assert (Hn : (0 < n)%nat) by (unfold n; simpl; lia).
  destruct (firstAngleOf_candidate n p Hn Hp0) as (i & Hi & Efirst & _).
  pose proof (firstAngleOf_range n (Some p)) as [F0 F1].
  set (first := firstAngleOf n (Some p)) in *.
  set (m := (n - i)%nat).
  set (gap0 := 360 / ofZ (Z.of_nat n + 1)).
  pose proof (parent_place n i p first Hi Hp0 Hp1 Efirst) as Hplace.
  fold m in Hplace. fold gap0 in Hplace.
  assert (Hn1 : 0 < ofZ (Z.of_nat n + 1)).
  { unfold ofZ. change 0 with (inject_Z 0). rewrite <- Zlt_Qlt. lia. }
  assert (Hgap0 : 0 < gap0) by (apply Qlt_shift_div_l; lra).
  assert (Hturn : gap0 * ofZ (Z.of_nat n + 1) == 360)
    by (unfold gap0; field; lra).
  (* the places from 0 to n are within one turn *)
  assert (Hslot : forall s, (s <= n)%nat ->
            0 <= gap0 * ofZ (Z.of_nat s) /\ gap0 * ofZ (Z.of_nat s) < 360).
  { intros s Hs.
    assert (H0 : 0 <= ofZ (Z.of_nat s)) by apply ofZ_nat_nonneg.
    assert (H1 : ofZ (Z.of_nat s) + 1 <= ofZ (Z.of_nat n + 1)).
    { rewrite <- ofZ_succ. apply ofZ_le. lia. }
    assert (P0 : 0 <= gap0 * ofZ (Z.of_nat s))
      by (apply Qmult_le_0_compat; lra).
    assert (P1 : 0 <= gap0 * (ofZ (Z.of_nat n + 1) - ofZ (Z.of_nat s) - 1))
      by (apply Qmult_le_0_compat; lra).
    assert (Er : gap0 * (ofZ (Z.of_nat n + 1) - ofZ (Z.of_nat s) - 1)
                 == gap0 * ofZ (Z.of_nat n + 1) - gap0 * ofZ (Z.of_nat s)
                    - gap0) by ring.
    split; lra. }
  assert (Hm : (1 <= m <= n)%nat) by (unfold m; lia).
  exists out, first, m. split; [exact Hrun|]. split; [split; assumption|].
  split; [exact Hm|]. split.
  { (* the parent has the place m *)
    destruct (Hslot m ltac:(lia)) as [S0 S1].
    assert (Hpos : 0 <= first + gap0 * ofZ (Z.of_nat m)) by lra.
    rewrite (rem_compat _ _ Hpos (Qeq_sym _ _ Hplace)).
    destruct (Num.ltb p first) eqn:L.
    - apply ltb_lt in L.
      destruct (rem_cases (p + 360) ltac:(lra) ltac:(lra)) as [R|R];
        [|rewrite R; ring].
      destruct (rem_range (p + 360) ltac:(lra)) as [_ R1]. lra.
    - apply rem_small; assumption. }
  (* the run of the one wedge *)
  unfold computeItemAngles in Hrun. fold n in Hrun.
  rewrite fixedAnglesOf_allFree in Hrun by exact Hfree.
  unfold layout in Hrun. fold first in Hrun.
  cbn [length wedgeLoop] in Hrun.
  unfold wedgeStep in Hrun. cbn [length nth_error fst snd Nat.add] in Hrun.
  replace (1 mod 1)%nat with 0%nat in Hrun by reflexivity.
  cbn [nth_error bind fangle findex] in Hrun.
  replace (Num.leb first first) with true in Hrun
    by (symmetry; apply leb_le; apply Qle_refl).
  replace (Z.rem (Z.of_nat 0 - Z.of_nat 0 - 1 + Z.of_nat n) (Z.of_nat n))
    with (Z.of_nat n - 1)%Z in Hrun
    by (symmetry; replace (Z.of_nat 0 - Z.of_nat 0 - 1 + Z.of_nat n)%Z
          with (Z.of_nat n - 1)%Z by lia; apply Z.rem_small; lia).
  set (pst := if Num.ltb p first then p + 360 else p) in *.
  assert (Hpa : (if Num.ltb p first then Some (p + 360) else Some p)
                = Some pst)
    by (unfold pst; destruct (Num.ltb p first); reflexivity).
  rewrite Hpa in Hrun.
  destruct (Hslot m ltac:(lia)) as [S0 S1].
  assert (Sm : gap0 <= gap0 * ofZ (Z.of_nat m)).
  { assert (H1 : 1 <= ofZ (Z.of_nat m)) by (apply (ofZ_le 1); lia).
    assert (P : 0 <= gap0 * (ofZ (Z.of_nat m) - 1))
      by (apply Qmult_le_0_compat; lra).
    assert (Er : gap0 * (ofZ (Z.of_nat m) - 1)
                 == gap0 * ofZ (Z.of_nat m) - gap0) by ring.
    lra. }
  replace (Num.ltb first pst) with true in Hrun
    by (symmetry; apply ltb_lt; lra).
  replace (Num.ltb pst (first + 360)) with true in Hrun
    by (symmetry; apply ltb_lt; lra).
  cbn [andb] in Hrun.
  replace (Z.of_nat n - 1 + 1 + 1)%Z with (Z.of_nat n + 1)%Z in Hrun by lia.
  set (gap := (first + 360 - first) / ofZ (Z.of_nat n + 1)) in Hrun.
  assert (Egap : gap == gap0) by (unfold gap, gap0; field; lra).
  assert (Hvalue : forall s, (s <= n)%nat ->
            Num.rem (first + gap * ofZ (Z.of_nat s)) 360
            == Num.rem (first + gap0 * ofZ (Z.of_nat s)) 360).
  { intros s Hs. destruct (Hslot s Hs) as [T0 T1].
    apply rem_compat; rewrite Egap; [lra|reflexivity]. }
  assert (Hzero : first == Num.rem (first + gap0 * ofZ (Z.of_nat 0)) 360).
  { change (ofZ (Z.of_nat 0)) with 0. symmetry.
    rewrite <- (rem_small first F0 F1) at 2.
    apply rem_compat; [|ring].
    assert (Ez : gap0 * 0 == 0) by ring. lra. }
  assert (Hget : forall j, (j < n)%nat ->
            exists v, Arr.get out j = Some v /\
                      v == Num.rem (first + gap0 * ofZ (Z.of_nat (evenSlot m j)))
                             360).
  { rewrite (next_index n 0 Hn) in Hrun.
    destruct (Nat.eqb_spec (0 + 1) n) as [E1|E1].
    - (* one item *)
      destruct n as [|[|n']]; try lia.
      cbn [distribute Nat.eqb bind snd] in Hrun. injection Hrun as <-.
      intros j Hj. replace j with 0%nat by lia.
      exists first. split; [reflexivity|].
      unfold evenSlot. replace (0 <? m)%nat with true
        by (symmetry; apply Nat.ltb_lt; lia).
      exact Hzero.
    - destruct (distribute_parent n first gap pst m
                  ltac:(rewrite Egap; exact Hgap0)
                  ltac:(rewrite Egap; exact Hplace)
                  (n - 1) n (0 + 1)%nat 1%Z true
                  (Arr.set (Arr.set [] 0 first) 0 first))
        as (a' & Hd & Hval); try lia.
      rewrite Hd in Hrun. cbn [bind snd] in Hrun. injection Hrun as <-.
      intros j Hj. rewrite Hval.
      destruct j as [|j].
      + cbn [Nat.leb andb]. exists first. split; [reflexivity|].
        unfold evenSlot. replace (0 <? m)%nat with true
          by (symmetry; apply Nat.ltb_lt; lia).
        exact Hzero.
      + replace (0 + 1 <=? S j)%nat with true
          by (symmetry; apply Nat.leb_le; lia).
        replace (S j <? n)%nat with true by (symmetry; apply Nat.ltb_lt; lia).
        cbn [andb]. eexists. split; [reflexivity|].
        apply Hvalue. unfold evenSlot.
        destruct (Nat.ltb_spec (S j) m); lia. }
  intros j Hj. destruct (Hget j Hj) as (v & Hv & Ev).
  exists v. split; [apply get_nth_error; exact Hv|exact Ev].
Qed.

Lemma computeItemAngles_even_around_parent_witness :
  exists out first m,
    computeItemAngles exampleFour (Some 180) = Some out /\
    angleInRange first /\ (1 <= m <= length exampleFour)%nat /\
    Num.rem (first + 360 / ofZ (Z.of_nat (length exampleFour) + 1)
                     * ofZ (Z.of_nat m)) 360 == 180 /\
    forall j, (j < length exampleFour)%nat ->
      exists v,
        nth_error out j = Some (Some v) /\
        v == Num.rem (first + 360 / ofZ (Z.of_nat (length exampleFour) + 1)
                              * ofZ (Z.of_nat (evenSlot m j))) 360.
Proof.
  apply (computeItemAngles_even_around_parent exampleFour 180).
  - discriminate.
  - repeat constructor.
  - split; [unfold Qle|unfold Qlt]; simpl; lia.
Defined.

(** * setupAngles and the direction of the parent *)

Lemma setupChildren_away (a : option Q) (angles : list (option Q))
    (cs : list Node) :
  Forall setsAway cs ->
  Forall (fun c => (forall v, nodeAngle c = Some v -> 0 <= v -> v < 360) /\
                   belowTurn c) cs ->
  inRange angles ->
  (forall j v x, Arr.get angles j = Some v -> a = Some x ->
                 ~ v == Num.rem (x + 180) 360) ->
  forall i, (i + length cs <= length angles)%nat ->
    (forall j, (j < length angles)%nat -> Arr.get angles j <> None) ->
    exists cs',
      setupChildren angles cs i = Some cs' /\
      Forall (fun c => (forall x v, a = Some x -> nodeAngle c = Some v ->
                                    ~ v == Num.rem (x + 180) 360) /\
                       pointsAway c) cs'.
Proof.
  intros Hcs Hbelow Hrange Hclear.
  induction Hcs as [|c rest Hc _ IH]; intros i Hlen Hfull.
  - exists []. split; [reflexivity|constructor].
  - simpl in Hlen. inversion Hbelow as [|c0 rest0 [_ Hbc] Hbrest]; subst.
    destruct (Arr.get angles i) as [v|] eqn:Ev;
      [|exfalso; apply (Hfull i); [lia|exact Ev]].
    destruct (Hrange i v Ev) as [V0 V1].
    destruct (Hc Hbc (Some v)) as (t & Hrun & Hangle & Haway).
    { intros x Hx. injection Hx as <-. lra. }
    destruct (IH Hbrest (S i) ltac:(lia) Hfull) as (rest' & Hrest & Hall).
    exists (t :: rest'). cbn [setupChildren]. fold (setupChildren angles).
    rewrite Ev, Hrun. cbn [bind]. rewrite Hrest. cbn [bind].
    split; [reflexivity|]. constructor; [|exact Hall].
    split; [|exact Haway].
    intros x w Hx Hw. rewrite Hangle in Hw. injection Hw as <-.
    apply (Hclear i v x Ev Hx).
Qed.

Lemma setupNode_away (node : Node) : setsAway node.
Proof.
  induction node as [b cs IH] using node_induction. intros Hbelow a Ha.
  rewrite setupNode_unfold. destruct cs as [|c rest].
  - exists (mkNode a []). split; [reflexivity|]. split; [reflexivity|].
    constructor. constructor.
  - set (cs := c :: rest) in *.
    inversion Hbelow as [b0 cs0 Hcs]; subst.
    destruct (computeItemAngles_ok (map itemOf cs) (parentAngleOf a))
      as (angles & Hrun & [Hlen Hfull] & Hrange & _).
    rewrite length_map in Hlen.
    assert (Hclear : forall j v x, Arr.get angles j = Some v -> a = Some x ->
                       ~ v == Num.rem (x + 180) 360).
    { intros j v x Hv ->. cbn [parentAngleOf] in Hrun.
      destruct (computeItemAngles_clear (map itemOf cs) (Num.rem (x + 180) 360))
        as (out & Hout & Hall).
      - apply rem_range. apply Ha. reflexivity.
      - intros item w Hin Hw Hw0. apply in_map_iff in Hin.
        destruct Hin as (child & <- & Hchild).
        rewrite Forall_forall in Hcs.
        apply (proj1 (Hcs child Hchild) w Hw Hw0).
      - assert (out = angles) by congruence. subst out.
        rewrite Forall_forall in Hall.
        apply get_nth_error in Hv.
        destruct (Hall _ (nth_error_In _ _ Hv)) as (v' & Ev' & Hv').
        injection Ev' as <-. exact Hv'. }
    destruct (setupChildren_away a angles cs IH Hcs Hrange Hclear 0
                ltac:(lia)) as (cs' & Hloop & Hall).
    { intros j Hj. apply Hfull. rewrite length_map. lia. }
    rewrite Hrun. cbn [bind]. rewrite Hloop. cbn [bind].
    exists (mkNode a cs'). split; [reflexivity|]. split; [reflexivity|].
    constructor. exact Hall.
Qed.

(** X19.  In a menu tree whose fixed angles are all below 360, and
    whose root has no angle or one that is not below -180,
    [setupAngles] gives no node the angle that leads from its parent
    back to the parent of the parent. *)
Theorem setupAngles_points_away (node : Node) :
  belowTurn node -> (forall x, nodeAngle node = Some x -> 0 <= x + 180) ->
  exists t, setupAngles node = Some t /\ pointsAway t.
Proof.
  intros Hbelow Hroot.
  destruct (setupNode_away node Hbelow (nodeAngle node) Hroot)
    as (t & Hrun & _ & Haway).
  exists t. split; [exact Hrun|exact Haway].
Qed.

Lemma setupAngles_points_away_witness :
  exists t,
    setupAngles
      (mkNode (Some 90)
         [mkNode None [mkNode None []; mkNode (Some 270) []];
          mkNode None []]) = Some t /\
    pointsAway t.
Proof.
  apply setupAngles_points_away.
  - repeat constructor; intros v H; try discriminate H;
      injection H as <-; intros _; unfold Qlt; simpl; lia.
  - intros x H. injection H as <-. unfold Qle. simpl. lia.
Defined.

(** * The functions on doubles *)

(** ** Numbers that are not rounded *)

Lemma grid_compat (s x y : Q) : x == y -> grid s x -> grid s y.
Proof. intros E (z & Hz). exists z. rewrite <- E. exact Hz. Qed.

Lemma grid_add (s x y : Q) : grid s x -> grid s y -> grid s (x + y).
Proof.
  intros (a & Ha) (b & Hb). exists (a + b)%Z.
  rewrite inject_Z_plus, Ha, Hb. ring.
Qed.

Lemma grid_opp (s x : Q) : grid s x -> grid s (- x).
Proof.
  intros (a & Ha). exists (- a)%Z. rewrite inject_Z_opp, Ha. ring.
Qed.

Lemma grid_sub (s x y : Q) : grid s x -> grid s y -> grid s (x - y).
Proof. intros Hx Hy. apply grid_add; [exact Hx|apply grid_opp; exact Hy]. Qed.

Lemma grid_int (z : Z) : grid step41 (inject_Z z).
Proof.
  exists (z * 2199023255552)%Z. rewrite inject_Z_mult. unfold step41.
  change (inject_Z 2199023255552) with 2199023255552. field.
Qed.

Lemma grid_fine (x : Q) : grid step41 x -> grid step42 x.
Proof.
  intros (a & Ha). exists (2 * a)%Z. rewrite inject_Z_mult, Ha.
  unfold step41, step42. change (inject_Z 2) with 2. field.
Qed.

Lemma grid_half (x : Q) : grid step41 x -> grid step42 (x * (1 # 2)).
Proof.
  intros (a & Ha). exists a. rewrite Ha. unfold step41, step42. field.
Qed.

Lemma grid_div2 (x : Q) : grid step41 x -> grid step42 (x / 2).
Proof.
  intro H. apply (grid_compat _ (x * (1 # 2))); [field|].
  apply grid_half. exact H.
Qed.

Lemma grid_360 : grid step41 360.
Proof. apply (grid_int 360). Qed.

Lemma grid_zero : grid step41 0.
Proof. apply (grid_int 0). Qed.

(** A multiple of [2^-42] below 2048 is a double. *)
Lemma grid_isDouble (x : Q) :
  grid step42 x -> -2048 < x -> x < 2048 -> Double.isDouble x = true.
Proof.
  intros (z & Hz) Hlo Hhi.
  (* the mantissa is below 2^53 *)
  assert (Hz53 : (Z.abs z < 2 ^ 53)%Z).
  { assert (Ez : inject_Z z == x * 4398046511104).
    { rewrite Hz. unfold step42. field. }
    assert (H1 : inject_Z z < inject_Z (2 ^ 53)).
    { rewrite Ez. change (inject_Z (2 ^ 53)) with 9007199254740992. lra. }
    assert (H2 : inject_Z (- 2 ^ 53) < inject_Z z).
    { rewrite Ez. change (inject_Z (- 2 ^ 53)) with (-9007199254740992). lra. }
    rewrite <- Zlt_Qlt in H1, H2. lia. }
  (* the numerator of [x] on the grid *)
  destruct x as [n d].
  assert (En : (n * 2 ^ 42 = z * Zpos d)%Z).
  { unfold step42, Qeq in Hz. simpl in Hz.
    change (Z.pos 4398046511104) with (2 ^ 42)%Z in Hz.
    rewrite Z.mul_1_r in Hz. exact Hz. }
  unfold Double.isDouble. cbn [Qnum Qden].
  assert (Ea : (n * 2 ^ 1074 = z * 2 ^ 1032 * Zpos d)%Z).
  { replace (2 ^ 1074)%Z with (2 ^ 42 * 2 ^ 1032)%Z
      by (rewrite <- Z.pow_add_r by lia; reflexivity).
    rewrite Z.mul_assoc, En. ring. }
  rewrite Ea, Z.mod_mul, Z.div_mul by lia. cbn [Z.eqb andb].
  rewrite Z.abs_mul, (Z.abs_eq (2 ^ 1032)) by (apply Z.pow_nonneg; lia).
  set (m := Z.abs z) in *.
  assert (Hm0 : (0 <= m)%Z) by (unfold m; lia).
  assert (Hlt : (m * 2 ^ 1032 < 2 ^ 2098)%Z).
  { replace (2 ^ 2098)%Z with (2 ^ 1066 * 2 ^ 1032)%Z
      by (rewrite <- Z.pow_add_r by lia; reflexivity).
    apply Z.mul_lt_mono_pos_r; [apply Z.pow_pos_nonneg; lia|].
    assert ((2 ^ 53 <= 2 ^ 1066)%Z) by (apply Z.pow_le_mono_r; lia).
    lia. }
  apply Z.ltb_lt in Hlt. rewrite Hlt. cbn [andb].
  apply orb_true_iff. right. apply Z.eqb_eq.
  destruct (Z.eq_dec m 0) as [->|Hm]; [reflexivity|].
  assert (Hlog : Z.log2 (m * 2 ^ 1032) = (1032 + Z.log2 m)%Z)
    by (apply Z.log2_mul_pow2; lia).
  rewrite Hlog.
  assert (Hl0 : (0 <= Z.log2 m)%Z) by apply Z.log2_nonneg.
  assert (Hl1 : (Z.log2 m < 53)%Z) by (apply Z.log2_lt_pow2; lia).
  replace (2 ^ 1032)%Z
    with (2 ^ (52 - Z.log2 m) * 2 ^ (1032 + Z.log2 m - 52))%Z
    by (rewrite <- Z.pow_add_r by lia; f_equal; lia).
  rewrite Z.mul_assoc. apply Z.mod_mul.
  apply Z.pow_nonzero; lia.
Qed.

(** An operation with such a result does not round. *)
Lemma round_exact (x : Q) :
  grid step42 x -> -2048 < x -> x < 2048 -> Double.round x = x.
Proof.
  intros Hg Hlo Hhi. unfold Double.round.
  rewrite grid_isDouble by assumption. reflexivity.
Qed.

(** The rounding on some numbers: the literal [0.1]; an integer half
    way between two doubles, which goes to the even mantissa; the sum
    [0.7 + 360], which is rounded to the double of [360.7]. *)
Example round_tenth : literal (1 # 10) == 3602879701896397 # 36028797018963968.
Proof. vm_compute. reflexivity. Qed.

Example round_half_even :
  Double.round (inject_Z (2 ^ 53 + 1)) == inject_Z (2 ^ 53) /\
  Double.round (inject_Z (2 ^ 53 + 3)) == inject_Z (2 ^ 53 + 4).
Proof. split; vm_compute; reflexivity. Qed.

Example round_sum : Double.round (literal (7 # 10) + 360) == literal (3607 # 10).
Proof. vm_compute. reflexivity. Qed.

Lemma dyadicAngle_zero : dyadicAngle 0.
Proof. split; [split; lra|apply grid_zero]. Qed.

Lemma dyadicAngle_nth (l : list Q) (i : nat) :
  Forall dyadicAngle l -> dyadicAngle (nth i l 0).
Proof.
  intro H. destruct (Nat.lt_ge_cases i (length l)) as [Hi|Hi].
  - rewrite Forall_forall in H. apply H. apply nth_In. exact Hi.
  - rewrite nth_overflow by exact Hi. apply dyadicAngle_zero.
Qed.

Create HintDb grid.

#[local] Hint Resolve grid_add grid_sub grid_opp grid_fine grid_half grid_div2
  grid_360 grid_zero : grid.

Ltac within_bound :=
  first [lra | unfold Qdiv; change (/ 2) with (1 # 2); lra].

(** Takes the rounding off the operations of the goal whose results are
    on the grid. *)
Ltac unround :=
  repeat match goal with
  | |- context [Double.round ?t] =>
      lazymatch t with
      | context [Double.round _] => fail
      | _ =>
          rewrite (round_exact t);
          [|solve [auto 8 with grid]|within_bound|within_bound]
      end
  end.

(** ** The functions on angles of the grid *)

Lemma leb_sub (x y : Q) : Num.leb (x - y) 0 = Num.leb x y.
Proof.
  destruct (Num.leb x y) eqn:E.
  - apply leb_le in E. apply leb_le. lra.
  - apply leb_gt in E. apply leb_gt. lra.
Qed.

Lemma insertSorted_unrounded (x : Q) (l : list Q) :
  dyadicAngle x -> Forall dyadicAngle l ->
  Double.insertSorted x l = insertSorted x l.
Proof.
  intros [[X0 X1] XG] Hl. induction Hl as [|y l [[Y0 Y1] YG] _ IH]; simpl.
  - reflexivity.
  - unround. rewrite leb_sub, IH. reflexivity.
Qed.

Lemma sortAngles_Forall (P : Q -> Prop) (l : list Q) :
  Forall P l -> Forall P (sortAngles l).
Proof.
  intro H. apply (Permutation_Forall (sortAngles_perm l)). exact H.
Qed.

Lemma sortAngles_unrounded (l : list Q) :
  Forall dyadicAngle l -> Double.sortAngles l = sortAngles l.
Proof.
  intro H. induction H as [|x l Hx Hl IH]; simpl.
  - reflexivity.
  - rewrite IH. apply insertSorted_unrounded; [exact Hx|].
    apply sortAngles_Forall. exact Hl.
Qed.

Lemma isAngleBetween_unrounded (x s e : Q) :
  dyadicAngle x -> Double.isAngleBetween x s e = isAngleBetween x s e.
Proof.
  intros [[X0 X1] XG]. unfold Double.isAngleBetween, isAngleBetween.
  unround. reflexivity.
Qed.

Lemma dropZone_unrounded (l : list Q) (i : nat) :
  Forall dyadicAngle l -> Double.dropZone l i = dropZone l i.
Proof.
  intro H. unfold Double.dropZone, dropZone. cbv zeta.
  set (n := length l).
  pose proof (dyadicAngle_nth l ((i + n - 1) mod n) H) as [[S0 S1] SG].
  pose proof (dyadicAngle_nth l i H) as [[C0 C1] CG].
  pose proof (dyadicAngle_nth l ((i + 1) mod n) H) as [[E0 E1] EG].
  set (ws := nth ((i + n - 1) mod n) l 0) in *.
  set (c0 := nth i l 0) in *.
  set (e0 := nth ((i + 1) mod n) l 0) in *.
  destruct (Num.ltb c0 ws); unround;
    match goal with |- context [Num.ltb e0 ?c] => destruct (Num.ltb e0 c) end;
    unround; reflexivity.
Qed.

Lemma dropLoop_unrounded (l : list Q) (x : Q) :
  Forall dyadicAngle l -> dyadicAngle x ->
  forall todo i, Double.dropLoop l x todo i = dropLoop l x todo i.
Proof.
  intros Hl Hx.
  induction todo as [|todo IH]; intro i; cbn [Double.dropLoop dropLoop].
  - reflexivity.
  - rewrite dropZone_unrounded by exact Hl.
    destruct (dropZone l i) as [zs ze].
    rewrite isAngleBetween_unrounded by exact Hx. rewrite IH. reflexivity.
Qed.

Lemma computeDropIndex_unrounded (l : list Q) (x : Q) :
  Forall dyadicAngle l -> dyadicAngle x ->
  Double.computeDropIndex l x = computeDropIndex l x.
Proof.
  intros Hl Hx. destruct l as [|a [|b rest]].
  - reflexivity.
  - inversion Hl as [|? ? [[A0 A1] AG] _]; subst.
    destruct Hx as [[X0 X1] XG]. cbn [Double.computeDropIndex computeDropIndex].
    unround. reflexivity.
  - apply dropLoop_unrounded; assumption.
Qed.

Lemma separatorAt_unrounded (sorted : list Q) (i : nat) :
  Forall dyadicAngle sorted ->
  Double.separatorAt sorted i = separatorAt sorted i.
Proof.
  intro H. unfold Double.separatorAt, separatorAt.
  pose proof (dyadicAngle_nth sorted i H) as [[A0 A1] AG].
  pose proof (dyadicAngle_nth sorted 0 H) as [[B0 B1] BG].
  pose proof (dyadicAngle_nth sorted (i + 1) H) as [[C0 C1] CG].
  destruct (i =? length sorted - 1)%nat; unround; reflexivity.
Qed.

Lemma separatorsOf_unrounded (sorted : list Q) :
  Forall dyadicAngle sorted ->
  Double.separatorsOf sorted = separatorsOf sorted.
Proof.
  intro H. unfold Double.separatorsOf, separatorsOf.
  apply map_ext. intro i. apply separatorAt_unrounded. exact H.
Qed.

(** The separators of angles of the grid. *)
Lemma separators_fine (sorted : list Q) :
  Forall dyadicAngle sorted ->
  Forall (fun s => grid step42 s /\ 0 <= s /\ s < 720) (separatorsOf sorted).
Proof.
  intro H. unfold separatorsOf. rewrite Forall_map.
  apply Forall_forall. intros i _. unfold separatorAt.
  pose proof (dyadicAngle_nth sorted i H) as [[A0 A1] AG].
  pose proof (dyadicAngle_nth sorted 0 H) as [[B0 B1] BG].
  pose proof (dyadicAngle_nth sorted (i + 1) H) as [[C0 C1] CG].
  destruct (i =? length sorted - 1)%nat;
    (split; [auto 8 with grid|unfold Qdiv; change (/ 2) with (1 # 2); lra]).
Qed.

Lemma wedgeOf_unrounded (separators : list Q) (a : Q) :
  Forall (fun s => grid step42 s /\ 0 <= s /\ s < 720) separators ->
  Double.wedgeOf separators a = wedgeOf separators a.
Proof.
  intro H. unfold Double.wedgeOf, wedgeOf.
  destruct (findIndex _ separators) as [[|k]|]; try reflexivity.
  destruct (nth_error separators (length separators - 1)) as [s|] eqn:E;
    [|reflexivity].
  rewrite Forall_forall in H.
  destruct (H s (nth_error_In _ _ E)) as (SG & S0 & S1).
  cbn [option_map]. unround. reflexivity.
Qed.


Lemma allAnglesOf_unrounded (itemAngles : list Q) (parentAngle : option Q) :
  Forall dyadicAngle (anglesWith itemAngles parentAngle) ->
  Double.allAnglesOf itemAngles parentAngle = allAnglesOf itemAngles parentAngle.
Proof.
  intro H. unfold Double.allAnglesOf, allAnglesOf.
  fold (anglesWith itemAngles parentAngle). apply sortAngles_unrounded. exact H.
Qed.

Lemma allAnglesOf_dyadic (itemAngles : list Q) (parentAngle : option Q) :
  Forall dyadicAngle (anglesWith itemAngles parentAngle) ->
  Forall dyadicAngle (allAnglesOf itemAngles parentAngle).
Proof.
  intro H. rewrite allAnglesOf_sort. apply sortAngles_Forall. exact H.
Qed.

Lemma computeItemWedges_unrounded (itemAngles : list Q)
    (parentAngle : option Q) :
  Forall dyadicAngle (anglesWith itemAngles parentAngle) ->
  Double.computeItemWedges itemAngles parentAngle =
  computeItemWedges itemAngles parentAngle.
Proof.
  intro H.
  assert (E : map (Double.wedgeOf (Double.separatorsOf
                     (Double.allAnglesOf itemAngles parentAngle))) itemAngles
              = map (wedgeOf (separatorsOf
                     (allAnglesOf itemAngles parentAngle))) itemAngles).
  { rewrite allAnglesOf_unrounded by exact H.
    rewrite separatorsOf_unrounded by (apply allAnglesOf_dyadic; exact H).
    apply map_ext. intro a. apply wedgeOf_unrounded.
    apply separators_fine. apply allAnglesOf_dyadic. exact H. }
  unfold Double.computeItemWedges, computeItemWedges.
  destruct itemAngles as [|a [|b rest]]; [reflexivity| |exact E].
  destruct parentAngle; [exact E|reflexivity].
Qed.


Lemma wedgeHolds_unrounded (w : Wedge) (x : Q) :
  dyadicAngle x -> Double.wedgeHolds w x = wedgeHolds w x.
Proof.
  intro H. unfold Double.wedgeHolds, wedgeHolds.
  destruct (start w); [|reflexivity]. destruct (end_ w); [|reflexivity].
  apply isAngleBetween_unrounded. exact H.
Qed.

Lemma holdsAt_unrounded (wedges : list Wedge) (i : nat) (x : Q) :
  dyadicAngle x -> Double.holdsAt wedges i x <-> holdsAt wedges i x.
Proof.
  intro H. unfold Double.holdsAt, holdsAt.
  split; intros (w & Hw & Hx); exists w; (split; [exact Hw|]);
    [rewrite <- wedgeHolds_unrounded by exact H
    |rewrite wedgeHolds_unrounded by exact H]; exact Hx.
Qed.

Lemma dyadicAngle_range (l : list Q) :
  Forall dyadicAngle l -> Forall angleInRange l.
Proof. apply Forall_impl. intros a [H _]. exact H. Qed.

(** ** The wedges as sectors of the circle *)






(** * Properties of computeItemWedges on doubles *)




(** X8.  When the item angles and the parent angle are angles of the
    interval from 0 to 360 on the grid of [2^-41] and no two of them are
    equal, the test of the pointer against the wedges finds every item
    at its own angle: the wedge of item [i] holds the angle of item [i],
    and no other wedge does. *)
Theorem wedge_holds_own_angle (itemAngles : list Q) (parentAngle : option Q)
    (i : nat) (a : Q) :
  Forall dyadicAngle (anglesWith itemAngles parentAngle) ->
  NoDupA Qeq (anglesWith itemAngles parentAngle) ->
  nth_error itemAngles i = Some a ->
  Double.holdsAt (Double.computeItemWedges itemAngles parentAngle) i a /\
  forall j,
    Double.holdsAt (Double.computeItemWedges itemAngles parentAngle) j a ->
    j = i.
Proof.
  intros Hall Hnd Ha.
  assert (Hda : dyadicAngle a).
  { rewrite Forall_forall in Hall. apply Hall.
    apply anglesWith_incl. apply (nth_error_In _ _ Ha). }
  rewrite computeItemWedges_unrounded by exact Hall.
  destruct (wedge_holds_own_angle_exact itemAngles parentAngle i a
              (dyadicAngle_range _ Hall) Hnd Ha) as [Hown Hother].
  split.
  - apply holdsAt_unrounded; assumption.
  - intros j Hj. apply Hother. apply holdsAt_unrounded; assumption.
Qed.

Lemma wedge_holds_own_angle_witness :
  Double.holdsAt (Double.computeItemWedges [10; 200; 100] (Some 300)) 1 200 /\
  forall j,
    Double.holdsAt (Double.computeItemWedges [10; 200; 100] (Some 300)) j 200 ->
    j = 1%nat.
Proof.
  apply (wedge_holds_own_angle [10; 200; 100] (Some 300) 1 200).
  - repeat constructor;
      try (unfold Qle; simpl; lia); try (unfold Qlt; simpl; lia);
      [exists (10 * 2199023255552)%Z|exists (200 * 2199023255552)%Z
      |exists (100 * 2199023255552)%Z|exists (300 * 2199023255552)%Z];
      reflexivity.
  - repeat constructor; intro H; inversion H as [? ? E|? ? H'];
      try (vm_compute in E; discriminate E); subst;
      repeat match goal with
        | H : InA _ _ _ |- _ => inversion H as [? ? E|? ? ?]; clear H; subst;
            try (vm_compute in E; discriminate E)
        end.
  - reflexivity.
Defined.

(** * Properties of isAngleBetween and computeDropIndex on doubles *)

(** X11.  For an angle of the interval from 0 to 360 on the grid of
    [2^-41], a start that is not below -360 and an end below 720,
    [isAngleBetween] tests whether the angle, moved by any number of
    full turns, lies in the interval that is open at [start] and closed
    at [end]: the three turns that it tries are all that can hit this
    interval, and neither [angle - 360] nor [angle + 360] is rounded. *)
Theorem isAngleBetween_turns (x s e : Q) :
  dyadicAngle x -> -360 <= s -> e < 720 ->
  (Double.isAngleBetween x s e = true <->
   exists k : Z, s < x + 360 * inject_Z k /\ x + 360 * inject_Z k <= e).
Proof.
  intros Hx Hs He. rewrite isAngleBetween_unrounded by exact Hx.
  destruct Hx as [[X0 X1] _].
  apply isAngleBetween_turns_exact; assumption.
Qed.

Lemma isAngleBetween_turns_witness :
  Double.isAngleBetween 10 350 380 = true <->
  exists k : Z, 350 < 10 + 360 * inject_Z k /\ 10 + 360 * inject_Z k <= 380.
Proof.
  apply (isAngleBetween_turns 10 350 380).
  - split; [split; [unfold Qle|unfold Qlt]; simpl; lia|].
    exists (10 * 2199023255552)%Z. reflexivity.
  - unfold Qle. simpl. lia.
  - unfold Qlt. simpl. lia.
Defined.

(** C4.  The loop over the drop zones can be left without a value.
    The end of a drop zone and the start of the next are computed by
    different operations, and their results are rounded differently: for
    the items at 0 and at 3.6 degrees the zone of item 1 ends below
    181.8, the zone of item 0 starts at 181.8, and the pointer angle
    181.8 lies in neither. *)
Theorem computeDropIndex_falls_through :
  StronglySorted Qlt [0; literal (36 # 10)] /\
  Forall angleInRange [0; literal (36 # 10)] /\
  angleInRange (literal (1818 # 10)) /\
  Double.computeDropIndex [0; literal (36 # 10)] (literal (1818 # 10)) = None.
Proof.
  split; [repeat constructor; vm_compute; reflexivity|].
  split; [repeat constructor; vm_compute; congruence|].
  split; [split; vm_compute; congruence|].
  vm_compute. reflexivity.
Qed.

(** X20.  For a list of N >= 1 angles that is sorted ascending without
    a repeated angle, and a pointer angle, all of them angles of the
    interval from 0 to 360 on the grid of [2^-41], [computeDropIndex]
    returns an index from 0 to N.  For N >= 2 exactly one drop zone
    holds the pointer angle and its index is returned. *)
Theorem computeDropIndex_total_dyadic (l : list Q) (x : Q) :
  l <> [] -> StronglySorted Qlt l -> Forall dyadicAngle l -> dyadicAngle x ->
  exists i,
    Double.computeDropIndex l x = Some i /\ (i <= length l)%nat /\
    ((2 <= length l)%nat ->
     (i < length l)%nat /\
     Double.isAngleBetween x (fst (Double.dropZone l i))
       (snd (Double.dropZone l i)) = true /\
     forall i', (i' < length l)%nat ->
       Double.isAngleBetween x (fst (Double.dropZone l i'))
         (snd (Double.dropZone l i')) = true ->
       i' = i).
Proof.
  intros Hne Hsorted Hl Hx.
  destruct (computeDropIndex_total_exact l x Hne Hsorted
              (dyadicAngle_range _ Hl) (proj1 Hx)) as (i & Hrun & Hle & Htwo).
  exists i. rewrite computeDropIndex_unrounded by assumption.
  split; [exact Hrun|]. split; [exact Hle|]. intro H2.
  destruct (Htwo H2) as (Hi & Hin & Huniq).
  split; [exact Hi|].
  rewrite dropZone_unrounded, isAngleBetween_unrounded by assumption.
  split; [exact Hin|]. intros i' Hi' Hin'. apply Huniq; [exact Hi'|].
  rewrite dropZone_unrounded, isAngleBetween_unrounded in Hin' by assumption.
  exact Hin'.
Qed.

Lemma computeDropIndex_total_dyadic_witness :
  exists i,
    Double.computeDropIndex [0; 90; 180; 270] 50 = Some i /\ (i <= 4)%nat /\
    ((2 <= 4)%nat ->
     (i < 4)%nat /\
     Double.isAngleBetween 50 (fst (Double.dropZone [0; 90; 180; 270] i))
       (snd (Double.dropZone [0; 90; 180; 270] i)) = true /\
     forall i', (i' < 4)%nat ->
       Double.isAngleBetween 50 (fst (Double.dropZone [0; 90; 180; 270] i'))
         (snd (Double.dropZone [0; 90; 180; 270] i')) = true ->
       i' = i).
Proof.
  apply (computeDropIndex_total_dyadic [0; 90; 180; 270] 50).
  - discriminate.
  - repeat constructor; unfold Qlt; simpl; lia.
  - repeat constructor;
      try (unfold Qle; simpl; lia); try (unfold Qlt; simpl; lia);
      [exists (0 * 2199023255552)%Z|exists (90 * 2199023255552)%Z
      |exists (180 * 2199023255552)%Z|exists (270 * 2199023255552)%Z];
      reflexivity.
  - split; [split; [unfold Qle|unfold Qlt]; simpl; lia|].
    exists (50 * 2199023255552)%Z. reflexivity.
Defined.

(** X12.  For two or more angles of the interval from 0 to 360 on the
    grid of [2^-41], sorted ascending without a repeated angle, a
    pointer at the angle of item [i] gives the drop index [i]. *)
Theorem computeDropIndex_at_item (l : list Q) (i : nat) :
  (2 <= length l)%nat -> StronglySorted Qlt l -> Forall dyadicAngle l ->
  (i < length l)%nat ->
  Double.computeDropIndex l (nth i l 0) = Some i.
Proof.
  intros Htwo Hsorted Hl Hi.
  rewrite computeDropIndex_unrounded
    by (try exact Hl; apply dyadicAngle_nth; exact Hl).
  apply computeDropIndex_at_item_exact;
    [exact Htwo|exact Hsorted|apply dyadicAngle_range; exact Hl|exact Hi].
Qed.

Lemma computeDropIndex_at_item_witness :
  Double.computeDropIndex [10; 100; 250] (nth 2 [10; 100; 250] 0) = Some 2%nat.
Proof.
  apply (computeDropIndex_at_item [10; 100; 250] 2).
  - simpl. lia.
  - repeat constructor; unfold Qlt; simpl; lia.
  - repeat constructor;
      try (unfold Qle; simpl; lia); try (unfold Qlt; simpl; lia);
      [exists (10 * 2199023255552)%Z|exists (100 * 2199023255552)%Z
      |exists (250 * 2199023255552)%Z]; reflexivity.
  - simpl. lia.
Defined.

(** X13.  For a single item and a pointer angle that is not below the
    angle of the item, both angles of the interval from 0 to 360 on the
    grid of [2^-41], the drop index is 0 exactly when the pointer is
    less than 90 degrees away from the item, the shorter way around, and
    1 otherwise. *)
Theorem computeDropIndex_single_above (a x : Q) :
  dyadicAngle a -> dyadicAngle x -> a <= x ->
  Double.computeDropIndex [a] x =
  Some (if Num.ltb (angularDistance x a) 90 then 0 else 1)%nat.
Proof.
  intros Ha Hx Hle.
  assert (Hl : Forall dyadicAngle [a]) by (constructor; [exact Ha|constructor]).
  rewrite computeDropIndex_unrounded by assumption.
  apply computeDropIndex_single_above_exact;
    [exact (proj1 Ha)|exact (proj1 Hx)|exact Hle].
Qed.

Lemma computeDropIndex_single_above_witness :
  Double.computeDropIndex [10] 300 =
  Some (if Num.ltb (angularDistance 300 10) 90 then 0 else 1)%nat.
Proof.
  apply (computeDropIndex_single_above 10 300).
  - split; [split; [unfold Qle|unfold Qlt]; simpl; lia|].
    exists (10 * 2199023255552)%Z. reflexivity.
  - split; [split; [unfold Qle|unfold Qlt]; simpl; lia|].
    exists (300 * 2199023255552)%Z. reflexivity.
  - unfold Qle. simpl. lia.
Defined.

(** X14.  For two or more angles of the interval from 0 to 360 on the
    grid of [2^-41], sorted ascending without a repeated angle, and no
    parent angle, the drop zones are the wedges: for a pointer angle of
    that interval and grid, [computeDropIndex] returns [i] exactly when
    the wedge that [computeItemWedges] returns for item [i] holds the
    pointer. *)
Theorem computeDropIndex_wedge (l : list Q) (x : Q) (i : nat) :
  (2 <= length l)%nat -> StronglySorted Qlt l -> Forall dyadicAngle l ->
  dyadicAngle x ->
  (Double.computeDropIndex l x = Some i <->
   Double.holdsAt (Double.computeItemWedges l None) i x).
Proof.
  intros Htwo Hsorted Hl Hx.
  rewrite computeDropIndex_unrounded by assumption.
  rewrite computeItemWedges_unrounded by exact Hl.
  rewrite holdsAt_unrounded by exact Hx.
  apply computeDropIndex_wedge_exact;
    [exact Htwo|exact Hsorted|apply dyadicAngle_range; exact Hl
    |exact (proj1 Hx)].
Qed.

Lemma computeDropIndex_wedge_witness :
  Double.computeDropIndex [0; 90; 180; 270] 50 = Some 1%nat <->
  Double.holdsAt (Double.computeItemWedges [0; 90; 180; 270] None) 1 50.
Proof.
  apply (computeDropIndex_wedge [0; 90; 180; 270] 50 1).
  - simpl. lia.
  - repeat constructor; unfold Qlt; simpl; lia.
  - repeat constructor;
      try (unfold Qle; simpl; lia); try (unfold Qlt; simpl; lia);
      [exists (0 * 2199023255552)%Z|exists (90 * 2199023255552)%Z
      |exists (180 * 2199023255552)%Z|exists (270 * 2199023255552)%Z];
      reflexivity.
  - split; [split; [unfold Qle|unfold Qlt]; simpl; lia|].
    exists (50 * 2199023255552)%Z. reflexivity.
Defined.
